(** * Reverse-mode automatic differentiation: the [Node] graph and its driver

    A shallow embedding of [src/cs107_creativename/Reverse.py].

    Python objects live in a store.  A [Node] object is a cell of the store;
    a reference to it is its index, which is also its creation rank: the
    constructor always allocates at the end of the store.  Every method of
    the class is a computation that threads the store and may raise.

    Python's [int] and [float] are both read as the real number they denote
    (the specification's "real number").  An [int] is that number exactly;
    a [float] is that number up to rounding, which is outside the model, and
    only within the range of the floats: where a square leaves that range,
    the code is embedded once more on the binary64 floats themselves (module
    [binary64]).

    The forward mode of [src/dual_temp.py] is embedded as well: a [Dual] is
    an immutable pair, so that its methods, the elementary functions and the
    driver [get_gradient] are pure functions that may raise.  The functions
    of [numpy] with a restricted domain ([arcsin], [arccos], [arccosh],
    [arctanh]) return [nan] outside of it and are left out. *)

From Stdlib Require Import Reals Lra Lia List.
From Stdlib Require Strings.String.
From Stdlib Require PrimFloat.
From stdpp Require Import base list.
Import ListNotations String.StringSyntax.

Open Scope R_scope.
Open Scope string_scope.

(** ** Python values, exceptions and the store *)

Abbreviation ref := nat.

(** [class Node]: the fields [val], [children] and [der].  A child is a pair
    of a reference to the consuming node and the partial derivative. *)
Record Node := mkNode {
  val : R;
  children : list (ref * R);
  der : option R
}.

Abbreviation heap := (list Node).

(** The values that reach the code: numbers ([int] or [float]), references
    to [Node] objects, sequences, the complex results of [**], and anything
    else (strings, [None], ...). *)
#[warnings="-register-all"]
Inductive pyval :=
| VNum (x : R)
| VNode (r : ref)
| VList (items : list pyval)
| VComplex
| VOther.

Inductive exn :=
| TypeError (msg : option String.string)
| ZeroDivisionError
| ValueError
| OverflowError
| AttributeError
| RecursionError
| Exception (msg : String.string)
| DanglingRef.
(* [DanglingRef] is not a Python exception: it marks a reference that is not
   in the store, which no Python program can hold. *)

Inductive outcome (A : Type) :=
| Ok (a : A)
| Raise (e : exn).
Arguments Ok {A} a.
Arguments Raise {A} e.

(** Computations over the store.  The store survives an exception, as the
    objects mutated before a Python [raise] stay mutated. *)
Definition M (A : Type) := heap -> outcome A * heap.

Definition ret {A} (a : A) : M A := fun h => (Ok a, h).

Definition raise {A} (e : exn) : M A := fun h => (Raise e, h).

Definition bind {A B} (m : M A) (k : A -> M B) : M B :=
  fun h => match m h with
           | (Ok a, h') => k a h'
           | (Raise e, h') => (Raise e, h')
           end.

Definition lift {A} (o : outcome A) : M A := fun h => (o, h).

Declare Scope py_scope.
Delimit Scope py_scope with py.
Notation "x <- m ;; k" := (bind m (fun x => k))
  (at level 100, m at next level, right associativity) : py_scope.
Notation "m ;;; k" := (bind m (fun _ => k))
  (at level 100, right associativity) : py_scope.
Open Scope py_scope.

(** A list comprehension [[f(x) for x in l]]. *)
Fixpoint list_comp {A B} (f : A -> M B) (l : list A) : M (list B) :=
  match l with
  | [] => ret []
  | x :: l' => y <- f x ;; ys <- list_comp f l' ;; ret (y :: ys)
  end.

(** A loop [for x in l: acc.append(f(x))] over the accumulator [acc]. *)
Fixpoint for_append {A B} (f : A -> M B) (l : list A) (acc : list B)
  : M (list B) :=
  match l with
  | [] => ret acc
  | x :: l' => y <- f x ;; for_append f l' (acc ++ [y])
  end.

(** Attribute access on a [Node] reference. *)
Definition load (r : ref) : M Node :=
  fun h => match h !! r with
           | Some n => (Ok n, h)
           | None => (Raise DanglingRef, h)
           end.

Definition store (r : ref) (n : Node) : M unit :=
  fun h => (Ok tt, <[r := n]> h).

Definition alloc (n : Node) : M ref :=
  fun h => (Ok (length h), h ++ [n]).

(** [r.children.append(e)] *)
Definition append_child (r : ref) (e : ref * R) : M unit :=
  n <- load r ;;
  store r (mkNode (val n) (children n ++ [e]) (der n)).

(** [r.der = d] *)
Definition set_der (r : ref) (d : R) : M unit :=
  n <- load r ;;
  store r (mkNode (val n) (children n) (Some d)).

(** ** The arithmetic of Python numbers used by the class *)

(** The comparisons of two numbers, on the reals.  A NaN, the float for which
    every comparison is [False], the one with itself included, is not
    one. *)
Definition Reqb (x y : R) : bool := if Req_dec_T x y then true else false.
Definition Rltb (x y : R) : bool := if Rlt_dec x y then true else false.
Definition Rleb (x y : R) : bool := if Rle_dec x y then true else false.

(** [x / y] *)
Definition py_truediv (x y : R) : outcome R :=
  if Req_dec_T y 0 then Raise ZeroDivisionError else Ok (x / y).

(** [x ** y]: zero to a negative power raises, a negative base to a
    fractional power is a complex number.  This is the power of the reals:
    on floats the power is rounded, to [0.0] when it is too small for a
    float, and [OverflowError] is raised when it is too large for one (for
    the square, see [binary64.py_pow2]). *)
Definition py_pow (x y : R) : outcome pyval :=
  if Rlt_dec 0 x then Ok (VNum (Rpower x y))
  else if Req_dec_T x 0 then
    if Rlt_dec y 0 then Raise ZeroDivisionError
    else if Req_dec_T y 0 then Ok (VNum 1)
    else Ok (VNum 0)
  else if Req_dec_T y (IZR (Int_part y))
    then Ok (VNum (powerRZ x (Int_part y)))
    else Ok VComplex.

(** [sum(terms)]: the terms added from the left onto 0. *)
Definition py_sum (terms : list R) : R := fold_left Rplus terms 0.

(** [math.log(x)] *)
Definition math_log (x : R) : outcome R :=
  if Rlt_dec 0 x then Ok (ln x) else Raise ValueError.

(** A partial derivative is stored as a real.  Where a weight is computed
    from a power, the complex case is excluded: a square is real (lemma
    [py_pow_2_not_complex]), and so is [x ** (y - 1)] after the constructor
    accepted [x ** y] (lemma [py_pow_pred_not_complex]). *)
Definition real_of (v : pyval) : M R :=
  match v with
  | VNum x => ret x
  | _ => raise (TypeError None)
  end.

(** The items of a [list], for [len(v)] and [v[i]].  Any other value is
    taken to have no length, as a number or [None]; a [str] or a [range],
    which has one, is not modelled as a point. *)
Definition py_items (v : pyval) : M (list pyval) :=
  match v with
  | VList items => ret items
  | _ => raise (TypeError None)
  end.

(** ** [class Node] *)

(** [Node.__init__] *)
Definition __init__ (v : pyval) : M ref :=
  match v with
  | VNum x => alloc (mkNode x [] None)
  | _ => raise (TypeError None)
  end.

(** [Node.get_gradient].  [depth] is the number of nested calls the
    interpreter still allows; exhausting it is Python's [RecursionError]. *)
Fixpoint get_gradient (depth : nat) (self : ref) : M R :=
  match depth with
  | O => raise RecursionError
  | S depth' =>
      s <- load self ;;
      match der s with
      | Some d => ret d
      | None =>
          terms <- list_comp
                     (fun e : ref * R =>
                        g <- get_gradient depth' (fst e) ;; ret (g * snd e))
                     (children s) ;;
          set_der self (py_sum terms) ;;;
          ret (py_sum terms)
      end
  end.

Definition __add__ (self : ref) (other : pyval) : M ref :=
  match other with
  | VNum o =>
      s <- load self ;;
      new_node <- __init__ (VNum (val s + o)) ;;
      append_child self (new_node, 1) ;;;
      ret new_node
  | VNode other =>
      s <- load self ;;
      o <- load other ;;
      new_node <- __init__ (VNum (val s + val o)) ;;
      append_child self (new_node, 1) ;;;
      append_child other (new_node, 1) ;;;
      ret new_node
  | _ => raise (TypeError None)
  end.

Definition __radd__ (self : ref) (other : pyval) : M ref :=
  __add__ self other.

Definition __mul__ (self : ref) (other : pyval) : M ref :=
  match other with
  | VNum o =>
      s <- load self ;;
      new_node <- __init__ (VNum (val s * o)) ;;
      append_child self (new_node, o) ;;;
      ret new_node
  | VNode other =>
      s <- load self ;;
      o <- load other ;;
      new_node <- __init__ (VNum (val s * val o)) ;;
      append_child self (new_node, val o) ;;;
      append_child other (new_node, val s) ;;;
      ret new_node
  | _ => raise (TypeError None)
  end.

Definition __rmul__ (self : ref) (other : pyval) : M ref :=
  __mul__ self other.

Definition __truediv__ (self : ref) (other : pyval) : M ref :=
  match other with
  | VNum o =>
      s <- load self ;;
      q <- lift (py_truediv (val s) o) ;;
      new_node <- __init__ (VNum q) ;;
      w <- lift (py_truediv 1 o) ;;
      append_child self (new_node, w) ;;;
      ret new_node
  | VNode other =>
      s <- load self ;;
      o <- load other ;;
      q <- lift (py_truediv (val s) (val o)) ;;
      new_node <- __init__ (VNum q) ;;
      w <- lift (py_truediv 1 (val o)) ;;
      append_child self (new_node, w) ;;;
      sq <- lift (py_pow (val o) 2) ;;
      sq <- real_of sq ;;
      w' <- lift (py_truediv (- val s) sq) ;;
      append_child other (new_node, w') ;;;
      ret new_node
  | _ => raise (TypeError None)
  end.

Definition __rtruediv__ (self : ref) (other : pyval) : M ref :=
  match other with
  | VNum o =>
      s <- load self ;;
      q <- lift (py_truediv o (val s)) ;;
      new_node <- __init__ (VNum q) ;;
      sq <- lift (py_pow (val s) 2) ;;
      sq <- real_of sq ;;
      w <- lift (py_truediv (- o) sq) ;;
      append_child self (new_node, w) ;;;
      ret new_node
  | _ => raise (TypeError None)
  end.

Definition __sub__ (self : ref) (other : pyval) : M ref :=
  match other with
  | VNum o =>
      s <- load self ;;
      new_node <- __init__ (VNum (val s - o)) ;;
      append_child self (new_node, 1) ;;;
      ret new_node
  | VNode other =>
      s <- load self ;;
      o <- load other ;;
      new_node <- __init__ (VNum (val s - val o)) ;;
      append_child self (new_node, 1) ;;;
      append_child other (new_node, -1) ;;;
      ret new_node
  | _ => raise (TypeError None)
  end.

Definition __rsub__ (self : ref) (other : pyval) : M ref :=
  match other with
  | VNum o =>
      s <- load self ;;
      new_node <- __init__ (VNum (o - val s)) ;;
      append_child self (new_node, -1) ;;;
      ret new_node
  | _ => raise (TypeError None)
  end.

Definition __pow__ (self : ref) (other : pyval) : M ref :=
  match other with
  | VNum o =>
      s <- load self ;;
      p <- lift (py_pow (val s) o) ;;
      new_node <- __init__ p ;;
      p' <- lift (py_pow (val s) (o - 1)) ;;
      p' <- real_of p' ;;
      append_child self (new_node, o * p') ;;;
      ret new_node
  | VNode other =>
      s <- load self ;;
      o <- load other ;;
      p <- lift (py_pow (val s) (val o)) ;;
      new_node <- __init__ p ;;
      p' <- lift (py_pow (val s) (val o - 1)) ;;
      p' <- real_of p' ;;
      append_child self (new_node, val o * p') ;;;
      p <- lift (py_pow (val s) (val o)) ;;
      p <- real_of p ;;
      l <- lift (math_log (val o)) ;;
      append_child other (new_node, p * l) ;;;
      ret new_node
  | _ => raise (TypeError None)
  end.

Definition __rpow__ (self : ref) (other : pyval) : M ref :=
  match other with
  | VNum o =>
      s <- load self ;;
      p <- lift (py_pow o (val s)) ;;
      new_node <- __init__ p ;;
      p <- lift (py_pow o (val s)) ;;
      p <- real_of p ;;
      l <- lift (math_log o) ;;
      append_child self (new_node, p * l) ;;;
      ret new_node
  | _ => raise (TypeError None)
  end.

Definition __neg__ (self : ref) : M ref :=
  __mul__ self (VNum (-1)).

Definition __lt__ (self : ref) (other : pyval) : M bool :=
  match other with
  | VNum o => s <- load self ;; ret (Rltb (val s) o)
  | VNode other => s <- load self ;; o <- load other ;; ret (Rltb (val s) (val o))
  | _ => raise (TypeError None)
  end.

Definition __gt__ (self : ref) (other : pyval) : M bool :=
  match other with
  | VNum o => s <- load self ;; ret (Rltb o (val s))
  | VNode other => s <- load self ;; o <- load other ;; ret (Rltb (val o) (val s))
  | _ => raise (TypeError None)
  end.

Definition __le__ (self : ref) (other : pyval) : M bool :=
  match other with
  | VNum o => s <- load self ;; ret (Rleb (val s) o)
  | VNode other => s <- load self ;; o <- load other ;; ret (Rleb (val s) (val o))
  | _ => raise (TypeError None)
  end.

Definition __ge__ (self : ref) (other : pyval) : M bool :=
  match other with
  | VNum o => s <- load self ;; ret (Rleb o (val s))
  | VNode other => s <- load self ;; o <- load other ;; ret (Rleb (val o) (val s))
  | _ => raise (TypeError None)
  end.

(** [==] on the two [children] lists: the lengths first, then the pairs in
    order until one differs.  Two pairs are compared component by component;
    Python takes two references to the same object as equal without calling
    [__eq__]. *)
Definition edge_eq (node_eq : ref -> ref -> M bool) (e1 e2 : ref * R)
  : M bool :=
  same <- (if Nat.eqb (fst e1) (fst e2) then ret true
           else node_eq (fst e1) (fst e2)) ;;
  if same : bool then ret (Reqb (snd e1) (snd e2)) else ret false.

Fixpoint items_eq (node_eq : ref -> ref -> M bool) (l1 l2 : list (ref * R))
  : M bool :=
  match l1, l2 with
  | e1 :: l1', e2 :: l2' =>
      b <- edge_eq node_eq e1 e2 ;;
      if b : bool then items_eq node_eq l1' l2' else ret false
  | _, _ => ret true
  end.

Definition children_eq (node_eq : ref -> ref -> M bool)
  (l1 l2 : list (ref * R)) : M bool :=
  if Nat.eqb (length l1) (length l2) then items_eq node_eq l1 l2
  else ret false.

(** [self.der == other.der], where either may be [None]. *)
Definition der_eqb (d1 d2 : option R) : bool :=
  match d1, d2 with
  | None, None => true
  | Some x, Some y => Reqb x y
  | _, _ => false
  end.

(** [Node.__eq__]; the comparison of the children calls it again on the
    nodes they point to. *)
Fixpoint __eq__ (depth : nat) (self : ref) (other : pyval) : M bool :=
  match depth with
  | O => raise RecursionError
  | S depth' =>
      match other with
      | VNode other =>
          s <- load self ;;
          o <- load other ;;
          if negb (Reqb (val s) (val o)) then ret false
          else if negb (der_eqb (der s) (der o)) then ret false
          else children_eq (fun a b => __eq__ depth' a (VNode b))
                           (children s) (children o)
      | _ => ret false
      end
  end.

Definition __ne__ (depth : nat) (self : ref) (other : pyval) : M bool :=
  b <- __eq__ depth self other ;; ret (negb b).

(** [Node._AutoDiffR] *)
Definition _AutoDiffR (depth : nat) (self : ref) (variables : list ref)
  : M (list R) :=
  set_der self 1 ;;;
  for_append (fun var => get_gradient depth var) variables [].

(** ** The driver *)

(** A user function: the number of parameters that [inspect.signature]
    reports, which counts every parameter that the function declares,
    whatever its kind (positional, keyword-only, [*args], [**kwargs]), and
    what a call on [Node] arguments does.  An object whose signature cannot
    be read (a number, a string, ...) is [NotAFunction]. *)
Inductive pyfun :=
| Def (nparams : nat) (body : list ref -> M pyval)
| NotAFunction.

(** [len(signature(f).parameters)] *)
Definition signature_len (f : pyfun) : outcome nat :=
  match f with
  | Def nparams _ => Ok nparams
  | NotAFunction => Raise (TypeError None)
  end.

(** The call of [f] on the unpacked [variables]. *)
Definition call (f : pyfun) (variables : list ref) : M pyval :=
  match f with
  | Def _ body => body variables
  | NotAFunction => raise (TypeError None)
  end.

Definition dimension_mismatch : exn :=
  Exception "provided value doesn't match the input dimension of f".

Definition length_mismatch : exn :=
  Exception "function list length doesn't match value list length".

Definition not_a_function : exn :=
  TypeError (Some "the first argument must be a function").

(** [AutoDiffR1D] *)
Definition AutoDiffR1D (depth : nat) (f : pyfun) (val : pyval)
  : M (list R) :=
  match signature_len f with
  | Raise _ => raise not_a_function
  | Ok dimension =>
      items <- py_items val ;;
      if negb (Nat.eqb dimension (length items)) then raise dimension_mismatch
      else
        variables <- list_comp __init__ items ;;
        result <- call f variables ;;
        match result with
        | VNode result => _AutoDiffR depth result variables
        | _ => raise AttributeError
        end
  end.

(** The first argument of [AutoDiffR]: a [list] of functions, or one object
    that is not a [list]. *)
Inductive funs :=
| FList (f_list : list pyfun)
| FOne (f : pyfun).

(** What [AutoDiffR] returns: a list of gradients, or one gradient. *)
Inductive grads :=
| Gradients (results : list (list R))
| Gradient (result : list R).

(** [AutoDiffR] *)
Definition AutoDiffR (depth : nat) (f_list : funs) (val_list : pyval)
  : M grads :=
  match f_list with
  | FList f_list =>
      vals <- py_items val_list ;;
      if negb (Nat.eqb (length f_list) (length vals))
      then raise length_mismatch
      else
        results <- for_append (fun fv : pyfun * pyval =>
                                 AutoDiffR1D depth (fst fv) (snd fv))
                              (zip f_list vals) [] ;;
        ret (Gradients results)
  | FOne f =>
      result <- AutoDiffR1D depth f val_list ;;
      ret (Gradient result)
  end.

(** ** The forward-mode power of [dual_temp.py] *)

Definition obind {A B} (o : outcome A) (k : A -> outcome B) : outcome B :=
  match o with Ok a => k a | Raise e => Raise e end.

Module Dual.

(** [class Dual]: a value and a derivative along the seed direction. *)
Record t := mk { val : R; der : R }.

(** [Dual.__init__] *)
Definition __init__ (value direction : pyval) : outcome t :=
  match value, direction with
  | VNum v, VNum d => Ok (mk v d)
  | _, _ => Raise (TypeError None)
  end.

(** [Dual.__pow__] with a [Dual] exponent. *)
Definition __pow__ (self other : t) : outcome t :=
  obind (py_pow (val self) (val other)) (fun value =>
  obind (py_pow (val self) (val other)) (fun p =>
  obind (math_log (val self)) (fun l =>
  obind (py_truediv (val other) (val self)) (fun q =>
  __init__ value
    (match p with
     | VNum p => VNum (p * (der other * l + q * der self))
     | _ => VComplex
     end))))).

End Dual.

(** ** The functions of the testable properties *)

(** [lambda x: (x + x) * (x + x)] *)
Definition f_diamond : pyfun :=
  Def 1 (fun args =>
    match args with
    | [x] =>
        l <- __add__ x (VNode x) ;;
        r <- __add__ x (VNode x) ;;
        p <- __mul__ l (VNode r) ;;
        ret (VNode p)
    | _ => raise (TypeError None)
    end).

(** [lambda x, y: x / y] *)
Definition f_quotient : pyfun :=
  Def 2 (fun args =>
    match args with
    | [x; y] => q <- __truediv__ x (VNode y) ;; ret (VNode q)
    | _ => raise (TypeError None)
    end).

(** [lambda x, y: x ** y] *)
Definition f_power : pyfun :=
  Def 2 (fun args =>
    match args with
    | [x; y] => p <- __pow__ x (VNode y) ;; ret (VNode p)
    | _ => raise (TypeError None)
    end).

(** [lambda x: x] *)
Definition identity_body (args : list ref) : M pyval :=
  match args with
  | [x] => ret (VNode x)
  | _ => raise (TypeError None)
  end.

Definition f_identity : pyfun := Def 1 identity_body.

(** ** Vocabulary of the properties *)

(** The binary arithmetic methods, and the ordering comparisons. *)
Inductive binop :=
| Add | RAdd | Mul | RMul | TrueDiv | RTrueDiv | Sub | RSub | Pow | RPow.

Definition apply_binop (op : binop) : ref -> pyval -> M ref :=
  match op with
  | Add => __add__ | RAdd => __radd__
  | Mul => __mul__ | RMul => __rmul__
  | TrueDiv => __truediv__ | RTrueDiv => __rtruediv__
  | Sub => __sub__ | RSub => __rsub__
  | Pow => __pow__ | RPow => __rpow__
  end.

Inductive cmpop := Lt | Gt | Le | Ge.

Definition apply_cmp (c : cmpop) : ref -> pyval -> M bool :=
  match c with
  | Lt => __lt__ | Gt => __gt__ | Le => __le__ | Ge => __ge__
  end.

(** [isinstance(v, int) or isinstance(v, float)] and [isinstance(v, Node)] *)
Definition is_number (v : pyval) : bool :=
  match v with VNum _ => true | _ => false end.

Definition is_node (v : pyval) : bool :=
  match v with VNode _ => true | _ => false end.

(** The functions [AutoDiffR] is given. *)
Definition members (fs : funs) : list pyfun :=
  match fs with FList f_list => f_list | FOne f => [f] end.

(** The store after [r.children.append(e)], for a reference in the store. *)
Definition add_edge (r : ref) (e : ref * R) (h : heap) : heap :=
  alter (fun n => mkNode (val n) (children n ++ [e]) (der n)) r h.

(** What a binary method can do to the store: nothing (it raised before the
    constructor call), one new node, or one new node and an edge to it from
    one or from two nodes that were there before. *)
Inductive op_effect (h : heap) : heap -> Prop :=
| effect_none : op_effect h h
| effect_node x : op_effect h (h ++ [mkNode x [] None])
| effect_edge x r w :
    (r < length h)%nat ->
    op_effect h (add_edge r (length h, w) (h ++ [mkNode x [] None]))
| effect_edges x r1 w1 r2 w2 :
    (r1 < length h)%nat -> (r2 < length h)%nat ->
    op_effect h (add_edge r2 (length h, w2)
                   (add_edge r1 (length h, w1) (h ++ [mkNode x [] None]))).

(** Every edge points to a node created strictly later. *)
Definition edges_forward (h : heap) : Prop :=
  forall i n e, h !! i = Some n -> e ∈ children n ->
                (i < e.1 < length h)%nat.

(** [h'] has the nodes of [h], with the same values and edges: only cached
    gradients may differ. *)
Definition same_graph (h h' : heap) : Prop :=
  length h' = length h /\
  forall i n, h !! i = Some n ->
    exists n', h' !! i = Some n' /\ val n' = val n /\ children n' = children n.

(** [h'] extends [h]: the values of the nodes of [h] are kept, and every edge
    of [h'] is an edge of [h] or points forward. *)
Definition grows (h h' : heap) : Prop :=
  (length h <= length h')%nat /\
  forall i n', h' !! i = Some n' ->
    (forall e, e ∈ children n' ->
       (i < e.1 < length h')%nat \/
       exists n, h !! i = Some n /\ e ∈ children n) /\
    (forall n, h !! i = Some n -> val n' = val n).

(** Every node of [h] is in [h'] with the value it had. *)
Definition vals_kept (h h' : heap) : Prop :=
  forall i n, h !! i = Some n -> exists n', h' !! i = Some n' /\ val n' = val n.

(** A computation relates every store to the store it leaves. *)
Definition preserves (Rel : heap -> heap -> Prop) {A} (m : M A) : Prop :=
  forall h, Rel h (m h).2.

(** A computation raises only exceptions of [P]. *)
Definition raises_only (P : exn -> Prop) {A} (m : M A) : Prop :=
  forall h e, (m h).1 = Raise e -> P e.

(** The stores that the class builds: from the empty store, by the
    constructor, the arithmetic methods, the seeding of a gradient and the
    backward pass. *)
Inductive built : heap -> Prop :=
| built_empty : built []
| built_init v h : built h -> built (__init__ v h).2
| built_binop op self other h :
    built h -> built (apply_binop op self other h).2
| built_neg self h : built h -> built (__neg__ self h).2
| built_seed self d h : built h -> built (set_der self d h).2
| built_gradient depth self h : built h -> built (get_gradient depth self h).2.

(** Paths along the edges. *)
Inductive reach (h : heap) : ref -> ref -> Prop :=
| reach_edge i n e : h !! i = Some n -> e ∈ children n -> reach h i e.1
| reach_trans i j k : reach h i j -> reach h j k -> reach h i k.


(** Following the specification of [evaluate_many]: the gradient vectors of
    the functions, each evaluated at its own point, in order. *)
Definition evaluate_each (depth : nat) (f_list : list pyfun)
  (vals : list pyval) : M (list (list R)) :=
  list_comp (fun fv : pyfun * pyval => AutoDiffR1D depth fv.1 fv.2)
            (zip f_list vals).

(** ** Arithmetic expressions, as bodies of user functions *)

(** The binary operators [+], [-], [*], [/] and [**]. *)
Inductive arith := Plus | Minus | Times | Over | Power.

(** The method of the left operand that Python calls for an operator, and
    the reflected method of the right operand it calls when the left one is
    a number. *)
Definition method (o : arith) : binop :=
  match o with
  | Plus => Add | Minus => Sub | Times => Mul | Over => TrueDiv | Power => Pow
  end.

Definition reflected (o : arith) : binop :=
  match o with
  | Plus => RAdd | Minus => RSub | Times => RMul | Over => RTrueDiv
  | Power => RPow
  end.

(** The elementary functions of [dual_temp.py] that are defined on all of
    the reals (or, for [tan], where the cosine is not zero). *)
Inductive elementary :=
| Sin | Cos | Tan | Exp | Sinh | Cosh | Tanh | Arctan | Arcsinh.

(** The body of a user function whose value is computed from its parameters,
    numbered from 0: [a o b], [a o c] and [c o a] for a constant [c], [-a]
    and [f(a)]. *)
Inductive expr :=
| EVar (k : nat)
| EBin (o : arith) (a b : expr)
| EConstR (o : arith) (a : expr) (c : R)
| EConstL (o : arith) (c : R) (b : expr)
| ENeg (a : expr)
| ECall (f : elementary) (a : expr).

(** A name that is not a parameter is not bound. *)
Definition name_error : exn := Exception "name is not defined".

(** The evaluation of a body on [Node] arguments, left operand first.  An
    elementary function of [dual_temp.py] takes a [Node] for neither a number
    nor a [Dual]. *)
Fixpoint node_eval (args : list ref) (e : expr) : M ref :=
  match e with
  | EVar k =>
      match args !! k with
      | Some x => ret x
      | None => raise name_error
      end
  | EBin o a b =>
      x <- node_eval args a ;;
      y <- node_eval args b ;;
      apply_binop (method o) x (VNode y)
  | EConstR o a c =>
      x <- node_eval args a ;;
      apply_binop (method o) x (VNum c)
  | EConstL o c b =>
      y <- node_eval args b ;;
      apply_binop (reflected o) y (VNum c)
  | ENeg a =>
      x <- node_eval args a ;;
      __neg__ x
  | ECall f a =>
      node_eval args a ;;;
      raise (TypeError None)
  end.

(** [def f(x0, ..., x(n-1)): return e] *)
Definition node_fun (n : nat) (e : expr) : pyfun :=
  Def n (fun args => r <- node_eval args e ;; ret (VNode r)).

(** The real function of an operator, and its two partial derivatives. *)
Definition arith_fun (o : arith) (x y : R) : R :=
  match o with
  | Plus => x + y
  | Minus => x - y
  | Times => x * y
  | Over => x / y
  | Power => Rpower x y
  end.

Definition arith_dl (o : arith) (x y : R) : R :=
  match o with
  | Plus => 1
  | Minus => 1
  | Times => y
  | Over => 1 / y
  | Power => y * Rpower x (y - 1)
  end.

Definition arith_dr (o : arith) (x y : R) : R :=
  match o with
  | Plus => 1
  | Minus => -1
  | Times => x
  | Over => - x / (y * y)
  | Power => Rpower x y * ln x
  end.

(** Where an operator is defined and differentiable: a divisor is not zero,
    the base of a power is positive. *)
Definition arith_ok (o : arith) (x y : R) : Prop :=
  match o with
  | Over => y <> 0
  | Power => 0 < x
  | _ => True
  end.

Definition elementary_fun (f : elementary) : R -> R :=
  match f with
  | Sin => sin | Cos => cos | Tan => tan | Exp => exp
  | Sinh => sinh | Cosh => cosh | Tanh => tanh
  | Arctan => atan | Arcsinh => arcsinh
  end.

Definition elementary_der (f : elementary) (x : R) : R :=
  match f with
  | Sin => cos x
  | Cos => - sin x
  | Tan => 1 / (cos x * cos x)
  | Exp => exp x
  | Sinh => cosh x
  | Cosh => sinh x
  | Tanh => 1 / (cosh x * cosh x)
  | Arctan => 1 / (1 + x * x)
  | Arcsinh => 1 / sqrt (x * x + 1)
  end.

Definition elementary_ok (f : elementary) (x : R) : Prop :=
  match f with Tan => cos x <> 0 | _ => True end.

(** The real function an expression denotes at the point [pt]. *)
Fixpoint eval (pt : list R) (e : expr) : R :=
  match e with
  | EVar k => nth k pt 0
  | EBin o a b => arith_fun o (eval pt a) (eval pt b)
  | EConstR o a c => arith_fun o (eval pt a) c
  | EConstL o c b => arith_fun o c (eval pt b)
  | ENeg a => - eval pt a
  | ECall f a => elementary_fun f (eval pt a)
  end.

(** Its partial derivative in the [k]-th parameter, by the chain rule. *)
Fixpoint partial (pt : list R) (k : nat) (e : expr) : R :=
  match e with
  | EVar j => if Nat.eqb j k then 1 else 0
  | EBin o a b =>
      arith_dl o (eval pt a) (eval pt b) * partial pt k a
      + arith_dr o (eval pt a) (eval pt b) * partial pt k b
  | EConstR o a c => arith_dl o (eval pt a) c * partial pt k a
  | EConstL o c b => arith_dr o c (eval pt b) * partial pt k b
  | ENeg a => - partial pt k a
  | ECall f a => elementary_der f (eval pt a) * partial pt k a
  end.

(** The number of operations of an expression. *)
Fixpoint size (e : expr) : nat :=
  match e with
  | EVar _ => 0
  | EBin _ a b => S (size a + size b)
  | EConstR _ a _ | EConstL _ _ a | ENeg a | ECall _ a => S (size a)
  end.

(** An expression that denotes a differentiable function at [pt]: it names
    parameters of the point only, and every operation is defined. *)
Fixpoint smooth (pt : list R) (e : expr) : Prop :=
  match e with
  | EVar k => (k < length pt)%nat
  | EBin o a b =>
      smooth pt a /\ smooth pt b /\ arith_ok o (eval pt a) (eval pt b)
  | EConstR o a c => smooth pt a /\ arith_ok o (eval pt a) c
  | EConstL o c b => smooth pt b /\ arith_ok o c (eval pt b)
  | ENeg a => smooth pt a
  | ECall f a => smooth pt a /\ elementary_ok f (eval pt a)
  end.

(** The expressions of the reverse mode: no elementary function, and no
    power of two expressions. *)
Fixpoint node_expr (e : expr) : bool :=
  match e with
  | EVar _ => true
  | EBin o a b =>
      match o with Power => false | _ => node_expr a && node_expr b end
  | EConstR _ a _ | EConstL _ _ a | ENeg a => node_expr a
  | ECall _ _ => false
  end.

(** ** The derivatives that a store propagates *)

(** The adjoint of a node: its seed, plus the adjoints of its successors
    times the weights of the edges, summed as [get_gradient] does; a
    reference outside of the store counts for nothing. *)
Fixpoint backprop (fuel : nat) (h : heap) (seed : nat -> R) (i : nat) : R :=
  match fuel with
  | O => 0
  | S fuel' =>
      match h !! i with
      | None => 0
      | Some n =>
          seed i +
          py_sum (map (fun e : ref * R => backprop fuel' h seed e.1 * e.2)
                      (children n))
      end
  end.

Definition adjoint (h : heap) (seed : nat -> R) (i : nat) : R :=
  backprop (length h) h seed i.

(** The seed of the output node [r]. *)
Definition unit_seed (r : nat) (j : nat) : R := if Nat.eqb j r then 1 else 0.

(** Every edge of a node created at [base] or later points to a node created
    strictly after it. *)
Definition forward_from (base : nat) (h : heap) : Prop :=
  forall i n e, (base <= i)%nat -> h !! i = Some n -> e ∈ children n ->
                (i < e.1 < length h)%nat.

(** The derivative of node [j] in the parameter [k], as the store propagates
    it back to the node of that parameter. *)
Definition tangent (base k : nat) (h : heap) (j : nat) : R :=
  adjoint h (unit_seed j) (base + k).

(** The store after a method made a node of value [v] and an edge to it from
    one node, or from two. *)
Definition link1 (h : heap) (v : R) (a : ref) (w : R) : heap :=
  add_edge a (length h, w) (h ++ [mkNode v [] None]).

Definition link2 (h : heap) (v : R) (a : ref) (wa : R) (b : ref) (wb : R)
  : heap :=
  add_edge b (length h, wb) (link1 h v a wa).

(** The stores of one evaluation: the nodes from [base] on have forward
    edges and no gradient, the parameters are the nodes [base], [base + 1],
    ... with the coordinates of the point as values, and the derivative of a
    parameter in a parameter is 1 or 0. *)
Definition tape (base : nat) (pt : list R) (h : heap) : Prop :=
  forward_from base h /\
  (forall i n, (base <= i)%nat -> h !! i = Some n -> der n = None) /\
  (forall k x, pt !! k = Some x ->
     exists n, h !! (base + k)%nat = Some n /\ val n = x) /\
  (forall j k, (j < length pt)%nat -> (k < length pt)%nat ->
     tangent base k h (base + j) = if Nat.eqb j k then 1 else 0).

(** [h'] continues the evaluation begun in [h]: the nodes of [h] keep their
    values, and the derivatives they propagate. *)
Definition extends (base : nat) (pt : list R) (h h' : heap) : Prop :=
  (length h <= length h')%nat /\
  (forall i n, h !! i = Some n ->
     exists n', h' !! i = Some n' /\ val n' = val n) /\
  (forall k j, (k < length pt)%nat -> (j < length h)%nat ->
     tangent base k h' j = tangent base k h j).

(** The node [r] of [h] stands for the expression [e]: it has its value and
    propagates its partial derivatives. *)
Definition node_result (base : nat) (pt : list R) (e : expr) (h : heap)
  (r : ref) : Prop :=
  (base <= r < length h)%nat /\
  exists n, h !! r = Some n /\ val n = eval pt e /\
    forall k, (k < length pt)%nat -> tangent base k h r = partial pt k e.

(** What the evaluation of [e] from the store [h] gives: one node for each
    operation, and a node that stands for [e], the last of the store unless
    nothing was built. *)
Definition evaluates (base : nat) (pt : list R) (e : expr) (h : heap)
  (r : ref) (h' : heap) : Prop :=
  tape base pt h' /\ extends base pt h h' /\
  length h' = (length h + size e)%nat /\
  node_result base pt e h' r /\
  (h' = h \/ S r = length h').

(** The leaves the driver builds for a point. *)
Definition leaves (pt : list R) : heap :=
  map (fun x => mkNode x [] None) pt.

(** A store on which the backward pass from the output [r] has begun: it is
    the graph [g] with the gradient of [r] set, and every other gradient from
    [base] on that is set is the adjoint of its node. *)
Definition memoized (base : nat) (g : heap) (r : ref) (h : heap) : Prop :=
  same_graph g h /\
  (forall n, h !! r = Some n -> der n <> None) /\
  (forall j n, (base <= j)%nat -> h !! j = Some n ->
     der n = None \/ der n = Some (adjoint g (unit_seed r) j)).

(** Every gradient that is set in [h] is set in [h'], to the same number. *)
Definition ders_kept (h h' : heap) : Prop :=
  forall i n d, h !! i = Some n -> der n = Some d ->
    exists n', h' !! i = Some n' /\ der n' = Some d.

(** The node [v] holds the gradient [g]. *)
Definition cached (h : heap) (v : ref) (g : R) : Prop :=
  exists n, h !! v = Some n /\ der n = Some g.

(** ** The forward mode of [dual_temp.py] *)

Declare Scope out_scope.
Delimit Scope out_scope with out.
Notation "x <-- m ;; k" := (obind m (fun x => k))
  (at level 100, m at next level, right associativity) : out_scope.

Module dual_temp.
Local Open Scope out_scope.

(** An operand of a [Dual] method, or the argument of an elementary
    function: a number, a [Dual], or any other object. *)
Inductive arg :=
| ANum (x : R)
| ADual (d : Dual.t)
| AOther.

(** [x / p] for a number [x] and a power [p], which is a real or a complex
    number; a complex power is not zero. *)
Definition over (x : R) (p : pyval) : outcome pyval :=
  match p with
  | VNum y => q <-- py_truediv x y ;; Ok (VNum q)
  | _ => Ok VComplex
  end.

(** [f(p)] for a product or a sum [f] with a power [p]. *)
Definition scaled (p : pyval) (f : R -> R) : pyval :=
  match p with
  | VNum y => VNum (f y)
  | _ => VComplex
  end.

(** [Dual.__add__] *)
Definition __add__ (self : Dual.t) (other : arg) : outcome Dual.t :=
  match other with
  | ADual o =>
      Dual.__init__ (VNum (Dual.val self + Dual.val o))
                    (VNum (Dual.der self + Dual.der o))
  | ANum o => Dual.__init__ (VNum (Dual.val self + o)) (VNum (Dual.der self))
  | AOther => Raise (TypeError None)
  end.

Definition __radd__ (self : Dual.t) (other : arg) : outcome Dual.t :=
  __add__ self other.

(** [Dual.__mul__] *)
Definition __mul__ (self : Dual.t) (other : arg) : outcome Dual.t :=
  match other with
  | ANum o =>
      Dual.__init__ (VNum (Dual.val self * o)) (VNum (Dual.der self * o))
  | ADual o =>
      Dual.__init__ (VNum (Dual.val self * Dual.val o))
                    (VNum (Dual.der self * Dual.val o
                           + Dual.val self * Dual.der o))
  | AOther => Raise (TypeError None)
  end.

Definition __rmul__ (self : Dual.t) (other : arg) : outcome Dual.t :=
  __mul__ self other.

(** [Dual.__truediv__] *)
Definition __truediv__ (self : Dual.t) (other : arg) : outcome Dual.t :=
  match other with
  | ANum o =>
      v <-- py_truediv (Dual.val self) o ;;
      d <-- py_truediv (Dual.der self) o ;;
      Dual.__init__ (VNum v) (VNum d)
  | ADual o =>
      v <-- py_truediv (Dual.val self) (Dual.val o) ;;
      sq <-- py_pow (Dual.val o) 2 ;;
      d <-- over (Dual.der self * Dual.val o - Dual.val self * Dual.der o)
                 sq ;;
      Dual.__init__ (VNum v) d
  | AOther => Raise (TypeError None)
  end.

(** [Dual.__rtruediv__] *)
Definition __rtruediv__ (self : Dual.t) (other : arg) : outcome Dual.t :=
  match other with
  | ANum o =>
      v <-- py_truediv o (Dual.val self) ;;
      sq <-- py_pow (Dual.val self) 2 ;;
      d <-- over (- Dual.der self * o) sq ;;
      Dual.__init__ (VNum v) d
  | _ => Raise (TypeError None)
  end.

(** [Dual.__sub__] *)
Definition __sub__ (self : Dual.t) (other : arg) : outcome Dual.t :=
  match other with
  | ANum o => Dual.__init__ (VNum (Dual.val self - o)) (VNum (Dual.der self))
  | ADual o =>
      Dual.__init__ (VNum (Dual.val self - Dual.val o))
                    (VNum (Dual.der self - Dual.der o))
  | AOther => Raise (TypeError None)
  end.

(** [Dual.__rsub__] *)
Definition __rsub__ (self : Dual.t) (other : arg) : outcome Dual.t :=
  match other with
  | ANum o =>
      Dual.__init__ (VNum (o - Dual.val self)) (VNum (- Dual.der self))
  | _ => Raise (TypeError None)
  end.

(** [Dual.__pow__]: the branch of a number, and [Dual.__pow__] above for a
    [Dual] exponent. *)
Definition __pow__ (self : Dual.t) (other : arg) : outcome Dual.t :=
  match other with
  | ANum o =>
      p <-- py_pow (Dual.val self) o ;;
      p' <-- py_pow (Dual.val self) (o - 1) ;;
      Dual.__init__ p (scaled p' (fun y => o * y * Dual.der self))
  | ADual o => Dual.__pow__ self o
  | AOther => Raise (TypeError None)
  end.

(** [Dual.__rpow__] for a number: the branch of the only test. *)
Definition rpow_number (self : Dual.t) (o : R) : outcome Dual.t :=
  p <-- py_pow o (Dual.val self) ;;
  l <-- math_log o ;;
  Dual.__init__ p (VNum (Dual.der self * l)).

(** [Dual.__rpow__]: the test has no [else], any other operand gives
    [None]. *)
Definition __rpow__ (self : Dual.t) (other : arg)
  : outcome (option Dual.t) :=
  match other with
  | ANum o => d <-- rpow_number self o ;; Ok (Some d)
  | _ => Ok None
  end.

(** The elementary functions on a [Dual]: [sin], [cos], [tan], [exp],
    [sinh], [cosh], [tanh], [arctan] and [arcsinh].  The functions of
    [numpy] divide and square without raising. *)
Definition elementary_dual (f : elementary) (other : Dual.t)
  : outcome Dual.t :=
  let v := Dual.val other in
  let d := Dual.der other in
  match f with
  | Sin => Dual.__init__ (VNum (sin v)) (VNum (cos v * d))
  | Cos => Dual.__init__ (VNum (cos v)) (VNum (- sin v * d))
  | Tan =>
      sq <-- py_pow (cos v) 2 ;;
      q <-- over 1 sq ;;
      Dual.__init__ (VNum (tan v)) (scaled q (fun y => y * d))
  | Exp => Dual.__init__ (VNum (exp v)) (VNum (exp v * d))
  | Sinh => Dual.__init__ (VNum (sinh v)) (VNum (cosh v * d))
  | Cosh => Dual.__init__ (VNum (cosh v)) (VNum (sinh v * d))
  | Tanh =>
      Dual.__init__ (VNum (tanh v)) (VNum (1 / (cosh v * cosh v) * d))
  | Arctan =>
      sq <-- py_pow v 2 ;;
      q <-- over 1 (scaled sq (fun y => 1 + y)) ;;
      Dual.__init__ (VNum (atan v)) (scaled q (fun y => y * d))
  | Arcsinh =>
      sq <-- py_pow v 2 ;;
      rt <-- match scaled sq (fun y => y + 1) with
             | VNum s => py_pow s (1 / 2)
             | _ => Ok VComplex
             end ;;
      q <-- over 1 rt ;;
      Dual.__init__ (VNum (arcsinh v)) (scaled q (fun y => y * d))
  end.

(** An elementary function of the module, on any argument. *)
Definition apply_elementary (f : elementary) (other : arg) : outcome arg :=
  match other with
  | ANum x => Ok (ANum (elementary_fun f x))
  | ADual o => r <-- elementary_dual f o ;; Ok (ADual r)
  | AOther => Raise (TypeError None)
  end.

(** The method of the left operand for an operator, and the reflected
    method of a [Dual] on the right of a number. *)
Definition apply_method (o : arith) : Dual.t -> arg -> outcome Dual.t :=
  match o with
  | Plus => __add__
  | Minus => __sub__
  | Times => __mul__
  | Over => __truediv__
  | Power => __pow__
  end.

Definition apply_reflected (o : arith) (self : Dual.t) (c : R)
  : outcome Dual.t :=
  match o with
  | Plus => __radd__ self (ANum c)
  | Minus => __rsub__ self (ANum c)
  | Times => __rmul__ self (ANum c)
  | Over => __rtruediv__ self (ANum c)
  | Power => rpow_number self c
  end.

(** The evaluation of a body on [Dual] arguments.  [Dual] has no [__neg__]:
    the unary minus is a type error. *)
Fixpoint dual_eval (args : list Dual.t) (e : expr) : outcome Dual.t :=
  match e with
  | EVar k =>
      match args !! k with
      | Some x => Ok x
      | None => Raise name_error
      end
  | EBin o a b =>
      x <-- dual_eval args a ;;
      y <-- dual_eval args b ;;
      apply_method o x (ADual y)
  | EConstR o a c =>
      x <-- dual_eval args a ;;
      apply_method o x (ANum c)
  | EConstL o c b =>
      y <-- dual_eval args b ;;
      apply_reflected o y c
  | ENeg a =>
      _ <-- dual_eval args a ;;
      Raise (TypeError None)
  | ECall f a =>
      x <-- dual_eval args a ;;
      elementary_dual f x
  end.

(** A user function of the forward mode: its number of parameters and its
    body.  A call with another number of arguments is a type error. *)
Inductive dfun :=
| DFun (nparams : nat) (body : list Dual.t -> outcome arg).

Definition call (f : dfun) (Dual_list : list Dual.t) : outcome arg :=
  match f with
  | DFun nparams body =>
      if Nat.eqb nparams (length Dual_list) then body Dual_list
      else Raise (TypeError None)
  end.

(** [def f(x0, ..., x(n-1)): return e] *)
Definition dual_fun (n : nat) (e : expr) : dfun :=
  DFun n (fun args => r <-- dual_eval args e ;; Ok (ADual r)).

Definition index_error : exn := Exception "list index out of range".

(** [value[j]] *)
Definition subscript (value : pyval) (j : nat) : outcome pyval :=
  match value with
  | VList items =>
      match items !! j with
      | Some v => Ok v
      | None => Raise index_error
      end
  | _ => Raise (TypeError None)
  end.

(** A loop [for i in l: acc.append(body(i))]. *)
Fixpoint for_range {A} (body : nat -> outcome A) (l : list nat)
  (acc : list A) : outcome (list A) :=
  match l with
  | [] => Ok acc
  | i :: l' => y <-- body i ;; for_range body l' (acc ++ [y])
  end.

(** [get_gradient] *)
Definition get_gradient (f : dfun) (dimension : nat) (value : pyval)
  : outcome (list R) :=
  for_range
    (fun i =>
       Dual_list <-- for_range
                       (fun j =>
                          if Nat.eqb i j
                          then v <-- subscript value j ;;
                               Dual.__init__ v (VNum 1)
                          else v <-- subscript value j ;;
                               Dual.__init__ v (VNum 0))
                       (seq 0 dimension) [] ;;
       function <-- call f Dual_list ;;
       match function with
       | ADual d => Ok (Dual.der d)
       | _ => Raise AttributeError
       end)
    (seq 0 dimension) [].

End dual_temp.

(** The arguments of the pass [i] of the forward mode at the point [pt]:
    the seed is 1 in the coordinate [i] and 0 in the others. *)
Definition seeded (i : nat) (pt : list R) : list Dual.t :=
  map (fun j => Dual.mk (nth j pt 0) (if Nat.eqb i j then 1 else 0))
      (seq 0 (length pt)).

(** The expressions of the forward mode: no unary minus, and no power of a
    constant. *)
Fixpoint dual_expr (e : expr) : bool :=
  match e with
  | EVar _ => true
  | EBin _ a b => dual_expr a && dual_expr b
  | EConstR _ a _ | ECall _ a => dual_expr a
  | EConstL o _ a => match o with Power => false | _ => dual_expr a end
  | ENeg _ => false
  end.

(** ** The parameters a function declares *)

(** [def f(x1, ..., xp, *, k1=d1, ..., kq=dq): ...]: a function that declares
    [positional] positional parameters and, after them, [keyword_only]
    parameters that are passed by name only and have a default value.
    [inspect.signature] reports them all.  A call with exactly [positional]
    positional arguments runs the body; with any other number of them it is a
    [TypeError]. *)
Definition def_keyword_only (positional keyword_only : nat)
  (body : list ref -> M pyval) : pyfun :=
  Def (positional + keyword_only)
      (fun variables =>
         if Nat.eqb (length variables) positional then body variables
         else raise (TypeError None)).

(** ** What the operations do to the nodes that exist *)

(** What a binary method does to the store, seen from its operands: nothing
    (it raised before the constructor call), one new node, or one new node
    and an edge to it appended to [self], or to [self] and then to the [Node]
    operand. *)
Inductive method_effect (self : ref) (other : pyval) (h : heap)
  : heap -> Prop :=
| method_none : method_effect self other h h
| method_node x : method_effect self other h (h ++ [mkNode x [] None])
| method_edge x w :
    (self < length h)%nat ->
    method_effect self other h
      (add_edge self (length h, w) (h ++ [mkNode x [] None]))
| method_edges x w o w' :
    other = VNode o -> (self < length h)%nat -> (o < length h)%nat ->
    method_effect self other h
      (add_edge o (length h, w')
         (add_edge self (length h, w) (h ++ [mkNode x [] None]))).

(** Every node of [h] is in [h'] with the value it had, with the edges it
    had, in order, at the head of its edge list, and with a gradient if it had
    one: from [h] to [h'] nodes were created, edges appended and gradients
    written, and nothing else. *)
Definition evolves (h h' : heap) : Prop :=
  forall i n, h !! i = Some n ->
    exists n', h' !! i = Some n' /\ val n' = val n /\
      (exists new, children n' = children n ++ new) /\
      (der n <> None -> der n' <> None).

(** ** Integers and polynomials *)

(** The real number of a Python [int].  The sums, differences and products
    of [int]s are [int]s, of any size, and are exact.  (The model has one
    kind of number: that a number is an [int], and not a float whose value
    is an integer, is part of the reading.) *)
Definition integer (x : R) : Prop := exists z : Z, x = IZR z.

Definition ring_op (o : arith) : bool :=
  match o with Plus | Minus | Times => true | _ => false end.

(** The expressions built with [+], [-] and [*] from the parameters and from
    [int] constants. *)
Fixpoint polynomial (e : expr) : Prop :=
  match e with
  | EVar _ => True
  | EBin o a b => ring_op o = true /\ polynomial a /\ polynomial b
  | EConstR o a c => ring_op o = true /\ polynomial a /\ integer c
  | EConstL o c b => ring_op o = true /\ integer c /\ polynomial b
  | ENeg a => polynomial a
  | ECall _ _ => False
  end.

(** ** The range of the floats *)

(** The smallest positive normal [float] and the largest [float].  A real
    number between them, in absolute value, is rounded to a [float] that is
    neither zero nor infinite and has the full precision of the format. *)
Definition float_min : R := / 2 ^ 1022.

Definition float_max : R := (2 - / 2 ^ 52) * 2 ^ 1023.

Definition in_float_range (x : R) : Prop := float_min <= Rabs x <= float_max.

(** A number of moderate size: the product of two of them, and the sum of
    two such products, is in the range of the floats. *)
Definition moderate (x : R) : Prop := Rabs x <= 2 ^ 500.

(** Where the floats of an operation behave as the reals they denote, up to
    rounding: the operands are of moderate size (a Python [int] beyond the
    floats cannot be mixed with a float), the square that a division takes
    is in the range of the normal floats, and a power, the power that its
    derivative takes and the quotient of the exponent by the base are of
    moderate size. *)
Definition arith_in_range (o : arith) (x y : R) : Prop :=
  moderate x /\ moderate y /\
  match o with
  | Over => in_float_range (y * y)
  | Power =>
      moderate (Rpower x y) /\ moderate (Rpower x (y - 1)) /\
      moderate (y / x)
  | _ => True
  end.

(** The same for an elementary function: the argument is of moderate size,
    and so are the exponential and the hyperbolic cosine where the function
    or its derivative takes them. *)
Definition elementary_in_range (f : elementary) (x : R) : Prop :=
  moderate x /\
  match f with
  | Exp => moderate (exp x)
  | Sinh | Cosh => moderate (cosh x)
  | _ => True
  end.

(** ** The division on the floats of the machine

    A Python [float] is a binary64 number, the primitive [float] of Rocq.  A
    square of floats can be zero or infinite where the square of the reals
    they denote is neither.  The constructor and the two division methods
    are embedded once more, on a store of nodes that hold floats, to compute
    what the code does there. *)
Module binary64.
Import PrimFloat.

(** [class Node] on floats. *)
Record Node := mkNode {
  val : float;
  children : list (ref * float);
  der : option float
}.

Abbreviation heap := (list Node).

(** The operands: a [float], a reference to a [Node], anything else. *)
Inductive pyval :=
| VNum (x : float)
| VNode (r : ref)
| VOther.

Definition M (A : Type) := heap -> outcome A * heap.

Definition ret {A} (a : A) : M A := fun h => (Ok a, h).

Definition raise {A} (e : exn) : M A := fun h => (Raise e, h).

Definition bind {A B} (m : M A) (k : A -> M B) : M B :=
  fun h => match m h with
           | (Ok a, h') => k a h'
           | (Raise e, h') => (Raise e, h')
           end.

Definition lift {A} (o : outcome A) : M A := fun h => (o, h).

Declare Scope py64_scope.
Notation "x <- m ;; k" := (bind m (fun x => k))
  (at level 100, m at next level, right associativity) : py64_scope.
Notation "m ;;; k" := (bind m (fun _ => k))
  (at level 100, right associativity) : py64_scope.
Local Open Scope py64_scope.

Definition load (r : ref) : M Node :=
  fun h => match h !! r with
           | Some n => (Ok n, h)
           | None => (Raise DanglingRef, h)
           end.

Definition store (r : ref) (n : Node) : M unit :=
  fun h => (Ok tt, <[r := n]> h).

Definition alloc (n : Node) : M ref :=
  fun h => (Ok (length h), h ++ [n]).

(** [r.children.append(e)] *)
Definition append_child (r : ref) (e : ref * float) : M unit :=
  n <- load r ;;
  store r (mkNode (val n) (children n ++ [e]) (der n)).

(** [x / y]: a zero divisor, of either sign, raises. *)
Definition py_truediv (x y : float) : outcome float :=
  if (y =? 0)%float then Raise ZeroDivisionError else Ok (x / y)%float.

(** [x ** 2]: the square, rounded; it is [0.0] when the square is too small
    for a float, and [OverflowError] is raised when it is too large for one.
    (Python calls [pow] of the C library, whose result is the rounded square
    [x * x] up to the last digit.) *)
Definition py_pow2 (x : float) : outcome float :=
  if is_finite x && is_infinity (x * x)%float then Raise OverflowError
  else Ok (x * x)%float.

(** [Node.__init__] *)
Definition __init__ (v : pyval) : M ref :=
  match v with
  | VNum x => alloc (mkNode x [] None)
  | _ => raise (TypeError None)
  end.

(** [Node.__truediv__] *)
Definition __truediv__ (self : ref) (other : pyval) : M ref :=
  match other with
  | VNum o =>
      s <- load self ;;
      q <- lift (py_truediv (val s) o) ;;
      new_node <- __init__ (VNum q) ;;
      w <- lift (py_truediv 1 o) ;;
      append_child self (new_node, w) ;;;
      ret new_node
  | VNode other =>
      s <- load self ;;
      o <- load other ;;
      q <- lift (py_truediv (val s) (val o)) ;;
      new_node <- __init__ (VNum q) ;;
      w <- lift (py_truediv 1 (val o)) ;;
      append_child self (new_node, w) ;;;
      sq <- lift (py_pow2 (val o)) ;;
      w' <- lift (py_truediv (- val s) sq) ;;
      append_child other (new_node, w') ;;;
      ret new_node
  | _ => raise (TypeError None)
  end.

(** [Node.__rtruediv__] *)
Definition __rtruediv__ (self : ref) (other : pyval) : M ref :=
  match other with
  | VNum o =>
      s <- load self ;;
      q <- lift (py_truediv o (val s)) ;;
      new_node <- __init__ (VNum q) ;;
      sq <- lift (py_pow2 (val s)) ;;
      w <- lift (py_truediv (- o) sq) ;;
      append_child self (new_node, w) ;;;
      ret new_node
  | _ => raise (TypeError None)
  end.

End binary64.

(** * Properties *)

(** ** Equations of the monad *)

Lemma bind_assoc {A B C} (m : M A) (f : A -> M B) (g : B -> M C) (h : heap) :
  bind (bind m f) g h = bind m (fun x => bind (f x) g) h.
Proof. unfold bind. destruct (m h) as [[a|e] h']; reflexivity. Qed.

Lemma bind_ret {A B} (a : A) (k : A -> M B) (h : heap) :
  bind (ret a) k h = k a h.
Proof. reflexivity. Qed.

Lemma bind_raise {A B} (e : exn) (k : A -> M B) (h : heap) :
  bind (raise e) k h = (Raise e, h).
Proof. reflexivity. Qed.

Lemma bind_lift {A B} (o : outcome A) (k : A -> M B) (h : heap) :
  bind (lift o) k h =
  match o with Ok a => k a h | Raise e => (Raise e, h) end.
Proof. unfold bind, lift. destruct o; reflexivity. Qed.

Lemma bind_ext {A B} (m : M A) (k1 k2 : A -> M B) (h : heap) :
  (forall a h', k1 a h' = k2 a h') -> bind m k1 h = bind m k2 h.
Proof.
  intros H. unfold bind. destruct (m h) as [[a|e] h']; [apply H|reflexivity].
Qed.

Lemma bind_load {B} (r : ref) (k : Node -> M B) (h : heap) :
  bind (load r) k h =
  match h !! r with Some n => k n h | None => (Raise DanglingRef, h) end.
Proof. unfold bind, load. destruct (h !! r); reflexivity. Qed.

Lemma bind_alloc {B} (n : Node) (k : ref -> M B) (h : heap) :
  bind (alloc n) k h = k (length h) (h ++ [n]).
Proof. reflexivity. Qed.

Lemma length_add_edge (r : ref) (e : ref * R) (h : heap) :
  length (add_edge r e h) = length h.
Proof. apply length_alter. Qed.

Lemma bind_append_child {B} (r : ref) (e : ref * R) (k : unit -> M B)
  (h : heap) :
  (r < length h)%nat ->
  bind (append_child r e) k h = k tt (add_edge r e h).
Proof.
  intros Hr. apply lookup_lt_is_Some_2 in Hr as [n Hn].
  unfold append_child. rewrite bind_assoc, bind_load, Hn.
  unfold bind, store, add_edge. do 2 f_equal.
  clear k. revert r Hn.
  induction h as [|m h IH]; intros [|r] Hn; simplify_eq/=; try done.
  f_equal. by apply IH.
Qed.

(** The loop with an accumulator computes the comprehension. *)
Lemma for_append_list_comp {A B} (f : A -> M B) (l : list A) (acc : list B)
  (h : heap) :
  for_append f l acc h = bind (list_comp f l) (fun ys => ret (acc ++ ys)) h.
Proof.
  revert acc h. induction l as [|x l IH]; intros acc h.
  - cbn [for_append list_comp]. rewrite bind_ret, app_nil_r. reflexivity.
  - cbn [for_append list_comp]. rewrite bind_assoc.
    apply bind_ext. intros y h1.
    rewrite IH, bind_assoc. apply bind_ext. intros ys h2.
    rewrite bind_ret. cbn. by rewrite <- app_assoc.
Qed.

(** ** Running a computation on a store with a known suffix *)

Lemma bind_load_app {B} (h l : heap) (i : nat) (k : Node -> M B) :
  bind (load (length h + i)%nat) k (h ++ l) =
  match l !! i with
  | Some n => k n (h ++ l)
  | None => (Raise DanglingRef, h ++ l)
  end.
Proof.
  rewrite bind_load, lookup_app_r by lia.
  replace (length h + i - length h)%nat with i by lia. reflexivity.
Qed.

Lemma bind_store_app {B} (h l : heap) (i : nat) (n : Node)
  (k : unit -> M B) :
  bind (store (length h + i)%nat n) k (h ++ l) = k tt (h ++ <[i := n]> l).
Proof.
  unfold bind, store. rewrite insert_app_r. reflexivity.
Qed.

Lemma bind_alloc_app {B} (h l : heap) (n : Node) (k : ref -> M B) :
  bind (alloc n) k (h ++ l) = k (length h + length l)%nat (h ++ (l ++ [n])).
Proof.
  rewrite bind_alloc, <- app_assoc, length_app. reflexivity.
Qed.

(** One step of a computation whose store ends in a known suffix. *)
Ltac run_step :=
  first
    [ rewrite bind_assoc
    | rewrite bind_ret
    | rewrite bind_raise
    | rewrite bind_lift
    | rewrite bind_load_app
    | rewrite bind_store_app
    | rewrite bind_alloc_app
    | progress cbn [lookup list_lookup insert list_insert length app
                    val children der fst snd
                    list_comp for_append get_gradient real_of Nat.add]
    | progress cbv beta iota
    | progress unfold set_der, append_child, __init__ ].

Ltac run := repeat run_step.

(** One step of a method on an arbitrary store, with a case for every
    outcome of the step. *)
Ltac op_step :=
  match goal with
  | |- context [bind (bind _ _) _ _] => rewrite bind_assoc
  | |- context [bind (ret _) _ _] => rewrite bind_ret
  | |- context [bind (raise _) _ _] => rewrite bind_raise
  | |- context [bind (lift ?o) _ _] =>
      rewrite bind_lift; destruct o as [?|?]
  | |- context [bind (real_of ?v) _ _] =>
      destruct v; cbn [real_of]
  | |- context [bind (load ?r) _ ?h] =>
      rewrite bind_load;
      let H := fresh "Hload" in
      destruct (h !! r) eqn:H; [apply lookup_lt_Some in H|]
  | |- context [bind (__init__ ?v) _ _] =>
      destruct v; cbn [__init__]
  | |- context [bind (alloc _) _ _] => rewrite bind_alloc
  | |- context [bind (append_child _ _) _ _] =>
      rewrite bind_append_child
        by (rewrite ?length_add_edge, ?length_app; cbn [length]; lia)
  end; cbv beta.

(** ** Python arithmetic on the cases the properties use *)

Lemma py_truediv_ok (x y : R) : y <> 0 -> py_truediv x y = Ok (x / y).
Proof.
  intros Hy. unfold py_truediv.
  destruct (Req_dec_T y 0); [contradiction|reflexivity].
Qed.

Lemma Int_part_2 : Int_part 2 = 2%Z.
Proof. symmetry. apply Int_part_spec. lra. Qed.

(** [y ** 2] is the square of [y], whatever the sign of [y]. *)
Lemma py_pow_2 (y : R) : y <> 0 -> py_pow y 2 = Ok (VNum (y * y)).
Proof.
  intros Hy. unfold py_pow.
  destruct (Rlt_dec 0 y) as [Hpos|Hneg].
  - change 2 with (INR 2). rewrite Rpower_pow by assumption.
    do 2 f_equal. simpl. ring.
  - destruct (Req_dec_T y 0); [contradiction|].
    rewrite Int_part_2.
    destruct (Req_dec_T 2 2) as [_|Hne]; [|contradiction].
    do 2 f_equal. simpl. ring.
Qed.

Lemma py_pow_pos (x y : R) : 0 < x -> py_pow x y = Ok (VNum (Rpower x y)).
Proof.
  intros Hx. unfold py_pow.
  destruct (Rlt_dec 0 x); [reflexivity|contradiction].
Qed.

Lemma math_log_pos (x : R) : 0 < x -> math_log x = Ok (ln x).
Proof.
  intros Hx. unfold math_log.
  destruct (Rlt_dec 0 x); [reflexivity|contradiction].
Qed.

(** Once [x ** y] is a real number, [x ** (y - 1)] is not complex: the
    weights of [__pow__] are reals or the call raises. *)
Lemma py_pow_pred_not_complex (x y r : R) :
  py_pow x y = Ok (VNum r) -> py_pow x (y - 1) <> Ok VComplex.
Proof.
  unfold py_pow. intros H.
  destruct (Rlt_dec 0 x); [discriminate|].
  destruct (Req_dec_T x 0).
  - destruct (Rlt_dec (y - 1) 0); [discriminate|].
    destruct (Req_dec_T (y - 1) 0); discriminate.
  - destruct (Req_dec_T y (IZR (Int_part y))) as [Hy|]; [|discriminate].
    assert (Hz : Int_part (y - 1) = (Int_part y - 1)%Z).
    { symmetry. apply Int_part_spec. rewrite minus_IZR. lra. }
    destruct (Req_dec_T (y - 1) (IZR (Int_part (y - 1)))) as [|Hne];
      [discriminate|].
    exfalso. apply Hne. rewrite Hz, minus_IZR. lra.
Qed.

(** A square is never complex. *)
Lemma py_pow_2_not_complex (y : R) : py_pow y 2 <> Ok VComplex.
Proof.
  unfold py_pow.
  destruct (Rlt_dec 0 y); [discriminate|].
  destruct (Req_dec_T y 0).
  - destruct (Rlt_dec 2 0); [discriminate|].
    destruct (Req_dec_T 2 0); discriminate.
  - rewrite Int_part_2.
    destruct (Req_dec_T 2 2) as [_|Hne]; [discriminate|contradiction].
Qed.

Lemma Rpower_2_1 : Rpower 2 1 = 2.
Proof. apply Rpower_1. lra. Qed.

Lemma Rpower_2_0 : Rpower 2 (1 - 1) = 1.
Proof. replace (1 - 1) with 0 by ring. apply Rpower_O. lra. Qed.

Lemma ln_2_neq_0 : ln 2 <> 0.
Proof. apply ln_neq_0; lra. Qed.

(** ** What the methods do to the store *)

Lemma binop_effect (op : binop) (self : ref) (other : pyval) (h : heap) :
  op_effect h (apply_binop op self other h).2.
Proof.
  destruct op; cbn [apply_binop];
    unfold __radd__, __rmul__;
    unfold __add__, __mul__, __truediv__, __rtruediv__,
           __sub__, __rsub__, __pow__, __rpow__;
    destruct other; cbn [snd raise]; try apply effect_none.
  all: repeat op_step.
  all: cbn [snd raise ret].
  all: try apply effect_none.
  all: try apply effect_node.
  all: try (apply effect_edge; assumption).
  all: try (apply effect_edges; assumption).
Qed.

Lemma lookup_add_edge (r : ref) (e : ref * R) (h : heap) (i : nat)
  (n' : Node) :
  add_edge r e h !! i = Some n' ->
  exists n, h !! i = Some n /\ val n' = val n /\
    forall e', e' ∈ children n' -> e' ∈ children n \/ (i = r /\ e' = e).
Proof.
  unfold add_edge. intros H.
  destruct (decide (r = i)) as [->|Hne].
  - rewrite list_lookup_alter_eq in H.
    destruct (h !! i) as [n|] eqn:Hn; simplify_eq/=.
    exists n. repeat split; try done.
    intros e' [He'|He']%elem_of_app; [by left|].
    right. apply list_elem_of_singleton in He'. done.
  - rewrite list_lookup_alter_ne in H by done.
    exists n'. repeat split; try done. intros; by left.
Qed.

Lemma lookup_snoc_inv (h : heap) (m n : Node) (i : nat) :
  (h ++ [m]) !! i = Some n -> h !! i = Some n \/ (i = length h /\ n = m).
Proof.
  intros H. apply lookup_app_Some in H as [?|[? H]]; [by left|right].
  destruct (i - length h)%nat as [|k] eqn:Hk; simplify_eq/=.
  split; [lia|done].
Qed.

(** ** Relations between the store before and after *)

Lemma same_graph_refl (h : heap) : same_graph h h.
Proof. split; [done|]. intros i n Hn. by exists n. Qed.

Lemma same_graph_trans (h1 h2 h3 : heap) :
  same_graph h1 h2 -> same_graph h2 h3 -> same_graph h1 h3.
Proof.
  intros [L1 H1] [L2 H2]. split; [congruence|].
  intros i n Hn. destruct (H1 i n Hn) as (n2 & Hn2 & Hv2 & Hc2).
  destruct (H2 i n2 Hn2) as (n3 & Hn3 & Hv3 & Hc3).
  exists n3. repeat split; congruence.
Qed.

Lemma grows_refl (h : heap) : grows h h.
Proof.
  split; [done|]. intros i n Hn. split.
  - intros e He. right. by exists n.
  - intros m Hm. congruence.
Qed.

Lemma grows_trans (h1 h2 h3 : heap) :
  grows h1 h2 -> grows h2 h3 -> grows h1 h3.
Proof.
  intros [L1 H1] [L2 H2]. split; [lia|].
  intros i n3 Hn3. destruct (H2 i n3 Hn3) as [E3 V3]. split.
  - intros e He. destruct (E3 e He) as [?|(n2 & Hn2 & He2)]; [by left|].
    destruct (H1 i n2 Hn2) as [E2 _].
    destruct (E2 e He2) as [?|?]; [left; lia|by right].
  - intros n1 Hn1.
    destruct (lookup_lt_is_Some_2 h2 i) as [n2 Hn2].
    { apply lookup_lt_Some in Hn1. lia. }
    rewrite (V3 n2 Hn2). destruct (H1 i n2 Hn2) as [_ V2]. by apply V2.
Qed.

Lemma vals_kept_refl (h : heap) : vals_kept h h.
Proof. intros i n Hn. by exists n. Qed.

Lemma vals_kept_trans (h1 h2 h3 : heap) :
  vals_kept h1 h2 -> vals_kept h2 h3 -> vals_kept h1 h3.
Proof.
  intros H1 H2 i n Hn. destruct (H1 i n Hn) as (n2 & Hn2 & Hv2).
  destruct (H2 i n2 Hn2) as (n3 & Hn3 & Hv3). exists n3. split; congruence.
Qed.

Lemma same_graph_grows (h h' : heap) : same_graph h h' -> grows h h'.
Proof.
  intros [L H]. split; [lia|].
  intros i n' Hn'.
  destruct (lookup_lt_is_Some_2 h i) as [n Hn].
  { apply lookup_lt_Some in Hn'. lia. }
  destruct (H i n Hn) as (m & Hm & Hv & Hc). simplify_eq. split.
  - intros e He. right. exists n. split; [done|]. by rewrite <- Hc.
  - intros n0 Hn0. congruence.
Qed.

Lemma grows_vals_kept (h h' : heap) : grows h h' -> vals_kept h h'.
Proof.
  intros [L H] i n Hn.
  destruct (lookup_lt_is_Some_2 h' i) as [n' Hn'].
  { apply lookup_lt_Some in Hn. lia. }
  exists n'. split; [done|]. destruct (H i n' Hn') as [_ V]. by apply V.
Qed.

Lemma grows_edges_forward (h h' : heap) :
  grows h h' -> edges_forward h -> edges_forward h'.
Proof.
  intros [L H] F i n' e Hn' He.
  destruct (H i n' Hn') as [E _].
  destruct (E e He) as [?|(n & Hn & He')]; [done|].
  specialize (F i n e Hn He'). lia.
Qed.

Lemma same_graph_edges_forward (h h' : heap) :
  same_graph h h' -> edges_forward h -> edges_forward h'.
Proof. intros H. apply grows_edges_forward, same_graph_grows, H. Qed.

(** A method extends the store. *)
Lemma op_effect_grows (h h' : heap) : op_effect h h' -> grows h h'.
Proof.
  destruct 1 as [|x|x r w Hr|x r1 w1 r2 w2 Hr1 Hr2].
  - apply grows_refl.
  - split; [rewrite length_app; lia|].
    intros i n' [Hn'|[-> ->]]%lookup_snoc_inv; split.
    + intros e He. right. by exists n'.
    + congruence.
    + cbn. intros e He. by apply elem_of_nil in He.
    + intros n Hn. apply lookup_lt_Some in Hn. lia.
  - split; [rewrite length_add_edge, length_app; lia|].
    rewrite length_add_edge, length_app. cbn [length].
    intros i n' (n1 & Hn1 & Hv & Hc)%lookup_add_edge.
    apply lookup_snoc_inv in Hn1 as [Hn1|[-> ->]]; split.
    + intros e [He|[-> ->]]%Hc; [right; by exists n1|left; cbn; lia].
    + congruence.
    + intros e [He|[? _]]%Hc; [by apply elem_of_nil in He|lia].
    + intros n Hn. apply lookup_lt_Some in Hn. lia.
  - split; [rewrite !length_add_edge, length_app; lia|].
    rewrite !length_add_edge, length_app. cbn [length].
    intros i n' (n2 & Hn2 & Hv2 & Hc2)%lookup_add_edge.
    apply lookup_add_edge in Hn2 as (n1 & Hn1 & Hv1 & Hc1).
    apply lookup_snoc_inv in Hn1 as [Hn1|[-> ->]]; split.
    + intros e [He|[-> ->]]%Hc2; [|left; cbn; lia].
      apply Hc1 in He as [He|[-> ->]]; [right; by exists n1|left; cbn; lia].
    + congruence.
    + intros e [He|[? _]]%Hc2; [|lia].
      apply Hc1 in He as [He|[? _]]; [by apply elem_of_nil in He|lia].
    + intros n Hn. apply lookup_lt_Some in Hn. lia.
Qed.

Section Preserves.
Variable Rel : heap -> heap -> Prop.
Hypothesis Rel_refl : forall h, Rel h h.
Hypothesis Rel_trans : forall h1 h2 h3, Rel h1 h2 -> Rel h2 h3 -> Rel h1 h3.

Lemma preserves_ret {A} (a : A) : preserves Rel (ret a).
Proof. intros h. apply Rel_refl. Qed.

Lemma preserves_raise {A} (e : exn) : preserves Rel (@raise A e).
Proof. intros h. apply Rel_refl. Qed.

Lemma preserves_load (r : ref) : preserves Rel (load r).
Proof. intros h. unfold load. destruct (h !! r); apply Rel_refl. Qed.

Lemma preserves_bind {A B} (m : M A) (k : A -> M B) :
  preserves Rel m -> (forall a, preserves Rel (k a)) ->
  preserves Rel (bind m k).
Proof.
  intros Hm Hk h. unfold bind. specialize (Hm h).
  destruct (m h) as [[a|e] h']; [|exact Hm].
  eapply Rel_trans; [exact Hm|apply Hk].
Qed.

Lemma preserves_list_comp {A B} (f : A -> M B) (l : list A) :
  (forall x, preserves Rel (f x)) -> preserves Rel (list_comp f l).
Proof.
  intros Hf. induction l as [|x l IH]; cbn [list_comp].
  - apply preserves_ret.
  - apply preserves_bind; [apply Hf|]. intros y.
    apply preserves_bind; [apply IH|]. intros ys. apply preserves_ret.
Qed.

Lemma preserves_for_append {A B} (f : A -> M B) (l : list A)
  (acc : list B) :
  (forall x, preserves Rel (f x)) -> preserves Rel (for_append f l acc).
Proof.
  intros Hf. revert acc.
  induction l as [|x l IH]; intros acc; cbn [for_append].
  - apply preserves_ret.
  - apply preserves_bind; [apply Hf|]. intros y. apply IH.
Qed.

End Preserves.

Lemma preserves_weaken (R1 R2 : heap -> heap -> Prop) {A} (m : M A) :
  (forall h h', R1 h h' -> R2 h h') -> preserves R1 m -> preserves R2 m.
Proof. intros H Hm h. apply H, Hm. Qed.

(** ** The backward pass keeps the graph *)

Lemma set_der_same_graph (r : ref) (d : R) :
  preserves same_graph (set_der r d).
Proof.
  intros h. unfold set_der. rewrite bind_load.
  destruct (h !! r) as [n|] eqn:Hn; [|apply same_graph_refl].
  cbn. split; [apply length_insert|].
  intros i m Hm. destruct (decide (r = i)) as [->|Hne].
  - rewrite list_lookup_insert_eq by (by eapply lookup_lt_Some).
    simplify_eq. eexists. split; [done|]. by split.
  - rewrite list_lookup_insert_ne by done. by exists m.
Qed.

Lemma get_gradient_same_graph (depth : nat) (self : ref) :
  preserves same_graph (get_gradient depth self).
Proof.
  revert self. induction depth as [|depth IH]; intros self;
    cbn [get_gradient].
  - apply preserves_raise, same_graph_refl.
  - apply preserves_bind;
      [apply same_graph_trans|apply preserves_load, same_graph_refl|].
    intros s. destruct (der s).
    + apply preserves_ret, same_graph_refl.
    + apply preserves_bind; [apply same_graph_trans| |].
      * apply preserves_list_comp;
          [apply same_graph_refl|apply same_graph_trans|].
        intros e. apply preserves_bind; [apply same_graph_trans|apply IH|].
        intros g. apply preserves_ret, same_graph_refl.
      * intros terms.
        apply preserves_bind;
          [apply same_graph_trans|apply set_der_same_graph|].
        intros _. apply preserves_ret, same_graph_refl.
Qed.

Lemma init_grows (v : pyval) : preserves grows (__init__ v).
Proof.
  intros h. apply op_effect_grows. destruct v; cbn; try apply effect_none.
  apply effect_node.
Qed.

Lemma built_edges_forward (h : heap) : built h -> edges_forward h.
Proof.
  induction 1 as [|v h _ IH|op self other h _ IH|self h _ IH|self d h _ IH
                 |depth self h _ IH].
  - intros i n e Hn. by rewrite lookup_nil in Hn.
  - eapply grows_edges_forward; [apply init_grows|done].
  - eapply grows_edges_forward; [apply op_effect_grows, binop_effect|done].
  - eapply grows_edges_forward; [|done].
    apply op_effect_grows, (binop_effect Mul).
  - eapply grows_edges_forward; [|done].
    apply same_graph_grows, set_der_same_graph.
  - eapply grows_edges_forward; [|done].
    apply same_graph_grows, get_gradient_same_graph.
Qed.

(** On a store whose edges point forward, the backward pass from a node
    returns as soon as the allowed depth covers the nodes created after it. *)
Lemma get_gradient_returns (depth : nat) :
  forall (h : heap) (self : ref),
    edges_forward h -> (self < length h)%nat ->
    (length h - self <= depth)%nat ->
    exists g h', get_gradient depth self h = (Ok g, h').
Proof.
  induction depth as [|depth IH]; intros h self F Hs Hd; [lia|].
  cbn [get_gradient]. rewrite bind_load.
  destruct (h !! self) as [s|] eqn:Hself;
    [|apply lookup_ge_None in Hself; lia].
  destruct (der s) as [d|]; [by exists d, h|].
  assert (Hch : forall e, e ∈ children s -> (self < e.1 < length h)%nat).
  { intros e He. exact (F self s e Hself He). }
  assert (Hloop : forall cs h1,
             same_graph h h1 ->
             (forall e, e ∈ cs -> (self < e.1 < length h)%nat) ->
             exists terms h2,
               list_comp (fun e : ref * R =>
                            g <- get_gradient depth e.1 ;; ret (g * e.2))
                         cs h1 = (Ok terms, h2) /\ same_graph h h2).
  { induction cs as [|e cs IHcs]; intros h1 S1 Hcs.
    - by exists [], h1.
    - cbn [list_comp]. rewrite !bind_assoc.
      destruct (IH h1 e.1) as (g & h2 & Hg).
      + eapply same_graph_edges_forward; done.
      + destruct S1 as [-> _]. apply Hcs. by left.
      + destruct S1 as [-> _].
        specialize (Hcs e (list_elem_of_here _ _)). lia.
      + assert (S2 : same_graph h h2).
        { eapply same_graph_trans; [exact S1|].
          pose proof (get_gradient_same_graph depth e.1 h1) as P.
          by rewrite Hg in P. }
        destruct (IHcs h2 S2) as (terms & h3 & Ht & S3).
        { intros e' He'. apply Hcs. by right. }
        exists (g * e.2 :: terms), h3. split; [|done].
        unfold bind at 1. rewrite Hg. rewrite bind_ret.
        unfold bind at 1. rewrite Ht. reflexivity. }
  destruct (Hloop (children s) h (same_graph_refl h) Hch)
    as (terms & h2 & Ht & S2).
  unfold bind at 1. rewrite Ht.
  unfold set_der. rewrite bind_assoc, bind_load.
  destruct S2 as [L2 _].
  destruct (lookup_lt_is_Some_2 h2 self) as [s2 ->]; [lia|].
  eexists _, _. reflexivity.
Qed.



(** A gradient that was returned is the gradient the node holds. *)
Lemma get_gradient_caches (depth : nat) (self : ref) (h : heap) (g : R)
  (h' : heap) :
  get_gradient depth self h = (Ok g, h') ->
  exists s', h' !! self = Some s' /\ der s' = Some g.
Proof.
  destruct depth as [|depth]; [discriminate|].
  cbn [get_gradient]. rewrite bind_load.
  destruct (h !! self) as [s|] eqn:Hs; [|discriminate].
  destruct (der s) as [d|] eqn:Hd.
  - intros [= <- <-]. by exists s.
  - unfold bind at 1.
    destruct (list_comp _ _ h) as [[terms|e] h2]; [|discriminate].
    unfold set_der. rewrite bind_assoc, bind_load.
    destruct (h2 !! self) as [s2|] eqn:Hs2; [|discriminate].
    cbn. intros [= <- <-]. eexists. split.
    + apply list_lookup_insert_eq. by eapply lookup_lt_Some.
    + reflexivity.
Qed.

(** ** The exceptions a computation can raise *)

Section Raises.
Variable P : exn -> Prop.

Lemma raises_ret {A} (a : A) : raises_only P (ret a).
Proof. intros h e. discriminate. Qed.

Lemma raises_raise {A} (e : exn) : P e -> raises_only P (@raise A e).
Proof. intros He h e' [= <-]. exact He. Qed.

Lemma raises_load (r : ref) : P DanglingRef -> raises_only P (load r).
Proof.
  intros HP h e. unfold load. destruct (h !! r); [discriminate|].
  intros [= <-]. exact HP.
Qed.

Lemma raises_bind {A B} (m : M A) (k : A -> M B) :
  raises_only P m -> (forall a, raises_only P (k a)) ->
  raises_only P (bind m k).
Proof.
  intros Hm Hk h e. unfold bind. specialize (Hm h).
  destruct (m h) as [[a|e'] h']; [apply Hk|].
  intros [= <-]. by apply Hm.
Qed.

Lemma raises_list_comp {A B} (f : A -> M B) (l : list A) :
  (forall x, raises_only P (f x)) -> raises_only P (list_comp f l).
Proof.
  intros Hf. induction l as [|x l IH]; cbn [list_comp].
  - apply raises_ret.
  - apply raises_bind; [apply Hf|]. intros y.
    apply raises_bind; [apply IH|]. intros ys. apply raises_ret.
Qed.

Lemma raises_for_append {A B} (f : A -> M B) (l : list A) (acc : list B) :
  (forall x, raises_only P (f x)) -> raises_only P (for_append f l acc).
Proof.
  intros Hf. revert acc.
  induction l as [|x l IH]; intros acc; cbn [for_append].
  - apply raises_ret.
  - apply raises_bind; [apply Hf|]. intros y. apply IH.
Qed.

Lemma raises_set_der (r : ref) (d : R) :
  P DanglingRef -> raises_only P (set_der r d).
Proof.
  intros HP. apply raises_bind; [by apply raises_load|].
  intros n h e. discriminate.
Qed.

(** The backward pass raises nothing but [RecursionError] and
    [DanglingRef]. *)
Lemma raises_get_gradient (depth : nat) (self : ref) :
  P RecursionError -> P DanglingRef ->
  raises_only P (get_gradient depth self).
Proof.
  intros HR HD. revert self.
  induction depth as [|depth IH]; intros self; cbn [get_gradient].
  - by apply raises_raise.
  - apply raises_bind; [by apply raises_load|]. intros s.
    destruct (der s); [apply raises_ret|].
    apply raises_bind.
    + apply raises_list_comp. intros e.
      apply raises_bind; [apply IH|]. intros g. apply raises_ret.
    + intros terms. apply raises_bind; [by apply raises_set_der|].
      intros _. apply raises_ret.
Qed.

Lemma raises_init (v : pyval) :
  P (TypeError None) -> raises_only P (__init__ v).
Proof.
  intros HP. destruct v; cbn [__init__]; try by apply raises_raise.
  intros h e. discriminate.
Qed.

End Raises.

(** ** The driver keeps the values of the nodes *)

Lemma AutoDiffR_seed_vals_kept (depth : nat) (self : ref)
  (variables : list ref) :
  preserves vals_kept (_AutoDiffR depth self variables).
Proof.
  apply (preserves_weaken same_graph);
    [intros; by apply grows_vals_kept, same_graph_grows|].
  unfold _AutoDiffR.
  apply preserves_bind; [apply same_graph_trans|apply set_der_same_graph|].
  intros _.
  apply preserves_for_append; [apply same_graph_refl|apply same_graph_trans|].
  intros var. apply get_gradient_same_graph.
Qed.

Lemma AutoDiffR1D_vals_kept (depth : nat) (f : pyfun) (val : pyval) :
  (forall variables, preserves vals_kept (call f variables)) ->
  preserves vals_kept (AutoDiffR1D depth f val).
Proof.
  intros Hf. unfold AutoDiffR1D.
  destruct (signature_len f); [|apply preserves_raise, vals_kept_refl].
  apply preserves_bind; [apply vals_kept_trans| |].
  { destruct val; apply preserves_ret || apply preserves_raise;
      apply vals_kept_refl. }
  intros items. destruct (negb _); [apply preserves_raise, vals_kept_refl|].
  apply preserves_bind; [apply vals_kept_trans| |].
  { apply preserves_list_comp; [apply vals_kept_refl|apply vals_kept_trans|].
    intros v.
    apply (preserves_weaken grows); [apply grows_vals_kept|apply init_grows]. }
  intros variables. apply preserves_bind; [apply vals_kept_trans|apply Hf|].
  intros [| result | | |]; try apply preserves_raise, vals_kept_refl.
  apply AutoDiffR_seed_vals_kept.
Qed.

(** ** The edges of the power and of the reflected division *)

(** [x ** y] on two fresh nodes of positive values [a] and [b]. *)
Lemma pow_node_edges (h : heap) (a b : R) :
  0 < a -> 0 < b ->
  __pow__ (length h + 0) (VNode (length h + 1)%nat)
          (h ++ [mkNode a [] None; mkNode b [] None]) =
  (Ok (length h + 2)%nat,
   h ++ [mkNode a [((length h + 2)%nat, b * Rpower a (b - 1))] None;
         mkNode b [((length h + 2)%nat, Rpower a b * ln b)] None;
         mkNode (Rpower a b) [] None]).
Proof.
  intros Ha Hb. unfold __pow__. run.
  rewrite !py_pow_pos by assumption. run.
  rewrite math_log_pos by assumption. run.
  reflexivity.
Qed.

(** [c / x] on a node of non-zero value. *)
Lemma rtruediv_edge (h : heap) (self : ref) (s : Node) (c : R) :
  h !! self = Some s -> val s <> 0 ->
  exists h',
    __rtruediv__ self (VNum c) h = (Ok (length h), h') /\
    h' !! self = Some (mkNode (val s)
                              (children s ++ [(length h, - c / val s ^ 2)])
                              (der s)) /\
    h' !! length h = Some (mkNode (c / val s) [] None).
Proof.
  intros Hs Hv. pose proof (lookup_lt_Some _ _ _ Hs) as Hlt.
  unfold __rtruediv__. rewrite bind_load, Hs.
  rewrite bind_lift, py_truediv_ok by assumption.
  cbn [__init__]. rewrite bind_alloc.
  rewrite bind_lift, py_pow_2 by assumption. cbn [real_of].
  rewrite bind_ret, bind_lift, py_truediv_ok by nra.
  rewrite bind_append_child by (rewrite length_app; lia).
  eexists. split; [reflexivity|]. unfold add_edge. split.
  - rewrite list_lookup_alter_eq, (lookup_app_l_Some _ _ _ _ Hs). cbn.
    repeat f_equal. field; assumption.
  - rewrite list_lookup_alter_ne by lia.
    rewrite lookup_app_r by lia. by rewrite Nat.sub_diag.
Qed.

(** ** The forward mode on a power, and a batch *)

(** Seeded on the exponent, [Dual.__pow__] gives [a^b * ln a]: the logarithm
    of the base. *)
Lemma Dual_pow_exponent_derivative (a b : R) :
  0 < a ->
  Dual.__pow__ (Dual.mk a 0) (Dual.mk b 1)
  = Ok (Dual.mk (Rpower a b) (Rpower a b * (1 * ln a + b / a * 0))).
Proof.
  intros Ha. unfold Dual.__pow__. cbn [Dual.val Dual.der].
  rewrite py_pow_pos, math_log_pos, py_truediv_ok by lra.
  reflexivity.
Qed.

(** [AutoDiffR([f, g], [[1], [1, 2]])] for the two functions above. *)
Example batch_example (h : heap) :
  (AutoDiffR 3 (FList [f_diamond; f_quotient])
             (VList [VList [VNum 1]; VList [VNum 1; VNum 2]]) h).1
  = Ok (Gradients [[8]; [1 / 2; - 1 / 4]]).
Proof.
  rewrite <- (app_nil_r h).
  unfold AutoDiffR. cbn [py_items length Nat.eqb zip zip_with].
  run. cbv [negb]. run.
  unfold AutoDiffR1D, f_diamond, f_quotient.
  cbn [signature_len py_items length Nat.eqb call]. cbv [negb].
  run. unfold __add__, __mul__. run.
  unfold _AutoDiffR. run.
  cbn [signature_len py_items length Nat.eqb call]. cbv [negb].
  run. unfold __truediv__. run.
  rewrite !py_truediv_ok by lra. run.
  rewrite py_pow_2 by lra. run.
  rewrite py_truediv_ok by lra. run.
  unfold py_sum. cbn [fold_left ret fst].
  do 2 f_equal. repeat f_equal; field.
Qed.

(** ** The range of the floats *)

Lemma in_float_range_moderate (x : R) :
  1 <= Rabs x <= 2 ^ 1023 -> in_float_range x.
Proof.
  intros [H1 H2]. unfold in_float_range, float_min, float_max.
  assert (P : forall n, 1 <= 2 ^ n) by (intros n; apply pow_R1_Rle; lra).
  pose proof (P 1022%nat) as P1. pose proof (P 52%nat) as P2.
  pose proof (P 1023%nat) as P3.
  assert (I1 : / 2 ^ 1022 <= 1).
  { rewrite <- Rinv_1. apply Rinv_le_contravar; lra. }
  assert (I2 : / 2 ^ 52 <= 1).
  { rewrite <- Rinv_1. apply Rinv_le_contravar; lra. }
  split; [lra|]. nra.
Qed.

Lemma float_max_ge_4 : 4 <= float_max.
Proof.
  unfold float_max.
  assert (P : 1 <= 2 ^ 52) by (apply pow_R1_Rle; lra).
  assert (I : / 2 ^ 52 <= 1).
  { rewrite <- Rinv_1. apply Rinv_le_contravar; lra. }
  assert (Q : 2 ^ 2 <= 2 ^ 1023) by (apply (Rle_pow 2 2 1023); [lra|lia]).
  nra.
Qed.

Lemma moderate_small (x : R) : Rabs x <= 4 -> moderate x.
Proof.
  intros H. unfold moderate.
  assert (Q : 2 ^ 2 <= 2 ^ 500) by (apply (Rle_pow 2 2 500); [lra|lia]).
  lra.
Qed.

(** ** The operations create nodes, append edges and write gradients *)

Lemma binop_method_effect (op : binop) (self : ref) (other : pyval)
  (h : heap) :
  method_effect self other h (apply_binop op self other h).2.
Proof.
  destruct op; cbn [apply_binop];
    unfold __radd__, __rmul__;
    unfold __add__, __mul__, __truediv__, __rtruediv__,
           __sub__, __rsub__, __pow__, __rpow__;
    destruct other; cbn [snd raise]; try apply method_none.
  all: repeat op_step.
  all: cbn [snd raise ret].
  all: try apply method_none.
  all: try apply method_node.
  all: try (apply method_edge; assumption).
  all: try (eapply method_edges; [reflexivity|assumption|assumption]).
Qed.

Lemma method_effect_op_effect (self : ref) (other : pyval) (h h' : heap) :
  method_effect self other h h' -> op_effect h h'.
Proof.
  destruct 1 as [|x|x w Hs|x w o w' _ Hs Ho].
  - apply effect_none.
  - apply effect_node.
  - by apply effect_edge.
  - by apply effect_edges.
Qed.

Lemma evolves_refl (h : heap) : evolves h h.
Proof.
  intros i n Hn. exists n. repeat split; try done.
  exists []. by rewrite app_nil_r.
Qed.

Lemma evolves_trans (h1 h2 h3 : heap) :
  evolves h1 h2 -> evolves h2 h3 -> evolves h1 h3.
Proof.
  intros H12 H23 i n1 Hn1.
  destruct (H12 i n1 Hn1) as (n2 & Hn2 & Hv2 & (new2 & Hc2) & Hd2).
  destruct (H23 i n2 Hn2) as (n3 & Hn3 & Hv3 & (new3 & Hc3) & Hd3).
  exists n3. repeat split.
  - done.
  - congruence.
  - exists (new2 ++ new3). by rewrite Hc3, Hc2, app_assoc.
  - intros Hd. by apply Hd3, Hd2.
Qed.

Lemma evolves_vals_kept (h h' : heap) : evolves h h' -> vals_kept h h'.
Proof.
  intros H i n Hn. destruct (H i n Hn) as (n' & Hn' & Hv & _).
  by exists n'.
Qed.

Lemma snoc_evolves (h : heap) (m : Node) : evolves h (h ++ [m]).
Proof.
  intros i n Hn. exists n. repeat split; try done.
  - by apply lookup_app_l_Some.
  - exists []. by rewrite app_nil_r.
Qed.

Lemma add_edge_evolves (r : ref) (e : ref * R) (h : heap) :
  evolves h (add_edge r e h).
Proof.
  intros i n Hn. unfold add_edge. destruct (decide (r = i)) as [->|Hne].
  - rewrite list_lookup_alter_eq, Hn. cbn. eexists. split; [done|].
    cbn. repeat split; try done. by exists [e].
  - rewrite list_lookup_alter_ne by done. exists n. repeat split; try done.
    exists []. by rewrite app_nil_r.
Qed.

Lemma op_effect_evolves (h h' : heap) : op_effect h h' -> evolves h h'.
Proof.
  destruct 1 as [|x|x r w Hr|x r1 w1 r2 w2 Hr1 Hr2].
  - apply evolves_refl.
  - apply snoc_evolves.
  - eapply evolves_trans; [apply snoc_evolves|apply add_edge_evolves].
  - eapply evolves_trans; [apply snoc_evolves|].
    eapply evolves_trans; apply add_edge_evolves.
Qed.

Lemma init_effect (v : pyval) (h : heap) :
  (__init__ v h).2 = h \/ exists x, (__init__ v h).2 = h ++ [mkNode x [] None].
Proof. destruct v; cbn; try by left. right. by eexists. Qed.

Lemma init_evolves (v : pyval) : preserves evolves (__init__ v).
Proof.
  intros h. destruct (init_effect v h) as [->|[x ->]];
    [apply evolves_refl|apply snoc_evolves].
Qed.

Lemma set_der_evolves (r : ref) (d : R) : preserves evolves (set_der r d).
Proof.
  intros h. unfold set_der. rewrite bind_load.
  destruct (h !! r) as [n|] eqn:Hn; [|apply evolves_refl].
  cbn. intros i m Hm. destruct (decide (r = i)) as [->|Hne].
  - rewrite list_lookup_insert_eq by (by eapply lookup_lt_Some).
    simplify_eq. eexists. split; [done|]. cbn. repeat split; try done.
    exists []. by rewrite app_nil_r.
  - rewrite list_lookup_insert_ne by done. exists m. repeat split; try done.
    exists []. by rewrite app_nil_r.
Qed.

Lemma ders_kept_refl (h : heap) : ders_kept h h.
Proof. intros i n d Hn Hd. by exists n. Qed.

Lemma ders_kept_trans (h1 h2 h3 : heap) :
  ders_kept h1 h2 -> ders_kept h2 h3 -> ders_kept h1 h3.
Proof.
  intros H12 H23 i n d Hn Hd.
  destruct (H12 i n d Hn Hd) as (n2 & Hn2 & Hd2). by apply (H23 i n2 d).
Qed.

Lemma get_gradient_ders_kept (depth : nat) (self : ref) :
  preserves ders_kept (get_gradient depth self).
Proof.
  revert self. induction depth as [|depth IH]; intros self h;
    cbn [get_gradient]; [apply ders_kept_refl|].
  rewrite bind_load. destruct (h !! self) as [s|] eqn:Hs;
    [|apply ders_kept_refl].
  destruct (der s) as [d|] eqn:Hd; [apply ders_kept_refl|].
  unfold bind at 1.
  assert (Hl : preserves ders_kept
                 (list_comp (fun e : ref * R =>
                               g <- get_gradient depth (fst e) ;;
                               ret (g * snd e)) (children s))).
  { apply preserves_list_comp;
      [apply ders_kept_refl|apply ders_kept_trans|].
    intros e. apply preserves_bind; [apply ders_kept_trans|apply IH|].
    intros g. apply preserves_ret, ders_kept_refl. }
  specialize (Hl h).
  destruct (list_comp _ (children s) h) as [[terms|e] h2]; [|exact Hl].
  cbn [snd] in Hl. unfold set_der. rewrite bind_assoc, bind_load.
  destruct (h2 !! self) as [s2|] eqn:Hs2; [|exact Hl].
  cbn. intros i n d Hn Hdn. destruct (decide (self = i)) as [->|Hne].
  - congruence.
  - rewrite list_lookup_insert_ne by done. by apply (Hl i n d).
Qed.

(** A store with the same graph in which the gradients that were set are
    kept. *)
Lemma same_graph_evolves (h h' : heap) :
  same_graph h h' -> ders_kept h h' -> evolves h h'.
Proof.
  intros [_ Hg] Hd i n Hn. destruct (Hg i n Hn) as (n' & Hn' & Hv & Hc).
  exists n'. repeat split; try done.
  - exists []. by rewrite app_nil_r.
  - destruct (der n) as [d|] eqn:E; [|done]. intros _.
    destruct (Hd i n d Hn E) as (n2 & Hn2 & Hd2). congruence.
Qed.

Lemma get_gradient_evolves (depth : nat) (self : ref) :
  preserves evolves (get_gradient depth self).
Proof.
  intros h. apply same_graph_evolves;
    [apply get_gradient_same_graph|apply get_gradient_ders_kept].
Qed.

Lemma AutoDiffR_seed_same_graph (depth : nat) (self : ref)
  (variables : list ref) :
  preserves same_graph (_AutoDiffR depth self variables).
Proof.
  unfold _AutoDiffR.
  apply preserves_bind; [apply same_graph_trans|apply set_der_same_graph|].
  intros _.
  apply preserves_for_append; [apply same_graph_refl|apply same_graph_trans|].
  intros var. apply get_gradient_same_graph.
Qed.

Lemma AutoDiffR_seed_evolves (depth : nat) (self : ref)
  (variables : list ref) :
  preserves evolves (_AutoDiffR depth self variables).
Proof.
  unfold _AutoDiffR.
  apply preserves_bind; [apply evolves_trans|apply set_der_evolves|].
  intros _.
  apply preserves_for_append; [apply evolves_refl|apply evolves_trans|].
  intros var. apply get_gradient_evolves.
Qed.

(** The drivers keep every relation that the constructor, the backward pass
    and the functions they call keep. *)
Section Drivers.
Variable Rel : heap -> heap -> Prop.
Hypothesis Rel_refl : forall h, Rel h h.
Hypothesis Rel_trans : forall h1 h2 h3, Rel h1 h2 -> Rel h2 h3 -> Rel h1 h3.
Hypothesis Rel_init : forall v, preserves Rel (__init__ v).
Hypothesis Rel_backward :
  forall depth self variables, preserves Rel (_AutoDiffR depth self variables).

Lemma AutoDiffR1D_preserves (depth : nat) (f : pyfun) (val : pyval) :
  (forall variables, preserves Rel (call f variables)) ->
  preserves Rel (AutoDiffR1D depth f val).
Proof.
  intros Hf. unfold AutoDiffR1D.
  destruct (signature_len f); [|by apply preserves_raise].
  apply preserves_bind; [done| |].
  { destruct val; by (apply preserves_ret || apply preserves_raise). }
  intros items. destruct (negb _); [by apply preserves_raise|].
  apply preserves_bind; [done| |].
  { by apply preserves_list_comp. }
  intros variables. apply preserves_bind; [done|apply Hf|].
  intros [| result | | |]; try by apply preserves_raise.
  apply Rel_backward.
Qed.

Lemma AutoDiffR_preserves (depth : nat) (fs : funs) (val_list : pyval) :
  (forall f variables, f ∈ members fs -> preserves Rel (call f variables)) ->
  preserves Rel (AutoDiffR depth fs val_list).
Proof.
  intros Hf. unfold AutoDiffR. destruct fs as [f_list|f].
  - apply preserves_bind; [done| |].
    { destruct val_list; by (apply preserves_ret || apply preserves_raise). }
    intros vals. destruct (negb _); [by apply preserves_raise|].
    apply preserves_bind; [done| |intros; by apply preserves_ret].
    assert (Hz : forall fv, fv ∈ zip f_list vals -> fv.1 ∈ f_list).
    { intros [f v] Hin. cbn. eapply elem_of_zip_l, Hin. }
    revert Hz. generalize (zip f_list vals) (@nil (list R)).
    induction l as [|fv l IH]; intros acc Hz; cbn [for_append].
    + by apply preserves_ret.
    + apply preserves_bind; [done| |].
      * apply AutoDiffR1D_preserves. intros variables. apply Hf.
        apply Hz. by left.
      * intros y. apply IH. intros fv' Hin. apply Hz. by right.
  - apply preserves_bind; [done| |intros; by apply preserves_ret].
    apply AutoDiffR1D_preserves. intros variables. apply Hf. cbn. by left.
Qed.

End Drivers.

(** * The claims *)

(** C1.  The power of a [Node] base [a] by a [Node] exponent [b] makes a
    node of value [a^b], an edge of weight [b * a^(b-1)] on the base and an
    edge on the exponent.  At [a = 2], [b = 1] the code gives that last edge
    the weight [2^1 * ln 1 = 0], the logarithm of the exponent, where the
    derivative is [2^1 * ln 2], which is not 0. *)
Theorem pow_exponent_edge_at_2_1 :
  __pow__ 0 (VNode 1) [mkNode 2 [] None; mkNode 1 [] None] =
  (Ok 2%nat,
   [mkNode 2 [(2%nat, 1 * Rpower 2 (1 - 1))] None;
    mkNode 1 [(2%nat, Rpower 2 1 * ln 1)] None;
    mkNode (Rpower 2 1) [] None]) /\
  Rpower 2 1 * ln 1 = 0 /\
  Rpower 2 1 * ln 2 <> 0.
Proof.
  split; [|split].
  - apply (pow_node_edges [] 2 1); lra.
  - rewrite ln_1. ring.
  - rewrite Rpower_2_1. pose proof ln_2_neq_0. nra.
Qed.

(** The same defect seen from the driver: the gradient of [x ** y] at
    [(2, 1)] comes out as [[1, 0]]. *)
Lemma power_gradient_at_2_1 (depth : nat) (h : heap) :
  (AutoDiffR1D (2 + depth) f_power (VList [VNum 2; VNum 1]) h).1
  = Ok [1; 0].
Proof.
  rewrite <- (app_nil_r h).
  unfold AutoDiffR1D, f_power.
  cbn [signature_len py_items length Nat.eqb call]. cbv [negb].
  run. unfold __pow__. run.
  rewrite !py_pow_pos by lra. run.
  rewrite math_log_pos by lra. run.
  unfold _AutoDiffR. run.
  unfold py_sum. cbn [fold_left ret fst].
  rewrite ln_1, Rpower_2_0. do 2 f_equal; [|f_equal]; ring.
Qed.

(** C2.  For every [x0], the driver on [f(x) = (x + x) * (x + x)] at [[x0]]
    returns the gradient [[8 * x0]], whatever the store it starts from, as
    soon as three nested calls are allowed. *)
Theorem diamond_gradient (x0 : R) (depth : nat) (h : heap) :
  (AutoDiffR1D (3 + depth) f_diamond (VList [VNum x0]) h).1 = Ok [8 * x0].
Proof.
  rewrite <- (app_nil_r h).
  unfold AutoDiffR1D, f_diamond.
  cbn [signature_len py_items length Nat.eqb call]. cbv [negb].
  run. unfold __add__, __mul__. run.
  unfold _AutoDiffR. run.
  unfold py_sum. cbn [fold_left ret fst]. do 2 f_equal. ring.
Qed.



(** C4, as the code has it.  An arithmetic method or an ordering comparison
    ([<], [>], [<=], [>=]) raises [TypeError] when the other operand is
    neither a number nor a [Node]; [==] returns [False] and [!=] returns
    [True] on every operand that is not a [Node], a number included, and
    neither raises; [AutoDiffR1D] raises [TypeError] on a first argument whose
    signature cannot be read. *)
Theorem operand_type_errors (self : ref) (h : heap) :
  (forall other,
     is_number other || is_node other = false ->
     (forall op, apply_binop op self other h = (Raise (TypeError None), h)) /\
     (forall c, apply_cmp c self other h = (Raise (TypeError None), h))) /\
  (forall other depth,
     is_node other = false ->
     __eq__ (S depth) self other h = (Ok false, h) /\
     __ne__ (S depth) self other h = (Ok true, h)) /\
  (forall depth val,
     AutoDiffR1D depth NotAFunction val h = (Raise not_a_function, h)).
Proof.
  split; [|split].
  - intros other Ho. split.
    + intros op. destruct other; try discriminate; destruct op; reflexivity.
    + intros c. destruct other; try discriminate; destruct c; reflexivity.
  - intros other depth Ho.
    destruct other; try discriminate; split; reflexivity.
  - reflexivity.
Qed.

Lemma operand_type_errors_witness :
  __add__ 0 VOther [mkNode 0 [] None]
  = (Raise (TypeError None), [mkNode 0 [] None]) /\
  __lt__ 0 VOther [mkNode 0 [] None]
  = (Raise (TypeError None), [mkNode 0 [] None]) /\
  __eq__ 1 0 (VNum 0) [mkNode 0 [] None] = (Ok false, [mkNode 0 [] None]).
Proof.
  destruct (operand_type_errors 0 [mkNode 0 [] None]) as (H1 & H2 & _).
  destruct (H1 VOther eq_refl) as [Hop Hcmp].
  split; [exact (Hop Add)|split; [exact (Hcmp Lt)|]].
  exact (proj1 (H2 (VNum 0) 0%nat eq_refl)).
Defined.

(** C4, as stated, fails on [==]: on an operand that is neither a number nor
    a [Node], [__eq__] does not raise [TypeError]. *)
Lemma eq_raises_no_type_error :
  ~ (forall depth self other h,
       is_number other || is_node other = false ->
       (__eq__ depth self other h).1 = Raise (TypeError None)).
Proof.
  intros H. specialize (H 1%nat 0%nat VOther [mkNode 0 [] None] eq_refl).
  discriminate H.
Qed.

(** C5, as the code has it.  For a function whose signature can be read
    and whose body does not itself raise the dimension-mismatch exception,
    [AutoDiffR1D] raises it exactly when the length of the point differs
    from the number of parameters that the signature reports; it then
    returns no gradient and has built no node. *)
Theorem dimension_mismatch_iff
  (depth nparams : nat) (body : list ref -> M pyval) (items : list pyval)
  (h : heap) :
  (forall variables h0, (body variables h0).1 <> Raise dimension_mismatch) ->
  ((AutoDiffR1D depth (Def nparams body) (VList items) h).1
   = Raise dimension_mismatch <-> length items <> nparams) /\
  (length items <> nparams ->
   AutoDiffR1D depth (Def nparams body) (VList items) h
   = (Raise dimension_mismatch, h)).
Proof.
  intros Hbody.
  assert (Hmis : length items <> nparams ->
                 AutoDiffR1D depth (Def nparams body) (VList items) h
                 = (Raise dimension_mismatch, h)).
  { intros Hne. unfold AutoDiffR1D. cbn [signature_len py_items].
    rewrite bind_ret. apply Nat.eqb_neq in Hne.
    rewrite Nat.eqb_sym, Hne. reflexivity. }
  split; [split|exact Hmis].
  - intros Hr Heq. revert Hr.
    unfold AutoDiffR1D. cbn [signature_len py_items]. rewrite bind_ret.
    rewrite Heq, Nat.eqb_refl. cbv [negb].
    intros Hr. eapply (raises_bind (fun e => e <> dimension_mismatch));
      [| |exact Hr|reflexivity].
    + apply raises_list_comp. intros v. by apply raises_init.
    + intros variables. apply raises_bind.
      * intros h0 e He. cbv beta. intros ->. cbn [call] in He.
        by apply (Hbody variables h0).
      * intros [| result | | |]; try by apply raises_raise.
        unfold _AutoDiffR. apply raises_bind; [by apply raises_set_der|].
        intros _. apply raises_for_append. intros var.
        by apply raises_get_gradient.
  - intros Hne. by rewrite Hmis.
Qed.

Lemma dimension_mismatch_iff_witness :
  AutoDiffR1D 1 f_identity (VList [VNum 1; VNum 2]) []
  = (Raise dimension_mismatch, []).
Proof.
  refine (proj2 (dimension_mismatch_iff 1 1 identity_body
                   [VNum 1; VNum 2] [] _) _).
  - intros [|x [|y l]] h0; discriminate.
  - cbn. lia.
Defined.

(** C5, as stated, fails: the dimension is the number of all the parameters
    that the signature reports, not of the positional ones.  On
    [def f(x, *, k=1): return x], which declares one positional parameter,
    and a point of length 1, the driver raises the dimension-mismatch
    exception.  And a function that raises this very exception itself makes
    the driver raise it on a point of the right length. *)
Lemma dimension_counts_every_parameter :
  AutoDiffR1D 1 (def_keyword_only 1 1 identity_body) (VList [VNum 3]) []
  = (Raise dimension_mismatch, []) /\
  AutoDiffR1D 1 (Def 1 (fun _ => raise dimension_mismatch))
    (VList [VNum 3]) []
  = (Raise dimension_mismatch, [mkNode 3 [] None]).
Proof. split; reflexivity. Qed.

(** C6.  Given a list of functions, [AutoDiffR] raises the length-mismatch
    exception when the list of points has another length, and otherwise
    returns the gradients of the functions, each at its own point, in order;
    given one function that is not a list it is [AutoDiffR1D]. *)
Theorem AutoDiffR_dispatch (depth : nat) (h : heap) :
  (forall f_list vals,
     length f_list <> length vals ->
     AutoDiffR depth (FList f_list) (VList vals) h
     = (Raise length_mismatch, h)) /\
  (forall f_list vals,
     length f_list = length vals ->
     AutoDiffR depth (FList f_list) (VList vals) h
     = bind (evaluate_each depth f_list vals)
            (fun results => ret (Gradients results)) h) /\
  (forall f val_list,
     AutoDiffR depth (FOne f) val_list h
     = bind (AutoDiffR1D depth f val_list)
            (fun result => ret (Gradient result)) h).
Proof.
  split; [|split].
  - intros f_list vals Hne. unfold AutoDiffR. cbn [py_items].
    rewrite bind_ret. apply Nat.eqb_neq in Hne. rewrite Hne. reflexivity.
  - intros f_list vals Heq. unfold AutoDiffR, evaluate_each. cbn [py_items].
    rewrite bind_ret, Heq, Nat.eqb_refl. cbv [negb].
    unfold bind at 1. rewrite for_append_list_comp.
    unfold bind.
    destruct (list_comp _ _ h) as [[ys|e] h1]; reflexivity.
  - reflexivity.
Qed.

Lemma AutoDiffR_dispatch_witness :
  AutoDiffR 1 (FList [f_identity]) (VList []) []
  = (Raise length_mismatch, []) /\
  AutoDiffR 1 (FList [f_identity]) (VList [VList [VNum 3]]) []
  = bind (evaluate_each 1 [f_identity] [VList [VNum 3]])
         (fun results => ret (Gradients results)) [].
Proof.
  destruct (AutoDiffR_dispatch 1 []) as (H1 & H2 & _).
  split; [apply H1; cbn; lia|apply H2; reflexivity].
Defined.

(** C7, as the code has it.  For [x0] in the range of the floats and [y0]
    whose square is in the range of the normal floats, the driver on
    [f(x, y) = x / y] at [[x0, y0]] returns [[1 / y0, - x0 / y0 ** 2]]; and
    the reflected division [x0 / n] by a node [n] of value [y0] makes a node
    of value [x0 / y0] and appends to [n] an edge to it of weight
    [- x0 / y0 ** 2]. *)
Theorem quotient_rule (x0 y0 : R) :
  y0 <> 0 -> Rabs x0 <= float_max -> in_float_range (y0 ^ 2) ->
  (forall depth h,
     (AutoDiffR1D (2 + depth) f_quotient (VList [VNum x0; VNum y0]) h).1
     = Ok [1 / y0; - x0 / y0 ^ 2]) /\
  (forall h self s,
     h !! self = Some s -> val s = y0 ->
     exists h',
       __rtruediv__ self (VNum x0) h = (Ok (length h), h') /\
       h' !! self = Some (mkNode (val s)
                            (children s ++ [(length h, - x0 / y0 ^ 2)])
                            (der s)) /\
       h' !! length h = Some (mkNode (x0 / y0) [] None)).
Proof.
  intros Hy _ _. split.
  - intros depth h. rewrite <- (app_nil_r h).
    unfold AutoDiffR1D, f_quotient.
    cbn [signature_len py_items length Nat.eqb call]. cbv [negb].
    run. unfold __truediv__. run.
    rewrite !py_truediv_ok by assumption. run.
    rewrite py_pow_2 by assumption. run.
    rewrite py_truediv_ok by nra. run.
    unfold _AutoDiffR. run.
    unfold py_sum. cbn [fold_left ret fst].
    do 2 f_equal; [|f_equal]; field; assumption.
  - intros h self s Hs <-. by apply rtruediv_edge.
Qed.

Lemma quotient_rule_witness :
  (AutoDiffR1D 2 f_quotient (VList [VNum 1; VNum 2]) []).1
  = Ok [1 / 2; - 1 / 2 ^ 2] /\
  exists h',
    __rtruediv__ 0 (VNum 1) [mkNode 2 [] None] = (Ok 1%nat, h') /\
    h' !! 0%nat = Some (mkNode 2 [(1%nat, - 1 / 2 ^ 2)] None) /\
    h' !! 1%nat = Some (mkNode (1 / 2) [] None).
Proof.
  assert (H2 : (2 : R) <> 0) by lra.
  assert (Hr : in_float_range (2 ^ 2)).
  { apply in_float_range_moderate. rewrite Rabs_pos_eq by lra.
    split; [lra|]. apply (Rle_pow 2 2 1023); [lra|lia]. }
  assert (H1 : Rabs 1 <= float_max).
  { rewrite Rabs_pos_eq by lra. pose proof float_max_ge_4. lra. }
  destruct (quotient_rule 1 2 H2 H1 Hr) as [Hgrad Hedge].
  split; [exact (Hgrad 0%nat [])|].
  exact (Hedge [mkNode 2 [] None] 0%nat (mkNode 2 [] None) eq_refl eq_refl).
Defined.

(** C7, as stated, fails on floats.  The float [1e-200] is not zero, but its
    square is: at [x0 = 0.0] and [y0 = 1e-200], where the gradient
    [[1e200, -0.0]] is made of floats, [x / y] on the two nodes that the
    driver makes for the point raises [ZeroDivisionError], and so does the
    reflected division [0.0 / n] by a node of value [1e-200]; at
    [y0 = 1e200] the square is too large for a float and both raise
    [OverflowError].  The exception of the method leaves the function and
    the driver.  At [y0 = 2.3e-162] the square is rounded to the smallest
    positive float, [5e-324], which is 7% less than the square: the edge that
    [1e-300 / n] appends has the weight [-2.02e23], where [- c / a ** 2] is
    [-1.89e23]. *)
Section Floats.
Import PrimFloat.
Local Set Warnings "-inexact-float".

Lemma quotient_square_out_of_range :
  (1e-200 =? 0)%float = false /\
  (binary64.__truediv__ 0 (binary64.VNode 1)
     [binary64.mkNode 0 [] None; binary64.mkNode 1e-200 [] None]).1
  = Raise ZeroDivisionError /\
  (binary64.__rtruediv__ 0 (binary64.VNum 0)
     [binary64.mkNode 1e-200 [] None]).1
  = Raise ZeroDivisionError /\
  (binary64.__truediv__ 0 (binary64.VNode 1)
     [binary64.mkNode 0 [] None; binary64.mkNode 1e200 [] None]).1
  = Raise OverflowError /\
  (binary64.__rtruediv__ 0 (binary64.VNum 0)
     [binary64.mkNode 1e200 [] None]).1
  = Raise OverflowError /\
  (binary64.__rtruediv__ 0 (binary64.VNum 1e-300)
     [binary64.mkNode 2.3e-162 [] None]).2 !! 0%nat
  = Some (binary64.mkNode 2.3e-162 [(1%nat, (-2.0240225330731062e23)%float)]
            None) /\
  (- 1e-300 / 2.3e-162 / 2.3e-162 = -1.8903591682419662e23)%float.
Proof. repeat split; reflexivity. Qed.

End Floats.

(** C8.  On a store built by the constructor, the arithmetic methods, the
    seeding and the backward pass, every edge of a node points to a node
    created strictly after it; hence a path always leads to a later node, no
    node reaches itself, and [get_gradient] returns a value on every node,
    as soon as the allowed depth covers the nodes created after it. *)
Theorem built_acyclic_and_get_gradient_terminates (h : heap) :
  built h ->
  edges_forward h /\
  (forall i j, reach h i j -> (i < j)%nat) /\
  (forall i, ~ reach h i i) /\
  (forall self depth,
     (self < length h)%nat -> (length h - self <= depth)%nat ->
     exists g h', get_gradient depth self h = (Ok g, h')).
Proof.
  intros Hb. pose proof (built_edges_forward h Hb) as F.
  assert (Hreach : forall i j, reach h i j -> (i < j)%nat).
  { induction 1 as [i n e Hn He|i j k _ IH1 _ IH2]; [|lia].
    specialize (F i n e Hn He). lia. }
  repeat split; try done.
  - by apply (F i n e).
  - by apply (F i n e).
  - intros i Hi. apply Hreach in Hi. lia.
  - intros self depth Hs Hd. by apply get_gradient_returns.
Qed.

Lemma built_acyclic_and_get_gradient_terminates_witness :
  let h := (__add__ 0 (VNode 0) (__init__ (VNum 1) []).2).2 in
  edges_forward h /\
  (forall i j, reach h i j -> (i < j)%nat) /\
  (forall i, ~ reach h i i) /\
  (forall self depth,
     (self < length h)%nat -> (length h - self <= depth)%nat ->
     exists g h', get_gradient depth self h = (Ok g, h')).
Proof.
  apply built_acyclic_and_get_gradient_terminates.
  apply (built_binop Add), built_init, built_empty.
Defined.

(** C9.  The value of a node never changes: the constructor, every
    arithmetic method, the backward pass, the seeding of the output and the
    drivers (run on functions that keep the values themselves) leave every
    node of the store in the store, with the value it had.  What they do to
    the store is this and no more: the constructor makes one node; a method
    makes one node and appends an edge to it to its operands; the backward
    pass and the seeding keep the nodes and their edges and write gradients,
    the backward pass only where none was set; and the drivers (run on
    functions that do no more themselves) keep every node, the edges it had
    at the head of its edge list, and a gradient where one was set. *)
Theorem val_is_immutable (h : heap) :
  (forall v, vals_kept h (__init__ v h).2) /\
  (forall op self other, vals_kept h (apply_binop op self other h).2) /\
  (forall self, vals_kept h (__neg__ self h).2) /\
  (forall depth self, vals_kept h (get_gradient depth self h).2) /\
  (forall depth self variables,
     vals_kept h (_AutoDiffR depth self variables h).2) /\
  (forall depth fs val_list,
     (forall f variables h0,
        f ∈ members fs -> vals_kept h0 (call f variables h0).2) ->
     vals_kept h (AutoDiffR depth fs val_list h).2) /\
  (forall v,
     (__init__ v h).2 = h \/
     exists x, (__init__ v h).2 = h ++ [mkNode x [] None]) /\
  (forall op self other,
     method_effect self other h (apply_binop op self other h).2) /\
  (forall self, method_effect self (VNum (-1)) h (__neg__ self h).2) /\
  (forall depth self,
     same_graph h (get_gradient depth self h).2 /\
     ders_kept h (get_gradient depth self h).2) /\
  (forall depth self variables,
     same_graph h (_AutoDiffR depth self variables h).2 /\
     evolves h (_AutoDiffR depth self variables h).2) /\
  (forall depth fs val_list,
     (forall f variables h0,
        f ∈ members fs -> evolves h0 (call f variables h0).2) ->
     evolves h (AutoDiffR depth fs val_list h).2).
Proof.
  split; [|split; [|split; [|split; [|split; [|split]]]]].
  - intros v. apply grows_vals_kept, init_grows.
  - intros op self other. apply grows_vals_kept, op_effect_grows, binop_effect.
  - intros self. apply grows_vals_kept, op_effect_grows, (binop_effect Mul).
  - intros depth self.
    apply grows_vals_kept, same_graph_grows, get_gradient_same_graph.
  - intros depth self variables. apply AutoDiffR_seed_vals_kept.
  - intros depth fs val_list Hf.
    apply (AutoDiffR_preserves vals_kept vals_kept_refl vals_kept_trans).
    + intros v. apply (preserves_weaken grows);
        [apply grows_vals_kept|apply init_grows].
    + apply AutoDiffR_seed_vals_kept.
    + intros f variables Hin h0. by apply Hf.
  - split; [|split; [|split; [|split; [|split]]]].
    + intros v. apply init_effect.
    + intros op self other. apply binop_method_effect.
    + intros self. apply (binop_method_effect Mul).
    + intros depth self. split;
        [apply get_gradient_same_graph|apply get_gradient_ders_kept].
    + intros depth self variables. split;
        [apply AutoDiffR_seed_same_graph|apply AutoDiffR_seed_evolves].
    + intros depth fs val_list Hf.
      apply (AutoDiffR_preserves evolves evolves_refl evolves_trans).
      * apply init_evolves.
      * apply AutoDiffR_seed_evolves.
      * intros f variables Hin h0. by apply Hf.
Qed.

Lemma val_is_immutable_witness :
  vals_kept [mkNode 3 [] None]
    (AutoDiffR 1 (FOne f_identity) (VList [VNum 4]) [mkNode 3 [] None]).2 /\
  evolves [mkNode 3 [] None]
    (AutoDiffR 1 (FOne f_identity) (VList [VNum 4]) [mkNode 3 [] None]).2.
Proof.
  destruct (val_is_immutable [mkNode 3 [] None])
    as (_ & _ & _ & _ & _ & Hv & _ & _ & _ & _ & _ & He).
  split.
  - apply Hv. intros f variables h0 ->%list_elem_of_singleton.
    destruct variables as [|x [|y l]]; apply vals_kept_refl.
  - apply He. intros f variables h0 ->%list_elem_of_singleton.
    destruct variables as [|x [|y l]]; apply evolves_refl.
Defined.

(** C10.  The constructor raises [TypeError] on a value that is not a
    number, leaving the store as it is, and on a number it always returns:
    the new node is the last of the store and has that value, no edge and no
    gradient. *)
Theorem node_init_spec (v : pyval) (h : heap) :
  (is_number v = false -> __init__ v h = (Raise (TypeError None), h)) /\
  (forall x, v = VNum x ->
     __init__ v h = (Ok (length h), h ++ [mkNode x [] None])).
Proof.
  split.
  - destruct v; simpl; intros; try discriminate; reflexivity.
  - intros x ->. reflexivity.
Qed.

Lemma node_init_spec_witness :
  __init__ VOther [] = (Raise (TypeError None), []) /\
  __init__ (VNum 7) [] = (Ok 0%nat, [mkNode 7 [] None]).
Proof.
  split.
  - exact (proj1 (node_init_spec VOther []) eq_refl).
  - exact (proj2 (node_init_spec (VNum 7) []) 7 eq_refl).
Defined.

(** * Beyond the claims *)

(** ** The adjoints of a store *)

Lemma fold_left_Rplus_acc (l : list R) (a : R) :
  fold_left Rplus l a = a + fold_left Rplus l 0.
Proof.
  revert a. induction l as [|x l IH]; intros a; cbn [fold_left].
  - ring.
  - rewrite (IH (a + x)), (IH (0 + x)). ring.
Qed.

Lemma py_sum_nil : py_sum [] = 0.
Proof. reflexivity. Qed.

Lemma py_sum_cons (x : R) (l : list R) : py_sum (x :: l) = x + py_sum l.
Proof.
  unfold py_sum. cbn [fold_left]. rewrite fold_left_Rplus_acc. ring.
Qed.

Lemma py_sum_app (l1 l2 : list R) : py_sum (l1 ++ l2) = py_sum l1 + py_sum l2.
Proof.
  induction l1 as [|x l1 IH]; cbn [app].
  - rewrite py_sum_nil. ring.
  - rewrite !py_sum_cons, IH. ring.
Qed.

Lemma py_sum_map_ext {A} (f g : A -> R) (l : list A) :
  (forall x, x ∈ l -> f x = g x) -> py_sum (map f l) = py_sum (map g l).
Proof.
  induction l as [|x l IH]; intros H; cbn [map]; [reflexivity|].
  rewrite !py_sum_cons, IH, (H x).
  - reflexivity.
  - by left.
  - intros y Hy. apply H. by right.
Qed.

Lemma backprop_linear (fuel : nat) (h : heap) (s1 s2 : nat -> R) (c : R)
  (i : nat) :
  backprop fuel h (fun j => s1 j + c * s2 j) i
  = backprop fuel h s1 i + c * backprop fuel h s2 i.
Proof.
  revert i. induction fuel as [|fuel IH]; intros i; cbn [backprop]; [ring|].
  destruct (h !! i) as [n|]; [|ring].
  induction (children n) as [|e es IHes]; cbn [map].
  - rewrite !py_sum_nil. ring.
  - rewrite !py_sum_cons, IH.
    assert (E : forall a b x y z : R,
               a + b = x + c * y -> a + (z + b) - z = x + c * y) by (intros; lra).
    lra.
Qed.

Lemma backprop_ext (fuel : nat) (h : heap) (s1 s2 : nat -> R) (i : nat) :
  (forall j, (j < length h)%nat -> s1 j = s2 j) ->
  backprop fuel h s1 i = backprop fuel h s2 i.
Proof.
  intros Hs. revert i.
  induction fuel as [|fuel IH]; intros i; cbn [backprop]; [reflexivity|].
  destruct (h !! i) as [n|] eqn:Hn; [|reflexivity].
  rewrite (Hs i) by (by eapply lookup_lt_Some). f_equal.
  apply py_sum_map_ext. intros e _. by rewrite IH.
Qed.

Lemma backprop_zero (fuel : nat) (h : heap) (i : nat) :
  backprop fuel h (fun _ => 0) i = 0.
Proof.
  revert i. induction fuel as [|fuel IH]; intros i; cbn [backprop];
    [reflexivity|].
  destruct (h !! i) as [n|]; [|reflexivity].
  induction (children n) as [|e es IHes]; cbn [map].
  - rewrite py_sum_nil. ring.
  - rewrite py_sum_cons, IH. lra.
Qed.

(** With forward edges, the adjoint of a node does not depend on the fuel
    once it covers the nodes created after it. *)
Lemma backprop_fuel (base : nat) (h : heap) (s : nat -> R) :
  forward_from base h ->
  forall f1 f2 i,
    (base <= i)%nat -> (length h - i <= f1)%nat -> (length h - i <= f2)%nat ->
    backprop f1 h s i = backprop f2 h s i.
Proof.
  intros F. induction f1 as [|f1 IH]; intros f2 i Hb H1 H2.
  - destruct f2 as [|f2]; [reflexivity|]. cbn [backprop].
    rewrite (lookup_ge_None_2 h i) by lia. reflexivity.
  - destruct f2 as [|f2]; cbn [backprop].
    + rewrite (lookup_ge_None_2 h i) by lia. reflexivity.
    + destruct (h !! i) as [n|] eqn:Hn; [|reflexivity]. f_equal.
      apply py_sum_map_ext. intros e He.
      pose proof (F i n e Hb Hn He). rewrite (IH f2 e.1) by lia. reflexivity.
Qed.

Lemma adjoint_unfold (base : nat) (h : heap) (s : nat -> R) (i : nat)
  (n : Node) :
  forward_from base h -> (base <= i)%nat -> h !! i = Some n ->
  adjoint h s i
  = s i + py_sum (map (fun e : ref * R => adjoint h s e.1 * e.2) (children n)).
Proof.
  intros F Hb Hn. unfold adjoint.
  pose proof (lookup_lt_Some _ _ _ Hn) as Hlt.
  destruct (length h) as [|L] eqn:HL; [lia|].
  cbn [backprop]. rewrite Hn. f_equal.
  apply py_sum_map_ext. intros e He.
  pose proof (F i n e Hb Hn He).
  rewrite (backprop_fuel base h s F L (S L) e.1) by lia. reflexivity.
Qed.

(** A new node without edges changes no adjoint. *)
Lemma adjoint_alloc (base : nat) (h : heap) (n : Node) (s : nat -> R)
  (i : nat) :
  forward_from base h -> (base <= i < length h)%nat ->
  adjoint (h ++ [n]) s i = adjoint h s i.
Proof.
  intros F Hi. unfold adjoint. rewrite length_app. cbn [length].
  rewrite (backprop_fuel base h s F (length h) (length h + 1) i) by lia.
  generalize (length h + 1)%nat as fuel. intros fuel. revert i Hi.
  induction fuel as [|fuel IH]; intros i Hi; cbn [backprop]; [reflexivity|].
  rewrite lookup_app_l by lia.
  destruct (h !! i) as [m|] eqn:Hm; [|reflexivity]. f_equal.
  apply py_sum_map_ext. intros e He.
  pose proof (F i m e (proj1 Hi) Hm He). rewrite IH by lia. reflexivity.
Qed.

Lemma lookup_add_edge_eq (a : ref) (e : ref * R) (h : heap) (n : Node) :
  h !! a = Some n ->
  add_edge a e h !! a = Some (mkNode (val n) (children n ++ [e]) (der n)).
Proof.
  intros Hn. unfold add_edge. by rewrite list_lookup_alter_eq, Hn.
Qed.

Lemma lookup_add_edge_ne (a : ref) (e : ref * R) (h : heap) (i : nat) :
  a <> i -> add_edge a e h !! i = h !! i.
Proof. intros Hne. unfold add_edge. by rewrite list_lookup_alter_ne. Qed.

(** An edge from [a] to a later node [m] without edges adds to the seed of
    [a] the seed of [m] times the weight. *)
Lemma backprop_add_edge (base : nat) (h : heap) (a m : ref) (w : R)
  (nm : Node) (s : nat -> R) :
  forward_from base h ->
  h !! m = Some nm -> children nm = [] -> (base <= a < m)%nat ->
  forall fuel i,
    (base <= i)%nat -> (length h - i <= fuel)%nat ->
    backprop fuel (add_edge a (m, w) h) s i
    = backprop fuel h (fun j => s j + (s m * w) * unit_seed a j) i.
Proof.
  intros F Hm Hc Ha. pose proof (lookup_lt_Some _ _ _ Hm) as Hlt.
  induction fuel as [|fuel IH]; intros i Hb Hf; [reflexivity|].
  cbn [backprop]. destruct (decide (a = i)) as [<-|Hne].
  - destruct (lookup_lt_is_Some_2 h a) as [na Hna]; [lia|].
    rewrite (lookup_add_edge_eq _ _ _ _ Hna), Hna. cbn [children].
    rewrite map_app, py_sum_app. cbn [map fst snd].
    rewrite py_sum_cons, py_sum_nil.
    unfold unit_seed at 1. rewrite Nat.eqb_refl.
    assert (Em : backprop fuel (add_edge a (m, w) h) s m = s m).
    { destruct fuel as [|fuel']; [lia|]. cbn [backprop].
      rewrite lookup_add_edge_ne, Hm, Hc by lia. cbn [map].
      rewrite py_sum_nil. ring. }
    rewrite Em.
    rewrite (py_sum_map_ext
               (fun e : ref * R => backprop fuel (add_edge a (m, w) h) s e.1 * e.2)
               (fun e : ref * R =>
                  backprop fuel h (fun j => s j + s m * w * unit_seed a j) e.1
                  * e.2)).
    + ring.
    + intros e He. pose proof (F a na e (proj1 Ha) Hna He).
      rewrite IH by lia. reflexivity.
  - rewrite lookup_add_edge_ne by done.
    destruct (h !! i) as [n|] eqn:Hn; [|reflexivity].
    unfold unit_seed at 1.
    destruct (Nat.eqb_spec i a) as [->|_]; [done|].
    rewrite (py_sum_map_ext
               (fun e : ref * R => backprop fuel (add_edge a (m, w) h) s e.1 * e.2)
               (fun e : ref * R =>
                  backprop fuel h (fun j => s j + s m * w * unit_seed a j) e.1
                  * e.2)).
    + ring.
    + intros e He. pose proof (F i n e Hb Hn He).
      rewrite IH by lia. reflexivity.
Qed.

Lemma adjoint_add_edge (base : nat) (h : heap) (a m : ref) (w : R)
  (nm : Node) (s : nat -> R) (i : nat) :
  forward_from base h ->
  h !! m = Some nm -> children nm = [] -> (base <= a < m)%nat ->
  (base <= i)%nat ->
  adjoint (add_edge a (m, w) h) s i
  = adjoint h s i + (s m * w) * adjoint h (unit_seed a) i.
Proof.
  intros F Hm Hc Ha Hi. unfold adjoint. rewrite length_add_edge.
  rewrite (backprop_add_edge base h a m w nm s F Hm Hc Ha) by lia.
  apply backprop_linear.
Qed.

Lemma forward_from_alloc (base : nat) (h : heap) (v : R) :
  forward_from base h -> forward_from base (h ++ [mkNode v [] None]).
Proof.
  intros F i n e Hb [Hn|[-> ->]]%lookup_snoc_inv He.
  - specialize (F i n e Hb Hn He). rewrite length_app. cbn [length]. lia.
  - by apply elem_of_nil in He.
Qed.

Lemma forward_from_add_edge (base : nat) (h : heap) (a m : ref) (w : R) :
  forward_from base h -> (a < m < length h)%nat ->
  forward_from base (add_edge a (m, w) h).
Proof.
  intros F Ha i n e Hb Hn He. rewrite length_add_edge.
  apply lookup_add_edge in Hn as (n0 & Hn0 & _ & Hc).
  destruct (Hc e He) as [He0|[-> ->]]; [by apply (F i n0 e)|cbn; lia].
Qed.

(** ** The methods on a store, in full *)

Ltac method_run :=
  repeat first
    [ rewrite bind_assoc
    | rewrite bind_ret
    | rewrite bind_lift
    | progress cbn [__init__ real_of]
    | rewrite bind_alloc
    | rewrite bind_append_child
        by (rewrite ?length_add_edge, ?length_app; cbn [length]; lia) ].

Section Methods.
Variables (h : heap) (a b : ref) (na nb : Node).
Hypothesis Ha : h !! a = Some na.
Hypothesis Hb : h !! b = Some nb.

Lemma add_node_num (c : R) :
  __add__ a (VNum c) h = (Ok (length h), link1 h (val na + c) a 1).
Proof.
  pose proof (lookup_lt_Some _ _ _ Ha).
  unfold __add__. rewrite bind_load, Ha. method_run. reflexivity.
Qed.

Lemma add_node_node :
  __add__ a (VNode b) h
  = (Ok (length h), link2 h (val na + val nb) a 1 b 1).
Proof.
  pose proof (lookup_lt_Some _ _ _ Ha). pose proof (lookup_lt_Some _ _ _ Hb).
  unfold __add__. rewrite bind_load, Ha, bind_load, Hb. method_run.
  reflexivity.
Qed.

Lemma sub_node_num (c : R) :
  __sub__ a (VNum c) h = (Ok (length h), link1 h (val na - c) a 1).
Proof.
  pose proof (lookup_lt_Some _ _ _ Ha).
  unfold __sub__. rewrite bind_load, Ha. method_run. reflexivity.
Qed.

Lemma sub_node_node :
  __sub__ a (VNode b) h
  = (Ok (length h), link2 h (val na - val nb) a 1 b (-1)).
Proof.
  pose proof (lookup_lt_Some _ _ _ Ha). pose proof (lookup_lt_Some _ _ _ Hb).
  unfold __sub__. rewrite bind_load, Ha, bind_load, Hb. method_run.
  reflexivity.
Qed.

Lemma rsub_node_num (c : R) :
  __rsub__ a (VNum c) h = (Ok (length h), link1 h (c - val na) a (-1)).
Proof.
  pose proof (lookup_lt_Some _ _ _ Ha).
  unfold __rsub__. rewrite bind_load, Ha. method_run. reflexivity.
Qed.

Lemma mul_node_num (c : R) :
  __mul__ a (VNum c) h = (Ok (length h), link1 h (val na * c) a c).
Proof.
  pose proof (lookup_lt_Some _ _ _ Ha).
  unfold __mul__. rewrite bind_load, Ha. method_run. reflexivity.
Qed.

Lemma mul_node_node :
  __mul__ a (VNode b) h
  = (Ok (length h), link2 h (val na * val nb) a (val nb) b (val na)).
Proof.
  pose proof (lookup_lt_Some _ _ _ Ha). pose proof (lookup_lt_Some _ _ _ Hb).
  unfold __mul__. rewrite bind_load, Ha, bind_load, Hb. method_run.
  reflexivity.
Qed.

Lemma truediv_node_num (c : R) :
  c <> 0 ->
  __truediv__ a (VNum c) h
  = (Ok (length h), link1 h (val na / c) a (1 / c)).
Proof.
  intros Hc. pose proof (lookup_lt_Some _ _ _ Ha).
  unfold __truediv__. rewrite bind_load, Ha.
  rewrite bind_lift, py_truediv_ok by assumption. method_run.
  rewrite py_truediv_ok by assumption. method_run. reflexivity.
Qed.

Lemma truediv_node_node :
  val nb <> 0 ->
  __truediv__ a (VNode b) h
  = (Ok (length h),
     link2 h (val na / val nb) a (1 / val nb)
           b (- val na / (val nb * val nb))).
Proof.
  intros Hc. pose proof (lookup_lt_Some _ _ _ Ha).
  pose proof (lookup_lt_Some _ _ _ Hb).
  unfold __truediv__. rewrite bind_load, Ha, bind_load, Hb.
  rewrite bind_lift, py_truediv_ok by assumption. method_run.
  rewrite py_truediv_ok by assumption. method_run.
  rewrite py_pow_2 by assumption. method_run.
  rewrite py_truediv_ok by nra. method_run. reflexivity.
Qed.

Lemma rtruediv_node_num (c : R) :
  val na <> 0 ->
  __rtruediv__ a (VNum c) h
  = (Ok (length h), link1 h (c / val na) a (- c / (val na * val na))).
Proof.
  intros Hc. pose proof (lookup_lt_Some _ _ _ Ha).
  unfold __rtruediv__. rewrite bind_load, Ha.
  rewrite bind_lift, py_truediv_ok by assumption. method_run.
  rewrite py_pow_2 by assumption. method_run.
  rewrite py_truediv_ok by nra. method_run. reflexivity.
Qed.

Lemma pow_node_num (c : R) :
  0 < val na ->
  __pow__ a (VNum c) h
  = (Ok (length h),
     link1 h (Rpower (val na) c) a (c * Rpower (val na) (c - 1))).
Proof.
  intros Hpos. pose proof (lookup_lt_Some _ _ _ Ha).
  unfold __pow__. rewrite bind_load, Ha.
  rewrite bind_lift, py_pow_pos by assumption. method_run.
  rewrite py_pow_pos by assumption. method_run. reflexivity.
Qed.

Lemma rpow_node_num (c : R) :
  0 < c ->
  __rpow__ a (VNum c) h
  = (Ok (length h),
     link1 h (Rpower c (val na)) a (Rpower c (val na) * ln c)).
Proof.
  intros Hpos. pose proof (lookup_lt_Some _ _ _ Ha).
  unfold __rpow__. rewrite bind_load, Ha.
  rewrite bind_lift, py_pow_pos by assumption. method_run.
  rewrite math_log_pos by assumption. method_run. reflexivity.
Qed.

(** The method of an operator, by the table of its value and weights. *)
Lemma method_node_num (o : arith) (c : R) :
  arith_ok o (val na) c ->
  apply_binop (method o) a (VNum c) h
  = (Ok (length h),
     link1 h (arith_fun o (val na) c) a (arith_dl o (val na) c)).
Proof.
  destruct o; cbn [arith_ok method apply_binop arith_fun arith_dl]; intros Hok.
  - apply add_node_num.
  - apply sub_node_num.
  - apply mul_node_num.
  - by apply truediv_node_num.
  - by apply pow_node_num.
Qed.

Lemma reflected_node_num (o : arith) (c : R) :
  arith_ok o c (val na) ->
  apply_binop (reflected o) a (VNum c) h
  = (Ok (length h),
     link1 h (arith_fun o c (val na)) a (arith_dr o c (val na))).
Proof.
  destruct o; cbn [arith_ok reflected apply_binop arith_fun arith_dr];
    intros Hok.
  - unfold __radd__. rewrite add_node_num. by rewrite (Rplus_comm c).
  - apply rsub_node_num.
  - unfold __rmul__. rewrite mul_node_num. by rewrite (Rmult_comm c).
  - by apply rtruediv_node_num.
  - by apply rpow_node_num.
Qed.

Lemma method_node_node (o : arith) :
  o <> Power -> arith_ok o (val na) (val nb) ->
  apply_binop (method o) a (VNode b) h
  = (Ok (length h),
     link2 h (arith_fun o (val na) (val nb)) a (arith_dl o (val na) (val nb))
           b (arith_dr o (val na) (val nb))).
Proof.
  destruct o; cbn [arith_ok method apply_binop arith_fun arith_dl arith_dr];
    intros Hne Hok; try done.
  - apply add_node_node.
  - apply sub_node_node.
  - apply mul_node_node.
  - by apply truediv_node_node.
Qed.

Lemma neg_node :
  __neg__ a h = (Ok (length h), link1 h (val na * -1) a (-1)).
Proof. unfold __neg__. apply mul_node_num. Qed.

End Methods.

(** ** The derivatives a store propagates *)

Lemma tangent_outside (base k : nat) (h : heap) (j : nat) :
  (length h <= j)%nat -> tangent base k h j = 0.
Proof.
  intros Hj. unfold tangent, adjoint.
  rewrite (backprop_ext _ h (unit_seed j) (fun _ => 0)).
  - apply backprop_zero.
  - intros i Hi. unfold unit_seed.
    destruct (Nat.eqb_spec i j); [lia|reflexivity].
Qed.

Lemma tangent_link1 (base k : nat) (h : heap) (v : R) (a : ref) (w : R)
  (j : nat) :
  forward_from base h -> (base + k < length h)%nat ->
  (base <= a < length h)%nat ->
  tangent base k (link1 h v a w) j
  = tangent base k h j + unit_seed j (length h) * w * tangent base k h a.
Proof.
  intros F Hk Ha. unfold tangent, link1.
  rewrite (adjoint_add_edge base (h ++ [mkNode v [] None]) a (length h) w
             (mkNode v [] None)).
  - rewrite !(adjoint_alloc base h) by (done || lia). reflexivity.
  - by apply forward_from_alloc.
  - rewrite lookup_app_r by lia. by rewrite Nat.sub_diag.
  - reflexivity.
  - lia.
  - lia.
Qed.

Lemma forward_from_link1 (base : nat) (h : heap) (v : R) (a : ref) (w : R) :
  forward_from base h -> (a < length h)%nat ->
  forward_from base (link1 h v a w).
Proof.
  intros F Ha. apply forward_from_add_edge.
  - by apply forward_from_alloc.
  - rewrite length_app. cbn [length]. lia.
Qed.

Lemma length_link1 (h : heap) (v : R) (a : ref) (w : R) :
  length (link1 h v a w) = S (length h).
Proof.
  unfold link1. rewrite length_add_edge, length_app. cbn [length]. lia.
Qed.

Lemma length_link2 (h : heap) (v : R) (a : ref) (wa : R) (b : ref) (wb : R) :
  length (link2 h v a wa b wb) = S (length h).
Proof. unfold link2. by rewrite length_add_edge, length_link1. Qed.

Lemma lookup_link1_new (h : heap) (v : R) (a : ref) (w : R) :
  (a < length h)%nat ->
  link1 h v a w !! length h = Some (mkNode v [] None).
Proof.
  intros Ha. unfold link1. rewrite lookup_add_edge_ne by lia.
  rewrite lookup_app_r by lia. by rewrite Nat.sub_diag.
Qed.

Lemma lookup_link2_new (h : heap) (v : R) (a : ref) (wa : R) (b : ref)
  (wb : R) :
  (a < length h)%nat -> (b < length h)%nat ->
  link2 h v a wa b wb !! length h = Some (mkNode v [] None).
Proof.
  intros Ha Hb. unfold link2. rewrite lookup_add_edge_ne by lia.
  by apply lookup_link1_new.
Qed.

(** A node that was in the store is still there, with its value and its
    gradient. *)
Lemma lookup_link1_old (h : heap) (v : R) (a : ref) (w : R) (i : nat)
  (n : Node) :
  h !! i = Some n ->
  exists n', link1 h v a w !! i = Some n' /\ val n' = val n /\ der n' = der n.
Proof.
  intros Hn. unfold link1, add_edge.
  destruct (decide (a = i)) as [->|Hne].
  - rewrite list_lookup_alter_eq, (lookup_app_l_Some _ _ _ _ Hn).
    eexists. split; [reflexivity|]. by split.
  - rewrite list_lookup_alter_ne, (lookup_app_l_Some _ _ _ _ Hn) by done.
    by exists n.
Qed.

Lemma lookup_link2_old (h : heap) (v : R) (a : ref) (wa : R) (b : ref)
  (wb : R) (i : nat) (n : Node) :
  h !! i = Some n ->
  exists n', link2 h v a wa b wb !! i = Some n' /\ val n' = val n /\
             der n' = der n.
Proof.
  intros Hn. destruct (lookup_link1_old h v a wa i n Hn) as (n1 & H1 & V1 & D1).
  unfold link2, add_edge. destruct (decide (b = i)) as [->|Hne].
  - rewrite list_lookup_alter_eq, H1. eexists. split; [reflexivity|].
    by split.
  - rewrite list_lookup_alter_ne by done. by exists n1.
Qed.

Lemma tangent_link2 (base k : nat) (h : heap) (v : R) (a : ref) (wa : R)
  (b : ref) (wb : R) (j : nat) :
  forward_from base h -> (base + k < length h)%nat ->
  (base <= a < length h)%nat -> (base <= b < length h)%nat ->
  tangent base k (link2 h v a wa b wb) j
  = tangent base k h j
    + unit_seed j (length h)
      * (wa * tangent base k h a + wb * tangent base k h b).
Proof.
  intros F Hk Ha Hb. unfold tangent at 1. unfold link2.
  rewrite (adjoint_add_edge base (link1 h v a wa) b (length h) wb
             (mkNode v [] None)).
  - fold (tangent base k (link1 h v a wa) j).
    fold (tangent base k (link1 h v a wa) b).
    rewrite !tangent_link1 by (done || lia).
    assert (E : unit_seed b (length h) = 0).
    { unfold unit_seed. destruct (Nat.eqb_spec (length h) b); [lia|done]. }
    rewrite E. ring.
  - apply forward_from_link1; [done|lia].
  - apply lookup_link1_new. lia.
  - reflexivity.
  - lia.
  - lia.
Qed.

Lemma tape_link1 (base : nat) (pt : list R) (h : heap) (v : R) (a : ref)
  (w : R) :
  tape base pt h -> (base <= a < length h)%nat ->
  tape base pt (link1 h v a w).
Proof.
  intros (F & Hd & Hin & Ht) Ha. split; [|split; [|split]].
  - apply forward_from_link1; [done|lia].
  - intros i n Hb Hn.
    destruct (decide (i = length h)) as [->|Hne].
    + rewrite lookup_link1_new in Hn by lia. by simplify_eq.
    + assert (Hi : (i < length h)%nat).
      { apply lookup_lt_Some in Hn. rewrite length_link1 in Hn. lia. }
      destruct (lookup_lt_is_Some_2 h i Hi) as [n0 Hn0].
      destruct (lookup_link1_old h v a w i n0 Hn0) as (n' & Hn' & _ & D).
      simplify_eq. rewrite D. by apply (Hd i).
  - intros k x Hk. destruct (Hin k x Hk) as (n & Hn & Hv).
    destruct (lookup_link1_old h v a w _ n Hn) as (n' & Hn' & V & _).
    exists n'. split; [done|congruence].
  - intros j k Hj Hk.
    destruct (lookup_lt_is_Some_2 pt k Hk) as [xk Hxk].
    destruct (Hin k xk Hxk) as (nk & Hnk%lookup_lt_Some & _).
    destruct (lookup_lt_is_Some_2 pt j Hj) as [xj Hxj].
    destruct (Hin j xj Hxj) as (nj & Hnj%lookup_lt_Some & _).
    rewrite tangent_link1 by (done || lia).
    assert (E : unit_seed (base + j) (length h) = 0).
    { unfold unit_seed.
      destruct (Nat.eqb_spec (length h) (base + j)); [lia|done]. }
    rewrite E, Ht by done. ring.
Qed.

Lemma tape_link2 (base : nat) (pt : list R) (h : heap) (v : R) (a : ref)
  (wa : R) (b : ref) (wb : R) :
  tape base pt h -> (base <= a < length h)%nat ->
  (base <= b < length h)%nat ->
  tape base pt (link2 h v a wa b wb).
Proof.
  intros (F & Hd & Hin & Ht) Ha Hb. split; [|split; [|split]].
  - unfold link2. apply forward_from_add_edge.
    + apply forward_from_link1; [done|lia].
    + rewrite length_link1. lia.
  - intros i n Hbi Hn.
    destruct (decide (i = length h)) as [->|Hne].
    + rewrite lookup_link2_new in Hn by lia. by simplify_eq.
    + assert (Hi : (i < length h)%nat).
      { apply lookup_lt_Some in Hn. rewrite length_link2 in Hn. lia. }
      destruct (lookup_lt_is_Some_2 h i Hi) as [n0 Hn0].
      destruct (lookup_link2_old h v a wa b wb i n0 Hn0)
        as (n' & Hn' & _ & D).
      simplify_eq. rewrite D. by apply (Hd i).
  - intros k x Hk. destruct (Hin k x Hk) as (n & Hn & Hv).
    destruct (lookup_link2_old h v a wa b wb _ n Hn) as (n' & Hn' & V & _).
    exists n'. split; [done|congruence].
  - intros j k Hj Hk.
    destruct (lookup_lt_is_Some_2 pt k Hk) as [xk Hxk].
    destruct (Hin k xk Hxk) as (nk & Hnk%lookup_lt_Some & _).
    destruct (lookup_lt_is_Some_2 pt j Hj) as [xj Hxj].
    destruct (Hin j xj Hxj) as (nj & Hnj%lookup_lt_Some & _).
    rewrite tangent_link2 by (done || lia).
    assert (E : unit_seed (base + j) (length h) = 0).
    { unfold unit_seed.
      destruct (Nat.eqb_spec (length h) (base + j)); [lia|done]. }
    rewrite E, Ht by done. ring.
Qed.

(** ** The evaluation of an expression on nodes *)

Lemma extends_refl (base : nat) (pt : list R) (h : heap) :
  extends base pt h h.
Proof. split; [done|]. split; [|done]. intros i n Hn. by exists n. Qed.

Lemma extends_trans (base : nat) (pt : list R) (h1 h2 h3 : heap) :
  extends base pt h1 h2 -> extends base pt h2 h3 -> extends base pt h1 h3.
Proof.
  intros (L1 & V1 & T1) (L2 & V2 & T2). split; [lia|]. split.
  - intros i n Hn. destruct (V1 i n Hn) as (n2 & Hn2 & Hv2).
    destruct (V2 i n2 Hn2) as (n3 & Hn3 & Hv3). exists n3.
    split; [done|congruence].
  - intros k j Hk Hj. rewrite T2, T1 by lia. reflexivity.
Qed.

Lemma tape_param_lt (base : nat) (pt : list R) (h : heap) (k : nat) :
  tape base pt h -> (k < length pt)%nat -> (base + k < length h)%nat.
Proof.
  intros (_ & _ & Hin & _) Hk.
  destruct (lookup_lt_is_Some_2 pt k Hk) as [x Hx].
  destruct (Hin k x Hx) as (n & Hn & _). by eapply lookup_lt_Some.
Qed.

Lemma unit_seed_lt (j m : nat) : (j < m)%nat -> unit_seed j m = 0.
Proof.
  intros H. unfold unit_seed. destruct (Nat.eqb_spec m j); [lia|done].
Qed.

Lemma unit_seed_same (j : nat) : unit_seed j j = 1.
Proof. unfold unit_seed. by rewrite Nat.eqb_refl. Qed.

Lemma extends_link1 (base : nat) (pt : list R) (h : heap) (v : R) (a : ref)
  (w : R) :
  tape base pt h -> (base <= a < length h)%nat ->
  extends base pt h (link1 h v a w).
Proof.
  intros T Ha. split; [rewrite length_link1; lia|]. split.
  - intros i n Hn.
    destruct (lookup_link1_old h v a w i n Hn) as (n' & Hn' & V & _).
    by exists n'.
  - intros k j Hk Hj. pose proof (tape_param_lt _ _ _ _ T Hk).
    rewrite tangent_link1 by (apply T || lia).
    rewrite unit_seed_lt by done. ring.
Qed.

Lemma extends_link2 (base : nat) (pt : list R) (h : heap) (v : R) (a : ref)
  (wa : R) (b : ref) (wb : R) :
  tape base pt h -> (base <= a < length h)%nat ->
  (base <= b < length h)%nat ->
  extends base pt h (link2 h v a wa b wb).
Proof.
  intros T Ha Hb. split; [rewrite length_link2; lia|]. split.
  - intros i n Hn.
    destruct (lookup_link2_old h v a wa b wb i n Hn) as (n' & Hn' & V & _).
    by exists n'.
  - intros k j Hk Hj. pose proof (tape_param_lt _ _ _ _ T Hk).
    rewrite tangent_link2 by (apply T || lia).
    rewrite unit_seed_lt by done. ring.
Qed.

Lemma node_result_extends (base : nat) (pt : list R) (e : expr)
  (h h' : heap) (r : ref) :
  extends base pt h h' -> node_result base pt e h r ->
  node_result base pt e h' r.
Proof.
  intros (L & V & T) (Hb & n & Hn & Hv & Ht). split; [lia|].
  destruct (V r n Hn) as (n' & Hn' & Hv'). exists n'.
  split; [done|]. split; [congruence|].
  intros k Hk. rewrite T by (done || lia). by apply Ht.
Qed.

(** The node a method built stands for the expression, when the value and
    the weights are those of the expression. *)
Lemma node_result_link1 (base : nat) (pt : list R) (e : expr) (h : heap)
  (v : R) (a : ref) (w : R) (d : nat -> R) :
  tape base pt h -> (base <= a < length h)%nat ->
  v = eval pt e ->
  (forall k, (k < length pt)%nat -> tangent base k h a = d k) ->
  (forall k, (k < length pt)%nat -> w * d k = partial pt k e) ->
  node_result base pt e (link1 h v a w) (length h).
Proof.
  intros T Ha Hv Hd Hp. split; [rewrite length_link1; lia|].
  exists (mkNode v [] None). split; [apply lookup_link1_new; lia|].
  split; [done|]. intros k Hk. pose proof (tape_param_lt _ _ _ _ T Hk).
  rewrite tangent_link1 by (apply T || lia).
  rewrite tangent_outside, unit_seed_same, Hd, <- Hp by done. ring.
Qed.

Lemma node_result_link2 (base : nat) (pt : list R) (e : expr) (h : heap)
  (v : R) (a : ref) (wa : R) (b : ref) (wb : R) (da db : nat -> R) :
  tape base pt h -> (base <= a < length h)%nat ->
  (base <= b < length h)%nat ->
  v = eval pt e ->
  (forall k, (k < length pt)%nat -> tangent base k h a = da k) ->
  (forall k, (k < length pt)%nat -> tangent base k h b = db k) ->
  (forall k, (k < length pt)%nat -> wa * da k + wb * db k = partial pt k e) ->
  node_result base pt e (link2 h v a wa b wb) (length h).
Proof.
  intros T Ha Hb Hv Hda Hdb Hp. split; [rewrite length_link2; lia|].
  exists (mkNode v [] None). split; [apply lookup_link2_new; lia|].
  split; [done|]. intros k Hk. pose proof (tape_param_lt _ _ _ _ T Hk).
  rewrite tangent_link2 by (apply T || lia).
  rewrite tangent_outside, unit_seed_same, Hda, Hdb, <- Hp by done. ring.
Qed.

(** One more operation on the node of [a]. *)
Lemma evaluates_link1 (base : nat) (pt : list R) (a e : expr) (h h1 : heap)
  (ra : ref) (v w : R) :
  evaluates base pt a h ra h1 ->
  size e = S (size a) ->
  (forall n, h1 !! ra = Some n -> val n = eval pt a -> v = eval pt e) ->
  (forall k, (k < length pt)%nat -> w * partial pt k a = partial pt k e) ->
  evaluates base pt e h (length h1) (link1 h1 v ra w).
Proof.
  intros (T1 & X1 & S1 & (Hba & na & Hna & Hva & Hta) & _) Hs Hv Hp.
  split; [by apply tape_link1|]. split; [|split; [|split]].
  - eapply extends_trans; [exact X1|]. by apply extends_link1.
  - rewrite length_link1, Hs. lia.
  - apply (node_result_link1 _ _ _ _ _ _ _ (fun k => partial pt k a));
      try done. by apply (Hv na).
  - right. by rewrite length_link1.
Qed.

Lemma bind_ok {A B} (m : M A) (k : A -> M B) (h : heap) (a : A) (h' : heap) :
  m h = (Ok a, h') -> bind m k h = k a h'.
Proof. intros H. unfold bind. by rewrite H. Qed.

Lemma nth_lookup_R (pt : list R) (k : nat) (x : R) :
  pt !! k = Some x -> nth k pt 0 = x.
Proof.
  revert k. induction pt as [|y pt IH]; intros [|k] H; simplify_eq/=;
    [reflexivity|by apply IH].
Qed.

Lemma node_eval_evaluates (base : nat) (pt : list R) (e : expr) :
  smooth pt e -> node_expr e = true ->
  forall h, tape base pt h ->
    exists r h',
      node_eval (seq base (length pt)) e h = (Ok r, h') /\
      evaluates base pt e h r h'.
Proof.
  induction e as [j|o a IHa b IHb|o a IHa c|o c b IHb|a IHa|f a IHa];
    cbn [smooth node_expr]; intros Hdef Hex h T; try discriminate.
  - (* a parameter *)
    cbn [node_eval]. rewrite lookup_seq_lt by done.
    eexists _, _. split; [reflexivity|].
    pose proof (tape_param_lt _ _ _ _ T Hdef).
    split; [done|]. split; [apply extends_refl|]. split; [cbn; lia|].
    split; [|by left]. split; [lia|].
    destruct (lookup_lt_is_Some_2 pt j Hdef) as [x Hx].
    destruct T as (F & Hd & Hin & Ht). destruct (Hin j x Hx) as (n & Hn & Hv).
    exists n. split; [done|]. split.
    + cbn [eval]. by rewrite (nth_lookup_R _ _ _ Hx).
    + intros k Hk. cbn [partial]. by apply Ht.
  - (* a o b *)
    destruct Hdef as (Da & Db & Hok).
    assert (Hne : o <> Power) by (by destruct o).
    assert (Hab : node_expr a = true /\ node_expr b = true).
    { destruct o; try done; by apply andb_prop in Hex. }
    destruct Hab as [Ea Eb].
    destruct (IHa Da Ea h T) as (ra & h1 & Eva & T1 & X1 & S1 & Ra & _).
    destruct (IHb Db Eb h1 T1) as (rb & h2 & Evb & T2 & X2 & S2 & Rb & _).
    apply (node_result_extends _ _ _ _ _ _ X2) in Ra.
    destruct Ra as (Hba & na & Hna & Hva & Hta).
    destruct Rb as (Hbb & nb & Hnb & Hvb & Htb).
    cbn [node_eval].
    rewrite (bind_ok _ _ _ _ _ Eva), (bind_ok _ _ _ _ _ Evb).
    rewrite (method_node_node h2 ra rb na nb Hna Hnb o Hne)
      by (by rewrite Hva, Hvb).
    eexists _, _. split; [reflexivity|].
    split; [by apply tape_link2|]. split; [|split; [|split]].
    + eapply extends_trans; [exact X1|].
      eapply extends_trans; [exact X2|]. by apply extends_link2.
    + rewrite length_link2. cbn [size]. lia.
    + apply (node_result_link2 _ _ _ _ _ _ _ _ _ (fun k => partial pt k a)
               (fun k => partial pt k b)); try done.
      cbn [eval]. by rewrite Hva, Hvb.
      intros k Hk. cbn [partial]. by rewrite Hva, Hvb.
    + right. by rewrite length_link2.
  - (* a o c *)
    destruct Hdef as (Da & Hok).
    destruct (IHa Da Hex h T) as (ra & h1 & Eva & Ev).
    pose proof Ev as (T1 & X1 & S1 & (Hba & na & Hna & Hva & Hta) & _).
    cbn [node_eval]. rewrite (bind_ok _ _ _ _ _ Eva).
    rewrite (method_node_num h1 ra na Hna o c) by (by rewrite Hva).
    eexists _, _. split; [reflexivity|].
    eapply evaluates_link1; [exact Ev|done| |].
    + intros n Hn Hv. simplify_eq. cbn [eval]. by rewrite Hva.
    + intros k Hk. cbn [partial]. by rewrite Hva.
  - (* c o b *)
    destruct Hdef as (Db & Hok).
    destruct (IHb Db Hex h T) as (rb & h1 & Evb & Ev).
    pose proof Ev as (T1 & X1 & S1 & (Hbb & nb & Hnb & Hvb & Htb) & _).
    cbn [node_eval]. rewrite (bind_ok _ _ _ _ _ Evb).
    rewrite (reflected_node_num h1 rb nb Hnb o c) by (by rewrite Hvb).
    eexists _, _. split; [reflexivity|].
    eapply evaluates_link1; [exact Ev|done| |].
    + intros n Hn Hv. simplify_eq. cbn [eval]. by rewrite Hvb.
    + intros k Hk. cbn [partial]. by rewrite Hvb.
  - (* - a *)
    destruct (IHa Hdef Hex h T) as (ra & h1 & Eva & Ev).
    pose proof Ev as (T1 & X1 & S1 & (Hba & na & Hna & Hva & Hta) & _).
    cbn [node_eval]. rewrite (bind_ok _ _ _ _ _ Eva).
    rewrite (neg_node h1 ra na Hna).
    eexists _, _. split; [reflexivity|].
    eapply evaluates_link1; [exact Ev|done| |].
    + intros n Hn Hv. simplify_eq. cbn [eval]. rewrite Hva. ring.
    + intros k Hk. cbn [partial]. ring.
Qed.

(** ** The driver on an expression *)

Lemma list_comp_init_leaves (pt : list R) (h : heap) :
  list_comp __init__ (map VNum pt) h
  = (Ok (seq (length h) (length pt)), h ++ leaves pt).
Proof.
  revert h. induction pt as [|x pt IH]; intros h; cbn [map list_comp].
  - cbn. by rewrite app_nil_r.
  - cbn [__init__]. rewrite bind_alloc, (bind_ok _ _ _ _ _ (IH _)).
    rewrite length_app, <- app_assoc. cbn [length seq leaves map app].
    by rewrite Nat.add_1_r.
Qed.

Lemma lookup_leaves (h : heap) (pt : list R) (i : nat) (n : Node) :
  (length h <= i)%nat -> (h ++ leaves pt) !! i = Some n ->
  exists x, pt !! (i - length h)%nat = Some x /\ n = mkNode x [] None.
Proof.
  intros Hi Hn. rewrite lookup_app_r in Hn by done.
  unfold leaves in Hn. rewrite list_lookup_fmap in Hn.
  destruct (pt !! (i - length h)%nat) as [x|]; simplify_eq/=. by exists x.
Qed.

Lemma tape_leaves (h : heap) (pt : list R) :
  tape (length h) pt (h ++ leaves pt).
Proof.
  assert (F : forward_from (length h) (h ++ leaves pt)).
  { intros i n e Hi Hn He.
    destruct (lookup_leaves h pt i n Hi Hn) as (x & _ & ->).
    by apply elem_of_nil in He. }
  split; [done|]. split; [|split].
  - intros i n Hi Hn.
    by destruct (lookup_leaves h pt i n Hi Hn) as (x & _ & ->).
  - intros k x Hk. exists (mkNode x [] None). split; [|done].
    rewrite lookup_app_r by lia.
    replace (length h + k - length h)%nat with k by lia.
    unfold leaves. by rewrite list_lookup_fmap, Hk.
  - intros j k Hj Hk. unfold tangent.
    destruct (lookup_lt_is_Some_2 pt k Hk) as [x Hx].
    rewrite (adjoint_unfold (length h) _ _ _ (mkNode x [] None) F).
    + cbn [children map]. rewrite py_sum_nil. unfold unit_seed.
      destruct (Nat.eqb_spec (length h + k) (length h + j)),
               (Nat.eqb_spec j k); try lia; ring.
    + lia.
    + rewrite lookup_app_r by lia.
      replace (length h + k - length h)%nat with k by lia.
      unfold leaves. by rewrite list_lookup_fmap, Hx.
Qed.

Lemma get_gradient_adjoint (base : nat) (g : heap) (r : ref) :
  forward_from base g ->
  forall depth h i,
    memoized base g r h ->
    (base <= i < length g)%nat -> (length g - i <= depth)%nat ->
    exists h',
      get_gradient depth i h = (Ok (adjoint g (unit_seed r) i), h') /\
      memoized base g r h'.
Proof.
  intros F. induction depth as [|depth IH]; intros h i Mh Hi Hd; [lia|].
  destruct Mh as (Sg & Hr & Hm).
  destruct (lookup_lt_is_Some_2 g i) as [ng Hng]; [lia|].
  destruct (proj2 Sg i ng Hng) as (n & Hn & Hv & Hc).
  cbn [get_gradient]. rewrite bind_load, Hn.
  destruct (der n) as [d|] eqn:Hdn.
  - destruct (Hm i n (proj1 Hi) Hn) as [?|Hs]; [congruence|].
    exists h. split; [|done]. unfold ret. congruence.
  - assert (Hir : i <> r).
    { intros ->. by apply (Hr n Hn). }
    assert (Hloop : forall cs h1,
               memoized base g r h1 ->
               (forall e, e ∈ cs -> (i < e.1 < length g)%nat) ->
               exists h2,
                 list_comp (fun e : ref * R =>
                              x <- get_gradient depth e.1 ;; ret (x * e.2))
                           cs h1
                 = (Ok (map (fun e : ref * R =>
                               adjoint g (unit_seed r) e.1 * e.2) cs), h2) /\
                 memoized base g r h2).
    { induction cs as [|e cs IHcs]; intros h1 M1 Hcs.
      - by exists h1.
      - pose proof (Hcs e (list_elem_of_here _ _)) as He.
        destruct (IH h1 e.1 M1) as (h2 & Eg & M2); [lia|lia|].
        destruct (IHcs h2 M2) as (h3 & Et & M3).
        { intros e' He'. apply Hcs. by right. }
        exists h3. split; [|done]. cbn [list_comp map].
        rewrite bind_assoc, (bind_ok _ _ _ _ _ Eg), bind_ret.
        by rewrite (bind_ok _ _ _ _ _ Et). }
    destruct (Hloop (children n) h (conj Sg (conj Hr Hm))) as (h2 & Et & M2).
    { intros e He. rewrite Hc in He. by apply (F i ng e (proj1 Hi) Hng). }
    rewrite (bind_ok _ _ _ _ _ Et).
    assert (Ea : py_sum (map (fun e : ref * R =>
                                adjoint g (unit_seed r) e.1 * e.2)
                             (children n))
                 = adjoint g (unit_seed r) i).
    { rewrite (adjoint_unfold base g _ i ng F (proj1 Hi) Hng), Hc.
      unfold unit_seed at 2. destruct (Nat.eqb_spec i r); [done|]. ring. }
    rewrite Ea. destruct M2 as (S2 & Hr2 & Hm2).
    destruct (proj2 S2 i ng Hng) as (n2 & Hn2 & Hv2 & Hc2).
    unfold set_der. rewrite bind_assoc, bind_load, Hn2.
    eexists. split; [reflexivity|]. cbn.
    pose proof (lookup_lt_Some _ _ _ Hn2) as Hlt2.
    split; [|split].
    + split; [rewrite length_insert; apply S2|].
      intros j nj Hnj. destruct (proj2 S2 j nj Hnj) as (n' & Hn' & V & C).
      destruct (decide (i = j)) as [->|Hne].
      * rewrite list_lookup_insert_eq by done. simplify_eq.
        eexists. split; [reflexivity|]. by split.
      * rewrite list_lookup_insert_ne by done. by exists n'.
    + intros n0. rewrite list_lookup_insert_ne by done. apply Hr2.
    + intros j nj Hj. destruct (decide (i = j)) as [->|Hne].
      * rewrite list_lookup_insert_eq by done. intros [= <-]. by right.
      * rewrite list_lookup_insert_ne by done. by apply Hm2.
Qed.

Lemma list_comp_get_gradient_adjoint (base : nat) (g : heap) (r : ref)
  (depth : nat) :
  forward_from base g -> (length g - base <= depth)%nat ->
  forall variables h,
    memoized base g r h ->
    (forall x, x ∈ variables -> (base <= x < length g)%nat) ->
    exists h',
      list_comp (get_gradient depth) variables h
      = (Ok (map (adjoint g (unit_seed r)) variables), h') /\
      memoized base g r h'.
Proof.
  intros F Hd. induction variables as [|x xs IH]; intros h Mh Hx.
  - by exists h.
  - pose proof (Hx x (list_elem_of_here _ _)).
    destruct (get_gradient_adjoint base g r F depth h x Mh) as (h1 & E1 & M1);
      [lia|lia|].
    destruct (IH h1 M1) as (h2 & E2 & M2).
    { intros y Hy. apply Hx. by right. }
    exists h2. split; [|done]. cbn [list_comp map].
    by rewrite (bind_ok _ _ _ _ _ E1), (bind_ok _ _ _ _ _ E2).
Qed.

(** ** The reverse mode computes the partial derivatives *)

Lemma seq_shift_map (base n : nat) :
  seq base n = map (Nat.add base) (seq 0 n).
Proof.
  change (map (Nat.add base) (seq 0 n)) with (Nat.add base <$> seq 0 n).
  by rewrite fmap_add_seq, Nat.add_0_r.
Qed.

Lemma no_member_nil {A} (l : list A) : (forall x, x ∈ l -> False) -> l = [].
Proof.
  destruct l as [|x l]; [done|]. intros H. destruct (H x). by left.
Qed.

(** The node an evaluation returns has no edge yet. *)
Lemma evaluates_sink (h : heap) (pt : list R) (g : heap) (r : ref)
  (n : Node) :
  tape (length h) pt g ->
  (g = h ++ leaves pt \/ S r = length g) -> (length h <= r)%nat ->
  g !! r = Some n -> children n = [].
Proof.
  intros T Hg Hr Hn. destruct Hg as [->|Hlast].
  - by destruct (lookup_leaves h pt r n Hr Hn) as (x & _ & ->).
  - apply no_member_nil. intros c Hc.
    pose proof (proj1 T r n c Hr Hn Hc). lia.
Qed.

(** Seeding the output of an evaluation starts the backward pass. *)
Lemma seed_memoized (base : nat) (pt : list R) (g : heap) (r : ref)
  (n : Node) :
  tape base pt g -> (base <= r)%nat -> g !! r = Some n -> children n = [] ->
  memoized base g r (<[r := mkNode (val n) (children n) (Some 1)]> g).
Proof.
  intros (F & Hd & _) Hr Hn Hc.
  pose proof (lookup_lt_Some _ _ _ Hn) as Hlt.
  split; [|split].
  - split; [by rewrite length_insert|].
    intros j nj Hnj. destruct (decide (r = j)) as [->|Hne].
    + rewrite list_lookup_insert_eq by done. simplify_eq.
      eexists. split; [reflexivity|]. by split.
    + rewrite list_lookup_insert_ne by done. by exists nj.
  - intros n0. rewrite list_lookup_insert_eq by done. by intros [= <-].
  - intros j nj Hj. destruct (decide (r = j)) as [->|Hne].
    + rewrite list_lookup_insert_eq by done. intros [= <-]. right. cbn [der].
      rewrite (adjoint_unfold base g _ j n F Hj Hn), Hc.
      cbn [map]. rewrite py_sum_nil. unfold unit_seed.
      rewrite Nat.eqb_refl. f_equal. ring.
    + rewrite list_lookup_insert_ne by done. intros Hnj. left.
      by apply (Hd j nj).
Qed.

Lemma AutoDiffR1D_node_fun (pt : list R) (e : expr) (depth : nat) (h : heap) :
  smooth pt e -> node_expr e = true ->
  (length pt + size e <= depth)%nat ->
  (AutoDiffR1D depth (node_fun (length pt) e) (VList (map VNum pt)) h).1
  = Ok (map (fun k => partial pt k e) (seq 0 (length pt))).
Proof.
  intros Hdef Hex Hdepth.
  unfold AutoDiffR1D, node_fun. cbn [signature_len py_items].
  rewrite bind_ret, length_map, Nat.eqb_refl. cbv [negb].
  rewrite (bind_ok _ _ _ _ _ (list_comp_init_leaves pt h)). cbn [call].
  destruct (node_eval_evaluates (length h) pt e Hdef Hex (h ++ leaves pt)
              (tape_leaves h pt))
    as (r & g & Ev & T & X & Hlen & (Hr & n & Hn & Hv & Ht) & Hg).
  rewrite bind_assoc, (bind_ok _ _ _ _ _ Ev), bind_ret.
  pose proof (evaluates_sink h pt g r n T Hg (proj1 Hr) Hn) as Hc.
  pose proof (seed_memoized (length h) pt g r n T (proj1 Hr) Hn Hc) as Hm.
  unfold _AutoDiffR, set_der. rewrite bind_assoc, bind_load, Hn.
  unfold store at 1. unfold bind at 1.
  rewrite for_append_list_comp.
  rewrite length_app in Hlen. unfold leaves in Hlen.
  rewrite length_map in Hlen.
  destruct (list_comp_get_gradient_adjoint (length h) g r depth (proj1 T))
    with (variables := seq (length h) (length pt))
         (h := <[r := mkNode (val n) (children n) (Some 1)]> g)
    as (h' & Eg & _); [lia|done| |].
  { intros x Hx. apply elem_of_seq in Hx. lia. }
  rewrite (bind_ok _ _ _ _ _ Eg). cbn.
  f_equal. rewrite seq_shift_map, map_map. apply map_ext_in.
  intros k Hk. apply in_seq in Hk. apply Ht. lia.
Qed.

(** ** The partial derivatives of an expression *)

Lemma derivable_pt_lim_eq (f : R -> R) (x l l' : R) :
  derivable_pt_lim f x l -> l = l' -> derivable_pt_lim f x l'.
Proof. by intros H <-. Qed.

Lemma Rpower_pred (x y : R) : 0 < x -> Rpower x (y - 1) = Rpower x y / x.
Proof.
  intros Hx. unfold Rminus, Rdiv.
  by rewrite Rpower_plus, Rpower_Ropp, Rpower_1.
Qed.

Lemma cosh_pos (x : R) : 0 < cosh x.
Proof.
  unfold cosh. pose proof (exp_pos x). pose proof (exp_pos (- x)). lra.
Qed.

Lemma cosh2_sinh2 (x : R) : cosh x * cosh x - sinh x * sinh x = 1.
Proof.
  unfold cosh, sinh. pose proof (exp_pos x) as Hx.
  rewrite exp_Ropp. field. lra.
Qed.

Lemma elementary_derivable (f : elementary) (y : R) :
  elementary_ok f y ->
  derivable_pt_lim (elementary_fun f) y (elementary_der f y).
Proof.
  destruct f; cbn [elementary_ok elementary_fun elementary_der]; intros Hok.
  - apply derivable_pt_lim_sin.
  - apply derivable_pt_lim_cos.
  - eapply derivable_pt_lim_eq.
    + apply (derivable_pt_lim_div sin cos y (cos y) (- sin y));
        [apply derivable_pt_lim_sin|apply derivable_pt_lim_cos|done].
    + pose proof (sin2_cos2 y) as E. unfold Rsqr in *. field_simplify; [|done|done].
      replace (cos y ^ 2 + sin y ^ 2) with 1 by lra. reflexivity.
  - apply derivable_pt_lim_exp.
  - apply derivable_pt_lim_sinh.
  - apply derivable_pt_lim_cosh.
  - pose proof (cosh_pos y) as Hc. eapply derivable_pt_lim_eq.
    + apply (derivable_pt_lim_div sinh cosh y (cosh y) (sinh y));
        [apply derivable_pt_lim_sinh|apply derivable_pt_lim_cosh|lra].
    + pose proof (cosh2_sinh2 y) as E. unfold Rsqr.
      replace (cosh y * cosh y - sinh y * sinh y) with 1 by lra. reflexivity.
  - eapply derivable_pt_lim_eq; [apply derivable_pt_lim_atan|].
    unfold Rdiv. rewrite Rmult_1_l. f_equal. ring.
  - eapply derivable_pt_lim_eq; [apply derivable_pt_lim_arcsinh|].
    unfold Rdiv. rewrite Rmult_1_l. do 2 f_equal. ring.
Qed.

(** The derivative of [u o v] for two differentiable functions. *)
Lemma arith_derivable (o : arith) (u v : R -> R) (x u' v' : R) :
  derivable_pt_lim u x u' -> derivable_pt_lim v x v' ->
  arith_ok o (u x) (v x) ->
  derivable_pt_lim (fun t => arith_fun o (u t) (v t)) x
    (arith_dl o (u x) (v x) * u' + arith_dr o (u x) (v x) * v').
Proof.
  intros Hu Hv. destruct o; cbn [arith_ok arith_fun arith_dl arith_dr];
    intros Hok.
  - eapply derivable_pt_lim_eq;
      [apply (derivable_pt_lim_plus u v x u' v' Hu Hv)|ring].
  - eapply derivable_pt_lim_eq;
      [apply (derivable_pt_lim_minus u v x u' v' Hu Hv)|ring].
  - eapply derivable_pt_lim_eq;
      [apply (derivable_pt_lim_mult u v x u' v' Hu Hv)|ring].
  - eapply derivable_pt_lim_eq;
      [apply (derivable_pt_lim_div u v x u' v' Hu Hv Hok)|].
    unfold Rsqr. by field.
  - pose proof (derivable_pt_lim_comp u ln x u' (/ u x) Hu
                  (derivable_pt_lim_ln (u x) Hok)) as Hln.
    pose proof (derivable_pt_lim_mult v (comp ln u) x v' _ Hv Hln) as Hm.
    pose proof (derivable_pt_lim_comp _ exp x _ _ Hm
                  (derivable_pt_lim_exp _)) as He.
    eapply derivable_pt_lim_eq; [exact He|].
    rewrite (Rpower_pred _ _ Hok). unfold Rpower, mult_fct, comp.
    field. lra.
Qed.

Lemma insert_same_R (pt : list R) (k : nat) (x : R) :
  pt !! k = Some x -> <[k := x]> pt = pt.
Proof. apply list_insert_id. Qed.

Lemma partial_derivative (pt : list R) (k : nat) (x : R) (e : expr) :
  smooth pt e -> pt !! k = Some x ->
  derivable_pt_lim (fun t => eval (<[k := t]> pt) e) x (partial pt k e).
Proof.
  intros Hs Hk. pose proof (lookup_lt_Some _ _ _ Hk) as Hlt.
  assert (Hat : forall a, eval (<[k := x]> pt) a = eval pt a).
  { intros a. by rewrite insert_same_R. }
  induction e as [j|o a IHa b IHb|o a IHa c|o c b IHb|a IHa|f a IHa];
    cbn [smooth] in Hs; cbn [eval partial].
  - destruct (Nat.eqb_spec j k) as [->|Hne].
    + apply (derivable_pt_lim_ext id); [|apply derivable_pt_lim_id].
      intros t. rewrite nth_lookup, list_lookup_insert_eq by done. done.
    + apply (derivable_pt_lim_ext (fct_cte (nth j pt 0)));
        [|apply derivable_pt_lim_const].
      intros t. rewrite !nth_lookup, list_lookup_insert_ne by done. done.
  - destruct Hs as (Sa & Sb & Hok).
    pose proof (arith_derivable o _ _ x _ _ (IHa Sa) (IHb Sb)) as H.
    cbv beta in H. rewrite !Hat in H. by apply H.
  - destruct Hs as (Sa & Hok).
    pose proof (arith_derivable o _ (fct_cte c) x _ 0 (IHa Sa)
                  (derivable_pt_lim_const c x)) as H.
    cbv beta in H. rewrite !Hat in H. unfold fct_cte in H.
    eapply derivable_pt_lim_eq; [by apply H|ring].
  - destruct Hs as (Sb & Hok).
    pose proof (arith_derivable o (fct_cte c) _ x 0 _
                  (derivable_pt_lim_const c x) (IHb Sb)) as H.
    cbv beta in H. rewrite !Hat in H. unfold fct_cte in H.
    eapply derivable_pt_lim_eq; [by apply H|ring].
  - apply (derivable_pt_lim_opp _ _ _ (IHa Hs)).
  - destruct Hs as (Sa & Hok).
    assert (H : derivable_pt_lim (elementary_fun f)
                  (eval (<[k := x]> pt) a) (elementary_der f (eval pt a))).
    { rewrite Hat. by apply elementary_derivable. }
    apply (derivable_pt_lim_comp _ _ _ _ _ (IHa Sa) H).
Qed.

(** ** The forward mode on an expression *)

Lemma py_pow_sq (v : R) : py_pow v 2 = Ok (VNum (v * v)).
Proof.
  destruct (Req_dec_T v 0) as [->|Hv]; [|by apply py_pow_2].
  unfold py_pow. destruct (Rlt_dec 0 0) as [?|_]; [lra|].
  destruct (Req_dec_T 0 0) as [_|?]; [|done].
  destruct (Rlt_dec 2 0) as [?|_]; [lra|].
  destruct (Req_dec_T 2 0) as [?|_]; [lra|].
  do 2 f_equal. ring.
Qed.

Lemma dual_eq (v v' d d' : R) :
  v = v' -> d = d' -> @Ok Dual.t (Dual.mk v d) = Ok (Dual.mk v' d').
Proof. by intros -> ->. Qed.

Section DualMethods.
Variables (va pa vb pb : R).
Let x := Dual.mk va pa.
Let y := Dual.mk vb pb.

Lemma dual_method_dual (o : arith) :
  arith_ok o va vb ->
  dual_temp.apply_method o x (dual_temp.ADual y)
  = Ok (Dual.mk (arith_fun o va vb)
          (arith_dl o va vb * pa + arith_dr o va vb * pb)).
Proof.
  destruct o; cbn [arith_ok dual_temp.apply_method arith_fun arith_dl
                     arith_dr]; intros Hok.
  - cbn. apply dual_eq; ring.
  - cbn. apply dual_eq; ring.
  - cbn. apply dual_eq; ring.
  - cbn [dual_temp.__truediv__ x y Dual.val Dual.der].
    rewrite py_truediv_ok, py_pow_sq by done. cbn [obind dual_temp.over].
    rewrite py_truediv_ok by nra. cbn. apply dual_eq; [done|by field].
  - cbn [dual_temp.__pow__]. unfold Dual.__pow__, x, y.
    cbn [Dual.val Dual.der].
    rewrite py_pow_pos, math_log_pos, py_truediv_ok by (done || lra).
    cbn. apply dual_eq; [done|]. rewrite (Rpower_pred _ _ Hok). field. lra.
Qed.

Lemma dual_method_num (o : arith) (c : R) :
  arith_ok o va c ->
  dual_temp.apply_method o x (dual_temp.ANum c)
  = Ok (Dual.mk (arith_fun o va c) (arith_dl o va c * pa)).
Proof.
  destruct o; cbn [arith_ok dual_temp.apply_method arith_fun arith_dl];
    intros Hok.
  - cbn. apply dual_eq; ring.
  - cbn. apply dual_eq; ring.
  - cbn. apply dual_eq; ring.
  - cbn [dual_temp.__truediv__ x Dual.val Dual.der].
    rewrite !py_truediv_ok by done. cbn. apply dual_eq; [done|by field].
  - cbn [dual_temp.__pow__ x Dual.val Dual.der].
    rewrite !py_pow_pos by done. cbn. apply dual_eq; [done|ring].
Qed.

Lemma dual_reflected_num (o : arith) (c : R) :
  o <> Power -> arith_ok o c va ->
  dual_temp.apply_reflected o x c
  = Ok (Dual.mk (arith_fun o c va) (arith_dr o c va * pa)).
Proof.
  destruct o; cbn [arith_ok dual_temp.apply_reflected arith_fun arith_dr];
    intros Hne Hok; try done.
  - cbn. apply dual_eq; ring.
  - cbn. apply dual_eq; ring.
  - cbn. apply dual_eq; ring.
  - cbn [dual_temp.__rtruediv__ x Dual.val Dual.der].
    rewrite py_truediv_ok, py_pow_sq by done. cbn [obind dual_temp.over].
    rewrite py_truediv_ok by nra. cbn. apply dual_eq; [done|by field].
Qed.

Lemma dual_elementary (f : elementary) :
  elementary_ok f va ->
  dual_temp.elementary_dual f x
  = Ok (Dual.mk (elementary_fun f va) (elementary_der f va * pa)).
Proof.
  destruct f; cbn [elementary_ok dual_temp.elementary_dual elementary_fun
                     elementary_der x Dual.val Dual.der]; intros Hok;
    try (cbn; apply dual_eq; [done|ring]).
  - rewrite py_pow_sq. cbn [obind dual_temp.over].
    rewrite py_truediv_ok by nra. cbn. done.
  - rewrite py_pow_sq. cbn [obind dual_temp.over dual_temp.scaled].
    rewrite py_truediv_ok by nra. cbn. done.
  - rewrite py_pow_sq. cbn [obind dual_temp.scaled].
    assert (Hpos : 0 < va * va + 1) by nra.
    rewrite py_pow_pos by done. cbn [obind dual_temp.over].
    assert (E : Rpower (va * va + 1) (1 / 2) = sqrt (va * va + 1)).
    { unfold Rdiv. rewrite Rmult_1_l. by apply Rpower_sqrt. }
    rewrite E. pose proof (sqrt_lt_R0 _ Hpos).
    rewrite py_truediv_ok by lra. cbn. done.
Qed.

End DualMethods.

Lemma dual_eval_partial (pt : list R) (i : nat) (e : expr) :
  smooth pt e -> dual_expr e = true ->
  dual_temp.dual_eval (seeded i pt) e
  = Ok (Dual.mk (eval pt e) (partial pt i e)).
Proof.
  induction e as [j|o a IHa b IHb|o a IHa c|o c b IHb|a IHa|f a IHa];
    cbn [smooth dual_expr]; intros Hs Hex; try discriminate;
    cbn [dual_temp.dual_eval eval partial].
  - unfold seeded. rewrite list_lookup_fmap, lookup_seq_lt by done. cbn.
    by rewrite (Nat.eqb_sym i j).
  - destruct Hs as (Sa & Sb & Hok). apply andb_prop in Hex as [Ea Eb].
    rewrite (IHa Sa Ea), (IHb Sb Eb). cbn [obind].
    by apply dual_method_dual.
  - destruct Hs as (Sa & Hok). rewrite (IHa Sa Hex). cbn [obind].
    by apply dual_method_num.
  - destruct Hs as (Sb & Hok).
    assert (Hne : o <> Power) by (by destruct o).
    assert (Eb : dual_expr b = true) by (by destruct o).
    rewrite (IHb Sb Eb). cbn [obind]. by apply dual_reflected_num.
  - destruct Hs as (Sa & Hok). rewrite (IHa Sa Hex). cbn [obind].
    by apply dual_elementary.
Qed.

Lemma for_range_ok {A} (body : nat -> outcome A) (g : nat -> A)
  (l : list nat) (acc : list A) :
  (forall i, i ∈ l -> body i = Ok (g i)) ->
  dual_temp.for_range body l acc = Ok (acc ++ map g l).
Proof.
  revert acc. induction l as [|i l IH]; intros acc H; cbn.
  - by rewrite app_nil_r.
  - rewrite (H i) by (by left). cbn [obind]. rewrite IH.
    + by rewrite <- app_assoc.
    + intros j Hj. apply H. by right.
Qed.

(** The arguments that the driver builds for the pass [i]. *)
Lemma Dual_list_seeded (pt : list R) (i : nat) :
  dual_temp.for_range
    (fun j =>
       if Nat.eqb i j
       then obind (dual_temp.subscript (VList (map VNum pt)) j)
                  (fun v => Dual.__init__ v (VNum 1))
       else obind (dual_temp.subscript (VList (map VNum pt)) j)
                  (fun v => Dual.__init__ v (VNum 0)))
    (seq 0 (length pt)) []
  = Ok (seeded i pt).
Proof.
  rewrite (for_range_ok _
             (fun j => Dual.mk (nth j pt 0) (if Nat.eqb i j then 1 else 0)));
    [done|].
  intros j Hj. apply elem_of_seq in Hj.
  destruct (lookup_lt_is_Some_2 pt j) as [x Hx]; [lia|].
  cbn [dual_temp.subscript]. rewrite list_lookup_fmap, Hx. cbn.
  rewrite (nth_lookup_R _ _ _ Hx). by destruct (Nat.eqb i j).
Qed.

Lemma length_seeded (i : nat) (pt : list R) :
  length (seeded i pt) = length pt.
Proof. unfold seeded. by rewrite length_map, length_seq. Qed.

Lemma get_gradient_dual_fun (pt : list R) (e : expr) :
  smooth pt e -> dual_expr e = true ->
  dual_temp.get_gradient (dual_temp.dual_fun (length pt) e) (length pt)
    (VList (map VNum pt))
  = Ok (map (fun k => partial pt k e) (seq 0 (length pt))).
Proof.
  intros Hs Hex. unfold dual_temp.get_gradient.
  rewrite (for_range_ok _ (fun k => partial pt k e)); [done|].
  intros i Hi. rewrite Dual_list_seeded. cbn [obind].
  unfold dual_temp.dual_fun, dual_temp.call.
  rewrite length_seeded, Nat.eqb_refl, (dual_eval_partial pt i e Hs Hex).
  done.
Qed.

(** ** The two modes on arithmetic expressions *)

Lemma lookup_map_seq {A} (g : nat -> A) (n k : nat) :
  (k < n)%nat -> map g (seq 0 n) !! k = Some (g k).
Proof.
  intros Hk. change (map g (seq 0 n)) with (g <$> seq 0 n).
  by rewrite list_lookup_fmap, lookup_seq_lt.
Qed.

Lemma partials_are_derivatives (pt : list R) (e : expr) :
  smooth pt e ->
  length (map (fun k => partial pt k e) (seq 0 (length pt))) = length pt /\
  forall k x, pt !! k = Some x ->
    exists d,
      map (fun k => partial pt k e) (seq 0 (length pt)) !! k = Some d /\
      derivable_pt_lim (fun t => eval (<[k := t]> pt) e) x d.
Proof.
  intros Hs. split; [by rewrite length_map, length_seq|].
  intros k x Hk. exists (partial pt k e). split.
  - apply (lookup_map_seq (fun k => partial pt k e)).
    by eapply lookup_lt_Some.
  - by apply partial_derivative.
Qed.

(** ** Polynomials on integers *)

Lemma integer_IZR (z : Z) : integer (IZR z).
Proof. by exists z. Qed.

Lemma integer_plus (x y : R) : integer x -> integer y -> integer (x + y).
Proof. intros [a ->] [b ->]. exists (a + b)%Z. by rewrite plus_IZR. Qed.

Lemma integer_mult (x y : R) : integer x -> integer y -> integer (x * y).
Proof. intros [a ->] [b ->]. exists (a * b)%Z. by rewrite mult_IZR. Qed.

Lemma integer_opp (x : R) : integer x -> integer (- x).
Proof. intros [a ->]. exists (- a)%Z. by rewrite opp_IZR. Qed.

Lemma integer_minus (x y : R) : integer x -> integer y -> integer (x - y).
Proof. intros Hx Hy. by apply integer_plus, integer_opp. Qed.

Lemma integer_arith (o : arith) (x y : R) :
  ring_op o = true -> integer x -> integer y ->
  integer (arith_fun o x y) /\ integer (arith_dl o x y) /\
  integer (arith_dr o x y).
Proof.
  intros Ho Hx Hy. destruct o; try discriminate; cbn; (split; [|split]);
    try done; try apply (integer_IZR 1); try apply (integer_IZR (-1)).
  - by apply integer_plus.
  - by apply integer_minus.
  - by apply integer_mult.
Qed.

Lemma integer_nth (pt : list R) (k : nat) :
  Forall integer pt -> integer (nth k pt 0).
Proof.
  intros H. revert k. induction H as [|x pt Hx _ IH]; intros [|k]; cbn;
    try apply (integer_IZR 0); [done|apply IH].
Qed.

(** A polynomial and its partial derivatives take integer values at a point
    of integers. *)
Lemma polynomial_integer (pt : list R) (e : expr) :
  Forall integer pt -> polynomial e ->
  integer (eval pt e) /\ forall k, integer (partial pt k e).
Proof.
  intros Hpt.
  induction e as [j|o a IHa b IHb|o a IHa c|o c b IHb|a IHa|f a IHa];
    cbn [polynomial eval partial].
  - intros _. split; [by apply integer_nth|].
    intros k. destruct (Nat.eqb j k);
      [apply (integer_IZR 1)|apply (integer_IZR 0)].
  - intros (Ho & Ha & Hb).
    destruct (IHa Ha) as [Va Da], (IHb Hb) as [Vb Db].
    destruct (integer_arith o _ _ Ho Va Vb) as (Hf & Hl & Hr).
    split; [done|]. intros k. by apply integer_plus; apply integer_mult.
  - intros (Ho & Ha & Hc). destruct (IHa Ha) as [Va Da].
    destruct (integer_arith o _ _ Ho Va Hc) as (Hf & Hl & Hr).
    split; [done|]. intros k. by apply integer_mult.
  - intros (Ho & Hc & Hb). destruct (IHb Hb) as [Vb Db].
    destruct (integer_arith o _ _ Ho Hc Vb) as (Hf & Hl & Hr).
    split; [done|]. intros k. by apply integer_mult.
  - intros Ha. destruct (IHa Ha) as [Va Da].
    split; [by apply integer_opp|]. intros k. by apply integer_opp.
  - intros [].
Qed.

Lemma polynomial_node_expr (e : expr) : polynomial e -> node_expr e = true.
Proof.
  induction e as [j|o a IHa b IHb|o a IHa c|o c b IHb|a IHa|f a IHa];
    cbn [polynomial node_expr]; try done.
  - intros (Ho & Ha & Hb). rewrite (IHa Ha), (IHb Hb).
    by destruct o.
  - intros (_ & Ha & _). by apply IHa.
  - intros (_ & _ & Hb). by apply IHb.
Qed.

Lemma partials_integer (pt : list R) (e : expr) :
  Forall integer pt -> polynomial e ->
  Forall integer (map (fun k => partial pt k e) (seq 0 (length pt))).
Proof.
  intros Hpt He. apply List.Forall_map, Forall_forall. intros k _.
  by apply polynomial_integer.
Qed.

(** X1.  On a function whose body is a polynomial of its parameters, built
    with [+], [-], [*] and the unary minus from the parameters and from [int]
    constants, and on a point of [int]s, where the arithmetic of Python is
    exact, the reverse-mode driver returns one [int] per coordinate of the
    point, and the [k]-th one is the partial derivative of the polynomial in
    its [k]-th parameter, provided the interpreter allows one nested call
    for each coordinate and each operation. *)
Theorem reverse_mode_gradient (pt : list R) (e : expr) (depth : nat)
  (h : heap) :
  Forall integer pt -> polynomial e -> smooth pt e ->
  (length pt + size e <= depth)%nat ->
  exists gs,
    (AutoDiffR1D depth (node_fun (length pt) e) (VList (map VNum pt)) h).1
    = Ok gs /\
    length gs = length pt /\
    Forall integer gs /\
    forall k x, pt !! k = Some x ->
      exists d, gs !! k = Some d /\
        derivable_pt_lim (fun t => eval (<[k := t]> pt) e) x d.
Proof.
  intros Hpt He Hs Hd. eexists. split; [|split; [|split]].
  - apply AutoDiffR1D_node_fun; [done|by apply polynomial_node_expr|done].
  - by rewrite length_map, length_seq.
  - by apply partials_integer.
  - by apply partials_are_derivatives.
Qed.

Lemma reverse_mode_gradient_witness :
  exists gs,
    (AutoDiffR1D 4 (node_fun (length [3; 2])
                      (EBin Times (EVar 0) (EConstL Minus 1 (EVar 1))))
       (VList (map VNum [3; 2])) []).1 = Ok gs /\
    length gs = length [3; 2] /\
    Forall integer gs /\
    forall k x, [3; 2] !! k = Some x ->
      exists d, gs !! k = Some d /\
        derivable_pt_lim
          (fun t => eval (<[k := t]> [3; 2])
                      (EBin Times (EVar 0) (EConstL Minus 1 (EVar 1)))) x d.
Proof.
  apply (reverse_mode_gradient [3; 2]
           (EBin Times (EVar 0) (EConstL Minus 1 (EVar 1))) 4 []).
  - repeat constructor; apply integer_IZR.
  - cbn. repeat split. apply integer_IZR.
  - cbn. repeat split; lia.
  - cbn. lia.
Defined.

(** X2.  On a function whose body is a polynomial of its parameters, built
    with [+], [-] and [*] from the parameters and from [int] constants, and
    on a point of [int]s, the forward-mode [get_gradient] returns one [int]
    per coordinate, the partial derivatives of the polynomial. *)
Theorem forward_mode_gradient (pt : list R) (e : expr) :
  Forall integer pt -> polynomial e -> dual_expr e = true -> smooth pt e ->
  exists gs,
    dual_temp.get_gradient (dual_temp.dual_fun (length pt) e) (length pt)
      (VList (map VNum pt)) = Ok gs /\
    length gs = length pt /\
    Forall integer gs /\
    forall k x, pt !! k = Some x ->
      exists d, gs !! k = Some d /\
        derivable_pt_lim (fun t => eval (<[k := t]> pt) e) x d.
Proof.
  intros Hpt He Hex Hs. eexists. split; [|split; [|split]].
  - by apply get_gradient_dual_fun.
  - by rewrite length_map, length_seq.
  - by apply partials_integer.
  - by apply partials_are_derivatives.
Qed.

Lemma forward_mode_gradient_witness :
  exists gs,
    dual_temp.get_gradient
      (dual_temp.dual_fun (length [3; 2])
         (EBin Times (EVar 0) (EConstR Plus (EVar 1) 5)))
      (length [3; 2]) (VList (map VNum [3; 2])) = Ok gs /\
    length gs = length [3; 2] /\
    Forall integer gs /\
    forall k x, [3; 2] !! k = Some x ->
      exists d, gs !! k = Some d /\
        derivable_pt_lim
          (fun t => eval (<[k := t]> [3; 2])
                      (EBin Times (EVar 0) (EConstR Plus (EVar 1) 5))) x d.
Proof.
  apply (forward_mode_gradient [3; 2]
           (EBin Times (EVar 0) (EConstR Plus (EVar 1) 5))).
  - repeat constructor; apply integer_IZR.
  - cbn. repeat split. apply integer_IZR.
  - reflexivity.
  - cbn. repeat split; lia.
Defined.

(** X3.  On a polynomial with [int] constants and no unary minus, at a point
    of [int]s, the reverse-mode driver and the forward-mode [get_gradient]
    return the same list of [int]s. *)
Theorem forward_reverse_agree (pt : list R) (e : expr) (depth : nat)
  (h : heap) :
  Forall integer pt -> polynomial e -> dual_expr e = true -> smooth pt e ->
  (length pt + size e <= depth)%nat ->
  exists gs,
    (AutoDiffR1D depth (node_fun (length pt) e) (VList (map VNum pt)) h).1
    = Ok gs /\
    dual_temp.get_gradient (dual_temp.dual_fun (length pt) e) (length pt)
      (VList (map VNum pt)) = Ok gs /\
    Forall integer gs.
Proof.
  intros Hpt He Hd Hs Hdepth. eexists. split; [|split].
  - apply AutoDiffR1D_node_fun; [done|by apply polynomial_node_expr|done].
  - by apply get_gradient_dual_fun.
  - by apply partials_integer.
Qed.

Lemma forward_reverse_agree_witness :
  exists gs,
    (AutoDiffR1D 3 (node_fun (length [3; 2]) (EBin Times (EVar 0) (EVar 1)))
       (VList (map VNum [3; 2])) []).1 = Ok gs /\
    dual_temp.get_gradient
      (dual_temp.dual_fun (length [3; 2]) (EBin Times (EVar 0) (EVar 1)))
      (length [3; 2]) (VList (map VNum [3; 2])) = Ok gs /\
    Forall integer gs.
Proof.
  apply (forward_reverse_agree [3; 2] (EBin Times (EVar 0) (EVar 1)) 3 []).
  - repeat constructor; apply integer_IZR.
  - cbn. repeat split.
  - reflexivity.
  - cbn. repeat split; lia.
  - cbn. lia.
Defined.

(** ** The edges of the reverse-mode driver *)

Lemma list_comp_length {A B} (f : A -> M B) (l : list A) (h : heap)
  (ys : list B) (h' : heap) :
  list_comp f l h = (Ok ys, h') -> length ys = length l.
Proof.
  revert h ys h'. induction l as [|x l IH]; intros h ys h'; cbn [list_comp].
  - by intros [= <- <-].
  - unfold bind at 1. destruct (f x h) as [[y|e] h1]; [|discriminate].
    unfold bind at 1.
    destruct (list_comp f l h1) as [[ys'|e] h2] eqn:E; [|discriminate].
    intros [= <- <-]. cbn [length]. f_equal. by eapply IH.
Qed.

(** X4.  Whatever the function, a gradient that the reverse-mode driver
    returns has one entry for each coordinate of the point. *)
Theorem AutoDiffR1D_one_per_coordinate (depth : nat) (f : pyfun)
  (items : list pyval) (h : heap) (gs : list R) (h' : heap) :
  AutoDiffR1D depth f (VList items) h = (Ok gs, h') ->
  length gs = length items.
Proof.
  unfold AutoDiffR1D. destruct f as [n body|]; cbn [signature_len];
    [|discriminate].
  cbn [py_items]. rewrite bind_ret.
  destruct (negb (n =? length items)%nat); [discriminate|].
  unfold bind at 1.
  destruct (list_comp __init__ items h) as [[vars|e] h1] eqn:Ev;
    [|discriminate].
  apply list_comp_length in Ev. cbn [call]. unfold bind at 1.
  destruct (body vars h1) as [[v|e] h2]; [|discriminate].
  destruct v as [x|r|l| |]; try discriminate.
  unfold _AutoDiffR. unfold bind at 1.
  destruct (set_der r 1 h2) as [[[]|e] h3]; [|discriminate].
  rewrite for_append_list_comp. unfold bind at 1.
  destruct (list_comp _ vars h3) as [[ys|e] h4] eqn:Eg; [|discriminate].
  apply list_comp_length in Eg. intros [= <- <-]. cbn. congruence.
Qed.

Lemma AutoDiffR1D_one_per_coordinate_witness :
  length [1] = length [VNum 5].
Proof.
  apply (AutoDiffR1D_one_per_coordinate 1 f_identity [VNum 5] [] [1]
           [mkNode 5 [] (Some 1)]).
  reflexivity.
Defined.

Lemma list_comp_init_rejects (pre : list R) (v : pyval) (rest : list pyval)
  (h : heap) :
  is_number v = false ->
  list_comp __init__ (map VNum pre ++ v :: rest) h
  = (Raise (TypeError None), h ++ leaves pre).
Proof.
  intros Hv. revert h. induction pre as [|x pre IH]; intros h.
  - cbn [map app list_comp leaves]. rewrite app_nil_r.
    by destruct v.
  - cbn [map app list_comp __init__]. rewrite bind_alloc.
    unfold bind at 1. rewrite IH. cbn [leaves map].
    by rewrite <- app_assoc.
Qed.

(** X5.  When the point has the length that the function expects but one of
    its coordinates is not a number, the reverse-mode driver raises a type
    error without calling the function: the nodes of the coordinates before
    it are all that was built. *)
Theorem AutoDiffR1D_rejects_non_number (depth : nat)
  (body : list ref -> M pyval) (pre : list R) (v : pyval)
  (rest : list pyval) (h : heap) :
  is_number v = false ->
  AutoDiffR1D depth (Def (length (map VNum pre ++ v :: rest)) body)
    (VList (map VNum pre ++ v :: rest)) h
  = (Raise (TypeError None), h ++ leaves pre).
Proof.
  intros Hv. unfold AutoDiffR1D. cbn [signature_len py_items].
  rewrite bind_ret, Nat.eqb_refl. cbv [negb].
  unfold bind at 1. by rewrite list_comp_init_rejects.
Qed.

Lemma AutoDiffR1D_rejects_non_number_witness :
  AutoDiffR1D 1 (Def (length (map VNum [1] ++ VList [] :: [VNum 2]))
                   identity_body)
    (VList (map VNum [1] ++ VList [] :: [VNum 2])) []
  = (Raise (TypeError None), [] ++ leaves [1]).
Proof.
  apply (AutoDiffR1D_rejects_non_number 1 identity_body [1] (VList [])
           [VNum 2] []).
  reflexivity.
Defined.

(** X6.  When the function returns anything but a [Node] (a number, for a
    constant function), the reverse-mode driver raises an attribute error,
    after the function ran. *)
Theorem AutoDiffR1D_needs_a_node (depth : nat) (body : list ref -> M pyval)
  (pt : list R) (h : heap) (v : pyval) (h' : heap) :
  body (seq (length h) (length pt)) (h ++ leaves pt) = (Ok v, h') ->
  is_node v = false ->
  AutoDiffR1D depth (Def (length pt) body) (VList (map VNum pt)) h
  = (Raise AttributeError, h').
Proof.
  intros Hb Hv. unfold AutoDiffR1D. cbn [signature_len py_items].
  rewrite bind_ret, length_map, Nat.eqb_refl. cbv [negb].
  rewrite (bind_ok _ _ _ _ _ (list_comp_init_leaves pt h)). cbn [call].
  rewrite (bind_ok _ _ _ _ _ Hb). by destruct v.
Qed.

Lemma AutoDiffR1D_needs_a_node_witness :
  AutoDiffR1D 1 (Def (length [2]) (fun _ => ret (VNum 7)))
    (VList (map VNum [2])) []
  = (Raise AttributeError, [] ++ leaves [2]).
Proof.
  apply (AutoDiffR1D_needs_a_node 1 (fun _ => ret (VNum 7)) [2] []
           (VNum 7)); reflexivity.
Defined.

(** X7.  An elementary function of [dual_temp.py] in the body makes the
    reverse-mode driver raise a type error: the functions take a [Node] for
    neither a number nor a [Dual]. *)
Theorem reverse_mode_no_elementary (pt : list R) (f : elementary) (a : expr)
  (depth : nat) (h : heap) :
  smooth pt a -> node_expr a = true ->
  (AutoDiffR1D depth (node_fun (length pt) (ECall f a))
     (VList (map VNum pt)) h).1
  = Raise (TypeError None).
Proof.
  intros Hs Hex. unfold AutoDiffR1D, node_fun. cbn [signature_len py_items].
  rewrite bind_ret, length_map, Nat.eqb_refl. cbv [negb].
  rewrite (bind_ok _ _ _ _ _ (list_comp_init_leaves pt h)). cbn [call].
  destruct (node_eval_evaluates (length h) pt a Hs Hex (h ++ leaves pt)
              (tape_leaves h pt)) as (r & g & Ev & _).
  cbn [node_eval]. rewrite !bind_assoc, (bind_ok _ _ _ _ _ Ev).
  by rewrite bind_raise.
Qed.

Lemma reverse_mode_no_elementary_witness :
  (AutoDiffR1D 1 (node_fun (length [2]) (ECall Sin (EVar 0)))
     (VList (map VNum [2])) []).1
  = Raise (TypeError None).
Proof.
  apply (reverse_mode_no_elementary [2] Sin (EVar 0) 1 []).
  - cbn. lia.
  - reflexivity.
Defined.

(** ** Comparisons and errors of the methods *)

(** X8.  The ordering comparisons of two nodes read their values and leave
    the store as it is, and they agree with each other: [a < b] is [b > a],
    [a <= b] is [b >= a]; when [a < b] holds so does [a <= b] and [a >= b]
    does not; when [a > b] holds so does [a >= b] and [a <= b] does not. *)
Theorem comparisons_agree (h : heap) (a b : ref) (na nb : Node) :
  h !! a = Some na -> h !! b = Some nb ->
  __lt__ a (VNode b) h = (Ok (Rltb (val na) (val nb)), h) /\
  __le__ a (VNode b) h = (Ok (Rleb (val na) (val nb)), h) /\
  __gt__ b (VNode a) h = __lt__ a (VNode b) h /\
  __ge__ b (VNode a) h = __le__ a (VNode b) h /\
  (__lt__ a (VNode b) h = (Ok true, h) ->
   __le__ a (VNode b) h = (Ok true, h) /\
   __ge__ a (VNode b) h = (Ok false, h)) /\
  (__gt__ a (VNode b) h = (Ok true, h) ->
   __ge__ a (VNode b) h = (Ok true, h) /\
   __le__ a (VNode b) h = (Ok false, h)).
Proof.
  intros Ha Hb. unfold __lt__, __le__, __gt__, __ge__.
  rewrite !bind_load, Ha, !bind_load, Hb, !bind_load, Ha.
  unfold ret, Rltb, Rleb. repeat split.
  - destruct (Rlt_dec (val na) (val nb)); [|discriminate].
    destruct (Rle_dec (val na) (val nb)); [done|lra].
  - destruct (Rlt_dec (val na) (val nb)); [|discriminate].
    destruct (Rle_dec (val nb) (val na)); [lra|done].
  - destruct (Rlt_dec (val nb) (val na)); [|discriminate].
    destruct (Rle_dec (val nb) (val na)); [done|lra].
  - destruct (Rlt_dec (val nb) (val na)); [|discriminate].
    destruct (Rle_dec (val na) (val nb)); [lra|done].
Qed.

Lemma comparisons_agree_witness :
  __lt__ 0 (VNode 1) [mkNode 1 [] None; mkNode 2 [] None]
  = (Ok (Rltb 1 2), [mkNode 1 [] None; mkNode 2 [] None]) /\
  __gt__ 1 (VNode 0) [mkNode 1 [] None; mkNode 2 [] None]
  = __lt__ 0 (VNode 1) [mkNode 1 [] None; mkNode 2 [] None].
Proof.
  destruct (comparisons_agree [mkNode 1 [] None; mkNode 2 [] None] 0 1
              (mkNode 1 [] None) (mkNode 2 [] None) eq_refl eq_refl)
    as (H1 & _ & H3 & _).
  by split.
Defined.

Lemma Reqb_refl (x : R) : Reqb x x = true.
Proof. unfold Reqb. by destruct (Req_dec_T x x). Qed.

Lemma der_eqb_refl (d : option R) : der_eqb d d = true.
Proof. destruct d; [apply Reqb_refl|done]. Qed.

Lemma items_eq_refl (node_eq : ref -> ref -> M bool) (l : list (ref * R))
  (h : heap) :
  items_eq node_eq l l h = (Ok true, h).
Proof.
  induction l as [|e l IH]; [done|]. cbn [items_eq]. unfold edge_eq.
  rewrite Nat.eqb_refl, bind_assoc, bind_ret, bind_ret, Reqb_refl.
  exact IH.
Qed.

(** X9.  A node whose value and gradient are [int]s (neither is a NaN, which
    is the one float that is not equal to itself) is equal to itself:
    [x == x] is [True] and [x != x] is [False], without a nested call and
    without a change of the store, however long the chains of its successors
    are. *)
Theorem eq_reflexive (h : heap) (a : ref) (na : Node) (depth : nat) :
  h !! a = Some na ->
  integer (val na) -> (forall d, der na = Some d -> integer d) ->
  __eq__ (S depth) a (VNode a) h = (Ok true, h) /\
  __ne__ (S depth) a (VNode a) h = (Ok false, h).
Proof.
  intros Ha _ _.
  assert (E : __eq__ (S depth) a (VNode a) h = (Ok true, h)).
  { cbn [__eq__]. rewrite bind_load, Ha, bind_load, Ha.
    rewrite Reqb_refl, der_eqb_refl. cbv [negb].
    unfold children_eq. rewrite Nat.eqb_refl. apply items_eq_refl. }
  split; [exact E|]. unfold __ne__. by rewrite (bind_ok _ _ _ _ _ E).
Qed.

Lemma eq_reflexive_witness :
  __eq__ 1 0 (VNode 0) [mkNode 1 [(0%nat, 2)] None]
  = (Ok true, [mkNode 1 [(0%nat, 2)] None]) /\
  __ne__ 1 0 (VNode 0) [mkNode 1 [(0%nat, 2)] None]
  = (Ok false, [mkNode 1 [(0%nat, 2)] None]).
Proof.
  apply (eq_reflexive [mkNode 1 [(0%nat, 2)] None] 0
           (mkNode 1 [(0%nat, 2)] None) 0 eq_refl).
  - apply integer_IZR.
  - intros d [=].
Defined.

Lemma Reqb_true (x y : R) : Reqb x y = true -> x = y.
Proof. unfold Reqb. by destruct (Req_dec_T x y). Qed.

Lemma Rleb_refl (x : R) : Rleb x x = true.
Proof. unfold Rleb. destruct (Rle_dec x x); [done|lra]. Qed.

(** X10.  Two nodes that compare equal have the same value, so that both
    [a <= b] and [a >= b] hold; the converse fails, as two nodes of the same
    value are unequal as soon as the gradient is set in one of them only. *)
Theorem eq_and_order (h : heap) (a b : ref) (na nb : Node) (depth : nat) :
  h !! a = Some na -> h !! b = Some nb ->
  (forall h', __eq__ depth a (VNode b) h = (Ok true, h') ->
     val na = val nb /\
     __le__ a (VNode b) h = (Ok true, h) /\
     __ge__ a (VNode b) h = (Ok true, h)) /\
  (val na = val nb -> der na = None -> der nb <> None ->
     __eq__ (S depth) a (VNode b) h = (Ok false, h) /\
     __le__ a (VNode b) h = (Ok true, h) /\
     __ge__ a (VNode b) h = (Ok true, h)).
Proof.
  intros Ha Hb.
  assert (Hord : val na = val nb ->
                 __le__ a (VNode b) h = (Ok true, h) /\
                 __ge__ a (VNode b) h = (Ok true, h)).
  { intros Hv. unfold __le__, __ge__. rewrite !bind_load, Ha, !bind_load, Hb.
    by rewrite Hv, Rleb_refl. }
  split.
  - intros h'. destruct depth as [|depth]; [discriminate|].
    cbn [__eq__]. rewrite bind_load, Ha, bind_load, Hb.
    destruct (Reqb (val na) (val nb)) eqn:Hv; [|discriminate].
    intros _. apply Reqb_true in Hv. by split; [|apply Hord].
  - intros Hv Hda Hdb. split; [|by apply Hord].
    cbn [__eq__]. rewrite bind_load, Ha, bind_load, Hb.
    rewrite Hv, Reqb_refl, Hda. cbv [negb].
    by destruct (der nb).
Qed.

Lemma eq_and_order_witness :
  __eq__ 1 0 (VNode 1) [mkNode 1 [] None; mkNode 1 [] (Some 1)]
  = (Ok false, [mkNode 1 [] None; mkNode 1 [] (Some 1)]) /\
  __le__ 0 (VNode 1) [mkNode 1 [] None; mkNode 1 [] (Some 1)]
  = (Ok true, [mkNode 1 [] None; mkNode 1 [] (Some 1)]) /\
  __ge__ 0 (VNode 1) [mkNode 1 [] None; mkNode 1 [] (Some 1)]
  = (Ok true, [mkNode 1 [] None; mkNode 1 [] (Some 1)]).
Proof.
  apply (eq_and_order [mkNode 1 [] None; mkNode 1 [] (Some 1)] 0 1
           (mkNode 1 [] None) (mkNode 1 [] (Some 1)) 0 eq_refl eq_refl);
    done.
Defined.

(** X11.  A division by a zero constant, by a node of value zero, or of a
    constant by a node of value zero raises [ZeroDivisionError] before any
    node is made: the store is unchanged. *)
Theorem division_by_zero (h : heap) (a b : ref) (na nb : Node) (c : R) :
  h !! a = Some na -> h !! b = Some nb -> val nb = 0 ->
  __truediv__ a (VNum 0) h = (Raise ZeroDivisionError, h) /\
  __truediv__ a (VNode b) h = (Raise ZeroDivisionError, h) /\
  __rtruediv__ b (VNum c) h = (Raise ZeroDivisionError, h).
Proof.
  intros Ha Hb Hv.
  assert (E : forall x, py_truediv x 0 = Raise ZeroDivisionError).
  { intros x. unfold py_truediv. by destruct (Req_dec_T 0 0). }
  repeat split.
  - unfold __truediv__. by rewrite bind_load, Ha, bind_lift, E.
  - unfold __truediv__. by rewrite bind_load, Ha, bind_load, Hb, bind_lift, Hv, E.
  - unfold __rtruediv__. by rewrite bind_load, Hb, bind_lift, Hv, E.
Qed.

Lemma division_by_zero_witness :
  __truediv__ 0 (VNum 0) [mkNode 1 [] None; mkNode 0 [] None]
  = (Raise ZeroDivisionError, [mkNode 1 [] None; mkNode 0 [] None]) /\
  __truediv__ 0 (VNode 1) [mkNode 1 [] None; mkNode 0 [] None]
  = (Raise ZeroDivisionError, [mkNode 1 [] None; mkNode 0 [] None]) /\
  __rtruediv__ 1 (VNum 5) [mkNode 1 [] None; mkNode 0 [] None]
  = (Raise ZeroDivisionError, [mkNode 1 [] None; mkNode 0 [] None]).
Proof.
  exact (division_by_zero [mkNode 1 [] None; mkNode 0 [] None] 0 1
           (mkNode 1 [] None) (mkNode 0 [] None) 5 eq_refl eq_refl eq_refl).
Defined.



(** ** The gradients stay in the nodes *)

Lemma list_comp_get_gradient_cached (depth : nat) (vars : list ref)
  (h : heap) (gs : list R) (h1 : heap) :
  list_comp (get_gradient depth) vars h = (Ok gs, h1) ->
  Forall2 (cached h1) vars gs.
Proof.
  revert h gs. induction vars as [|v vars IH]; intros h gs; cbn [list_comp].
  - intros [= <- <-]. constructor.
  - unfold bind at 1.
    destruct (get_gradient depth v h) as [[g|e] h'] eqn:Eg; [|discriminate].
    unfold bind at 1.
    destruct (list_comp (get_gradient depth) vars h') as [[gs'|e] h2] eqn:El;
      [|discriminate].
    intros [= <- <-]. constructor; [|by eapply IH].
    destruct (get_gradient_caches _ _ _ _ _ Eg) as (n & Hn & Hd).
    pose proof (preserves_list_comp ders_kept ders_kept_refl ders_kept_trans
                  (get_gradient depth) vars (get_gradient_ders_kept depth) h')
      as Hk.
    rewrite El in Hk. by apply (Hk v n g).
Qed.

Lemma list_comp_get_gradient_read (depth : nat) (vars : list ref)
  (gs : list R) (h : heap) :
  Forall2 (cached h) vars gs ->
  list_comp (get_gradient (S depth)) vars h = (Ok gs, h).
Proof.
  induction 1 as [|v g vars gs (n & Hn & Hd) _ IH]; [done|].
  cbn [list_comp get_gradient].
  rewrite bind_assoc, bind_load, Hn, Hd, bind_ret.
  by rewrite (bind_ok _ _ _ _ _ IH).
Qed.

(** X13.  The gradients stay in the nodes: once a backward pass over some
    variables has returned, a second pass over the same variables from any
    other node of the store returns the list of the first pass, and only
    sets the gradient of its own start. *)
Theorem backward_pass_is_cached (depth : nat) (r : ref) (vars : list ref)
  (h : heap) (gs : list R) (h1 : heap) (depth' : nat) (r' : ref)
  (n' : Node) :
  _AutoDiffR depth r vars h = (Ok gs, h1) ->
  h1 !! r' = Some n' -> r' ∉ vars ->
  _AutoDiffR (S depth') r' vars h1
  = (Ok gs, <[r' := mkNode (val n') (children n') (Some 1)]> h1).
Proof.
  intros Hfirst Hr' Hnot.
  assert (Hc : Forall2 (cached h1) vars gs).
  { revert Hfirst. unfold _AutoDiffR. unfold bind at 1.
    destruct (set_der r 1 h) as [[[]|e] h0]; [|discriminate].
    rewrite for_append_list_comp. unfold bind at 1.
    destruct (list_comp _ vars h0) as [[ys|e] h2] eqn:El; [|discriminate].
    intros [= <- <-]. by eapply list_comp_get_gradient_cached. }
  assert (Hc' : Forall2
                  (cached (<[r' := mkNode (val n') (children n') (Some 1)]> h1))
                  vars gs).
  { clear Hfirst. induction Hc as [|v g vars gs (n & Hn & Hd) _ IH];
      constructor.
    - exists n. split; [|done]. rewrite list_lookup_insert_ne; [done|].
      intros ->. apply Hnot. by left.
    - apply IH. intros Hin. apply Hnot. by right. }
  unfold _AutoDiffR, set_der. rewrite bind_assoc, bind_load, Hr'.
  unfold store at 1. unfold bind at 1.
  rewrite for_append_list_comp.
  by rewrite (bind_ok _ _ _ _ _
                (list_comp_get_gradient_read depth' vars gs _ Hc')).
Qed.

Lemma backward_pass_is_cached_witness :
  _AutoDiffR 1 2 [0%nat]
    [mkNode 3 [(1%nat, 2)] (Some (py_sum [1 * 2])); mkNode 6 [] (Some 1);
     mkNode 0 [] None]
  = (Ok [py_sum [1 * 2]],
     <[2%nat := mkNode 0 [] (Some 1)]>
       [mkNode 3 [(1%nat, 2)] (Some (py_sum [1 * 2])); mkNode 6 [] (Some 1);
        mkNode 0 [] None]).
Proof.
  apply (backward_pass_is_cached 2 1 [0%nat]
           [mkNode 3 [(1%nat, 2)] None; mkNode 6 [] None; mkNode 0 [] None]
           [py_sum [1 * 2]] _ 0 2 (mkNode 0 [] None)).
  - reflexivity.
  - reflexivity.
  - intros Hin. inversion Hin as [|? ? ? Hin']. inversion Hin'.
Defined.

(** ** The edges of the forward mode *)

Lemma for_range_raise {A} (body : nat -> outcome A) (g : nat -> A)
  (l1 : list nat) (i : nat) (l2 : list nat) (acc : list A) (e : exn) :
  (forall j, j ∈ l1 -> body j = Ok (g j)) -> body i = Raise e ->
  dual_temp.for_range body (l1 ++ i :: l2) acc = Raise e.
Proof.
  revert acc. induction l1 as [|j l1 IH]; intros acc H Hi; cbn.
  - by rewrite Hi.
  - rewrite (H j) by (by left). cbn [obind]. apply IH; [|done].
    intros j' Hj'. apply H. by right.
Qed.

Lemma for_range_ext {A} (b1 b2 : nat -> outcome A) (l : list nat)
  (acc : list A) :
  (forall i, i ∈ l -> b1 i = b2 i) ->
  dual_temp.for_range b1 l acc = dual_temp.for_range b2 l acc.
Proof.
  revert acc. induction l as [|i l IH]; intros acc H; cbn; [done|].
  rewrite (H i) by (by left). destruct (b2 i) as [y|e]; [|done].
  cbn [obind]. apply IH. intros j Hj. apply H. by right.
Qed.

(** X14.  The forward-mode [get_gradient] does not compare the dimension
    with the point: when the point has fewer coordinates than the dimension
    it raises [IndexError], in the first pass and before the function is
    called. *)
Theorem forward_mode_short_point (f : dual_temp.dfun) (pt : list R)
  (dimension : nat) :
  (length pt < dimension)%nat ->
  dual_temp.get_gradient f dimension (VList (map VNum pt))
  = Raise dual_temp.index_error.
Proof.
  intros Hlt. unfold dual_temp.get_gradient.
  destruct dimension as [|d]; [lia|]. cbn [seq].
  change (0%nat :: seq 1 d) with ([] ++ 0%nat :: seq 1 d) at 2.
  apply (for_range_raise _ (fun _ => 0)); [by intros j []%elem_of_nil|].
  replace (0%nat :: seq 1 d) with (seq 0 (length pt + S (d - length pt)))
    by (replace (length pt + S (d - length pt))%nat with (S d) by lia; done).
  rewrite seq_app. cbn [seq Nat.add].
  rewrite (for_range_raise _
             (fun j => Dual.mk (nth j pt 0) (if Nat.eqb 0 j then 1 else 0))
             _ _ _ _ dual_temp.index_error); [done| |].
  - intros j Hj. apply elem_of_seq in Hj.
    destruct (lookup_lt_is_Some_2 pt j) as [x Hx]; [lia|].
    cbn [dual_temp.subscript]. rewrite list_lookup_fmap, Hx. cbn.
    rewrite (nth_lookup_R _ _ _ Hx). by destruct j.
  - cbn [dual_temp.subscript].
    rewrite list_lookup_fmap, (lookup_ge_None_2 pt) by lia. cbn.
    by destruct (length pt).
Qed.

Lemma forward_mode_short_point_witness :
  dual_temp.get_gradient
    (dual_temp.dual_fun 2 (EBin Plus (EVar 0) (EVar 1))) 2
    (VList (map VNum [3]))
  = Raise dual_temp.index_error.
Proof.
  apply (forward_mode_short_point
           (dual_temp.dual_fun 2 (EBin Plus (EVar 0) (EVar 1))) [3] 2).
  cbn. lia.
Defined.

(** X15.  The forward-mode [get_gradient] reads the first [dimension]
    coordinates of the point only: further coordinates change nothing,
    where the reverse-mode driver raises an exception. *)
Theorem forward_mode_ignores_extra (f : dual_temp.dfun)
  (items extra : list pyval) (dimension : nat) :
  (dimension <= length items)%nat ->
  dual_temp.get_gradient f dimension (VList (items ++ extra))
  = dual_temp.get_gradient f dimension (VList items).
Proof.
  intros Hle. unfold dual_temp.get_gradient.
  apply for_range_ext. intros i _.
  rewrite (for_range_ext _
             (fun j =>
                if Nat.eqb i j
                then obind (dual_temp.subscript (VList items) j)
                           (fun v => Dual.__init__ v (VNum 1))
                else obind (dual_temp.subscript (VList items) j)
                           (fun v => Dual.__init__ v (VNum 0))));
    [done|].
  intros j Hj. apply elem_of_seq in Hj. cbn [dual_temp.subscript].
  by rewrite lookup_app_l by lia.
Qed.

Lemma forward_mode_ignores_extra_witness :
  dual_temp.get_gradient (dual_temp.dual_fun 1 (EVar 0)) 1
    (VList ([VNum 3] ++ [VNum 4]))
  = dual_temp.get_gradient (dual_temp.dual_fun 1 (EVar 0)) 1
      (VList [VNum 3]).
Proof.
  apply (forward_mode_ignores_extra (dual_temp.dual_fun 1 (EVar 0))
           [VNum 3] [VNum 4] 1).
  cbn. lia.
Defined.

Lemma get_gradient_first_pass (f : dual_temp.dfun) (pt : list R) (e : exn) :
  (0 < length pt)%nat ->
  obind (dual_temp.call f (seeded 0 pt))
        (fun function =>
           match function with
           | dual_temp.ADual d => Ok (Dual.der d)
           | _ => Raise AttributeError
           end) = Raise e ->
  dual_temp.get_gradient f (length pt) (VList (map VNum pt)) = Raise e.
Proof.
  intros Hpos Hcall. unfold dual_temp.get_gradient.
  destruct (length pt) as [|d] eqn:Hlen; [lia|]. cbn [seq].
  change (0%nat :: seq 1 d) with ([] ++ 0%nat :: seq 1 d) at 2.
  apply (for_range_raise _ (fun _ => 0)); [by intros j []%elem_of_nil|].
  change (0%nat :: seq 1 d) with (seq 0 (S d)). rewrite <- Hlen.
  by rewrite Dual_list_seeded.
Qed.

(** X16.  [Dual] has no unary minus: on a body [-a] the forward-mode
    [get_gradient] raises a type error, where the reverse mode returns a
    gradient. *)
Theorem forward_mode_no_negation (pt : list R) (a : expr) :
  smooth pt a -> dual_expr a = true -> (0 < length pt)%nat ->
  dual_temp.get_gradient (dual_temp.dual_fun (length pt) (ENeg a))
    (length pt) (VList (map VNum pt))
  = Raise (TypeError None).
Proof.
  intros Hs Hex Hpos. apply get_gradient_first_pass; [done|].
  unfold dual_temp.dual_fun, dual_temp.call.
  rewrite length_seeded, Nat.eqb_refl. cbn [dual_temp.dual_eval].
  by rewrite (dual_eval_partial pt 0 a Hs Hex).
Qed.

Lemma forward_mode_no_negation_witness :
  dual_temp.get_gradient (dual_temp.dual_fun (length [3]) (ENeg (EVar 0)))
    (length [3]) (VList (map VNum [3]))
  = Raise (TypeError None).
Proof.
  apply (forward_mode_no_negation [3] (EVar 0)).
  - cbn. lia.
  - reflexivity.
  - cbn. lia.
Defined.

(** X17.  When the function returns anything but a [Dual] (a number, for a
    constant function), the forward-mode [get_gradient] raises an attribute
    error in the first pass. *)
Theorem forward_mode_needs_a_dual (n : nat)
  (body : list Dual.t -> outcome dual_temp.arg) (pt : list R)
  (v : dual_temp.arg) :
  n = length pt -> (0 < length pt)%nat ->
  body (seeded 0 pt) = Ok v ->
  (forall d, v <> dual_temp.ADual d) ->
  dual_temp.get_gradient (dual_temp.DFun n body) (length pt)
    (VList (map VNum pt))
  = Raise AttributeError.
Proof.
  intros -> Hpos Hb Hv. apply get_gradient_first_pass; [done|].
  cbn [dual_temp.call]. rewrite length_seeded, Nat.eqb_refl, Hb.
  cbn [obind]. destruct v as [x|d|]; [done| |done]. by destruct (Hv d).
Qed.

Lemma forward_mode_needs_a_dual_witness :
  dual_temp.get_gradient
    (dual_temp.DFun 1 (fun _ => Ok (dual_temp.ANum 7))) (length [3])
    (VList (map VNum [3]))
  = Raise AttributeError.
Proof.
  apply (forward_mode_needs_a_dual 1 (fun _ => Ok (dual_temp.ANum 7)) [3]
           (dual_temp.ANum 7)); try done.
  cbn. lia.
Defined.





(** ** The derivative rules of the operations *)

Lemma arith_dl_derivative (o : arith) (x y : R) :
  arith_ok o x y ->
  derivable_pt_lim (fun t => arith_fun o t y) x (arith_dl o x y).
Proof.
  intros Hok.
  pose proof (arith_derivable o id (fct_cte y) x 1 0
                (derivable_pt_lim_id _) (derivable_pt_lim_const y _) Hok)
    as H.
  eapply derivable_pt_lim_eq; [exact H|]. unfold id, fct_cte. ring.
Qed.

Lemma arith_dr_derivative (o : arith) (x y : R) :
  arith_ok o x y ->
  derivable_pt_lim (fun t => arith_fun o x t) y (arith_dr o x y).
Proof.
  intros Hok.
  pose proof (arith_derivable o (fct_cte x) id y 0 1
                (derivable_pt_lim_const x _) (derivable_pt_lim_id _) Hok)
    as H.
  eapply derivable_pt_lim_eq; [exact H|]. unfold id, fct_cte. ring.
Qed.

(** X19.  A binary method of [Node] makes a node that has the value of the
    operator and appends, to each [Node] operand, an edge to it whose weight
    is the partial derivative of the operator in that operand: on two nodes
    (but for [**], see C1), on a node and a number, and reflected, on a
    number and a node.  This holds where the operator is defined (a divisor
    is not zero, the base of a power is positive) and the numbers are in
    range. *)
Theorem node_method_weights (h : heap) (a b : ref) (na nb : Node)
  (o : arith) (c : R) :
  h !! a = Some na -> h !! b = Some nb ->
  (o <> Power ->
   arith_ok o (val na) (val nb) -> arith_in_range o (val na) (val nb) ->
   apply_binop (method o) a (VNode b) h
   = (Ok (length h),
      link2 h (arith_fun o (val na) (val nb))
            a (arith_dl o (val na) (val nb))
            b (arith_dr o (val na) (val nb))) /\
   derivable_pt_lim (fun t => arith_fun o t (val nb)) (val na)
     (arith_dl o (val na) (val nb)) /\
   derivable_pt_lim (fun t => arith_fun o (val na) t) (val nb)
     (arith_dr o (val na) (val nb))) /\
  (arith_ok o (val na) c -> arith_in_range o (val na) c ->
   apply_binop (method o) a (VNum c) h
   = (Ok (length h),
      link1 h (arith_fun o (val na) c) a (arith_dl o (val na) c)) /\
   derivable_pt_lim (fun t => arith_fun o t c) (val na)
     (arith_dl o (val na) c)) /\
  (arith_ok o c (val na) -> arith_in_range o c (val na) ->
   apply_binop (reflected o) a (VNum c) h
   = (Ok (length h),
      link1 h (arith_fun o c (val na)) a (arith_dr o c (val na))) /\
   derivable_pt_lim (fun t => arith_fun o c t) (val na)
     (arith_dr o c (val na))).
Proof.
  intros Ha Hb. split; [|split].
  - intros Ho Hok _. split; [|split].
    + by apply method_node_node.
    + by apply arith_dl_derivative.
    + by apply arith_dr_derivative.
  - intros Hok _. split.
    + by apply method_node_num.
    + by apply arith_dl_derivative.
  - intros Hok _. split.
    + by apply reflected_node_num.
    + by apply arith_dr_derivative.
Qed.

Lemma node_method_weights_witness :
  __truediv__ 0 (VNode 1) [mkNode 1 [] None; mkNode 2 [] None]
  = (Ok 2%nat,
     link2 [mkNode 1 [] None; mkNode 2 [] None] (1 / 2)
           0 (1 / 2) 1 (- 1 / (2 * 2))) /\
  derivable_pt_lim (fun t => t / 2) 1 (1 / 2) /\
  derivable_pt_lim (fun t => 1 / t) 2 (- 1 / (2 * 2)).
Proof.
  assert (Hr : in_float_range (2 * 2)).
  { apply in_float_range_moderate. rewrite Rabs_pos_eq by lra.
    split; [lra|]. replace (2 * 2) with (2 ^ 2) by ring.
    apply (Rle_pow 2 2 1023); [lra|lia]. }
  apply (node_method_weights [mkNode 1 [] None; mkNode 2 [] None] 0 1
           (mkNode 1 [] None) (mkNode 2 [] None) Over 0 eq_refl eq_refl).
  - discriminate.
  - cbn. lra.
  - (split; [|split]); [| |exact Hr]; cbn [val]; apply moderate_small;
      rewrite Rabs_pos_eq by lra; lra.
Defined.

(** X20.  A binary method of [Dual] returns the value of the operator and
    the derivative that the rule of the operator gives: the partial
    derivatives of the operator in its operands, each times the derivative of
    that operand.  This holds on two [Dual]s, on a [Dual] and a number, and
    reflected, on a number and a [Dual] (but for [**], see X18), where the
    operator is defined and the numbers are in range. *)
Theorem dual_method_rules (x y : Dual.t) (o : arith) (c : R) :
  moderate (Dual.der x) -> moderate (Dual.der y) ->
  (arith_ok o (Dual.val x) (Dual.val y) ->
   arith_in_range o (Dual.val x) (Dual.val y) ->
   dual_temp.apply_method o x (dual_temp.ADual y)
   = Ok (Dual.mk (arith_fun o (Dual.val x) (Dual.val y))
           (arith_dl o (Dual.val x) (Dual.val y) * Dual.der x
            + arith_dr o (Dual.val x) (Dual.val y) * Dual.der y)) /\
   derivable_pt_lim (fun t => arith_fun o t (Dual.val y)) (Dual.val x)
     (arith_dl o (Dual.val x) (Dual.val y)) /\
   derivable_pt_lim (fun t => arith_fun o (Dual.val x) t) (Dual.val y)
     (arith_dr o (Dual.val x) (Dual.val y))) /\
  (arith_ok o (Dual.val x) c -> arith_in_range o (Dual.val x) c ->
   dual_temp.apply_method o x (dual_temp.ANum c)
   = Ok (Dual.mk (arith_fun o (Dual.val x) c)
           (arith_dl o (Dual.val x) c * Dual.der x)) /\
   derivable_pt_lim (fun t => arith_fun o t c) (Dual.val x)
     (arith_dl o (Dual.val x) c)) /\
  (o <> Power ->
   arith_ok o c (Dual.val x) -> arith_in_range o c (Dual.val x) ->
   dual_temp.apply_reflected o x c
   = Ok (Dual.mk (arith_fun o c (Dual.val x))
           (arith_dr o c (Dual.val x) * Dual.der x)) /\
   derivable_pt_lim (fun t => arith_fun o c t) (Dual.val x)
     (arith_dr o c (Dual.val x))).
Proof.
  destruct x as [va pa], y as [vb pb]. cbn [Dual.val Dual.der].
  intros _ _. split; [|split].
  - intros Hok _. split; [|split].
    + by apply dual_method_dual.
    + by apply arith_dl_derivative.
    + by apply arith_dr_derivative.
  - intros Hok _. split.
    + by apply dual_method_num.
    + by apply arith_dl_derivative.
  - intros Ho Hok _. split.
    + by apply dual_reflected_num.
    + by apply arith_dr_derivative.
Qed.

Lemma dual_method_rules_witness :
  dual_temp.__mul__ (Dual.mk 3 1) (dual_temp.ADual (Dual.mk 2 0))
  = Ok (Dual.mk (3 * 2) (2 * 1 + 3 * 0)) /\
  derivable_pt_lim (fun t => t * 2) 3 2 /\
  derivable_pt_lim (fun t => 3 * t) 2 3.
Proof.
  apply (dual_method_rules (Dual.mk 3 1) (Dual.mk 2 0) Times 0).
  - apply moderate_small. cbn [Dual.der]. rewrite Rabs_pos_eq by lra. lra.
  - apply moderate_small. cbn [Dual.der]. rewrite Rabs_R0. lra.
  - exact I.
  - (split; [|split]); [| |exact I]; cbn [Dual.val]; apply moderate_small;
      rewrite Rabs_pos_eq by lra; lra.
Defined.

(** X21.  An elementary function of [dual_temp.py] ([sin], [cos], [tan],
    [exp], [sinh], [cosh], [tanh], [arctan], [arcsinh]) follows the chain
    rule on a [Dual]: the value is the function at the value, and the
    derivative is the derivative of the function there times the derivative
    of the argument.  On a number it returns the function at the number, and
    any other argument is a type error.  This holds where the function is
    defined and the numbers are in range. *)
Theorem elementary_rules (f : elementary) (x : Dual.t) :
  elementary_ok f (Dual.val x) -> elementary_in_range f (Dual.val x) ->
  moderate (Dual.der x) ->
  dual_temp.apply_elementary f (dual_temp.ADual x)
  = Ok (dual_temp.ADual
          (Dual.mk (elementary_fun f (Dual.val x))
             (elementary_der f (Dual.val x) * Dual.der x))) /\
  derivable_pt_lim (elementary_fun f) (Dual.val x)
    (elementary_der f (Dual.val x)) /\
  dual_temp.apply_elementary f (dual_temp.ANum (Dual.val x))
  = Ok (dual_temp.ANum (elementary_fun f (Dual.val x))) /\
  dual_temp.apply_elementary f dual_temp.AOther = Raise (TypeError None).
Proof.
  intros Hok _ _. destruct x as [va pa]. cbn [Dual.val Dual.der].
  split; [|split; [|by split]].
  - cbn [dual_temp.apply_elementary].
    by rewrite (dual_elementary va pa f Hok).
  - by apply elementary_derivable.
Qed.

Lemma elementary_rules_witness :
  dual_temp.apply_elementary Sin (dual_temp.ADual (Dual.mk 0 1))
  = Ok (dual_temp.ADual (Dual.mk (sin 0) (cos 0 * 1))) /\
  derivable_pt_lim sin 0 (cos 0).
Proof.
  assert (Hr : elementary_in_range Sin 0).
  { split; [apply moderate_small; rewrite Rabs_R0; lra|exact I]. }
  assert (Hd : moderate (Dual.der (Dual.mk 0 1))).
  { apply moderate_small. cbn [Dual.der]. rewrite Rabs_pos_eq by lra. lra. }
  destruct (elementary_rules Sin (Dual.mk 0 1) I Hr Hd) as (H1 & H2 & _).
  by split.
Defined.
